(** * A prefix-indexed dictionary with ranked completion (src/trie.py)

    Shallow embedding of [TrieNode] and [Trie] and of the methods
    [insert], [contains], [remove], [complete], [stats] and [items], and of
    the command loop [main] of src/app.py that drives them.

    Modelling choices.
    - A word is a [string]; one symbol is one character, compared by its
      code, and [str] comparison is the lexicographic [String.compare].
    - A weight is an IEEE 754 value, [spec_float]: Python's unary minus is
      [SFopp], [==] is [SFeqb] and [<] is [SFltb].  [insert] documents
      finite weights; the results on ranking assume only that no stored
      weight is a NaN ([nan_free]), under which [<] orders the sort keys
      totally.
    - [children] is a Python [dict], which iterates in insertion order: it is
      an association list in that order, [Dict.set] appending a new key at
      the end and [del] dropping the binding.  That keys are unique is the
      representation invariant [wf_node].
    - The methods mutate [self]; every method is a function from the trie
      before the call to the returned value and the trie after the call.
    - [remove], [complete], [stats] and [items] recurse once per level of
      the trie, and Python raises [RecursionError] past its limit.  The
      methods are given twice: as what they compute within the limit, and
      in [Limited] with the limit as an argument and the exception as an
      outcome.  [Heap] gives the queries over the node objects in memory,
      where reading and assigning an attribute are distinct steps. *)

From Stdlib Require Import Strings.Ascii Strings.String.
From Stdlib Require Import List ZArith Bool Lia Sorted Permutation.
From Stdlib Require Import Floats.SpecFloat.
From Stdlib Require DecimalString.
Import ListNotations.

Local Open Scope Z_scope.
Local Open Scope list_scope.

(** ** Weights *)

(** Python's [float]. *)
Abbreviation float := spec_float.

(** The literal [0.0]. *)
Definition float_zero : float := S754_zero false.

Definition is_nan (f : float) : bool :=
  match f with S754_nan => true | _ => false end.

(** ** Insertion-ordered dictionaries keyed by a symbol *)

Module Dict.
Section WithValue.
Context {V : Type}.

Definition t : Type := list (ascii * V).

(** [d.get(k)]: [k in d] when it is [Some v], and then [d[k]] is [v]. *)
Fixpoint get (k : ascii) (d : t) : option V :=
  match d with
  | [] => None
  | (k', v) :: d' => if Ascii.eqb k k' then Some v else get k d'
  end.

(** [d[k] = v]: an existing key keeps its place, a new one goes last. *)
Fixpoint set (k : ascii) (v : V) (d : t) : t :=
  match d with
  | [] => [(k, v)]
  | (k', v') :: d' =>
      if Ascii.eqb k k' then (k, v) :: d' else (k', v') :: set k v d'
  end.

(** [del d[k]] *)
Fixpoint del (k : ascii) (d : t) : t :=
  match d with
  | [] => []
  | (k', v') :: d' =>
      if Ascii.eqb k k' then d' else (k', v') :: del k d'
  end.

Definition keys (d : t) : list ascii := map fst d.

(** [not d], [len(d) == 0] *)
Definition is_empty (d : t) : bool :=
  match d with [] => true | _ :: _ => false end.
End WithValue.
Arguments t : clear implicits.
End Dict.

(** ** Nodes and the trie *)

#[local] Unset Elimination Schemes.
Inductive TrieNode : Type :=
  mkNode { children : Dict.t TrieNode; is_word : bool; freq : float }.
#[local] Set Elimination Schemes.

(** Induction on nodes, with the hypothesis for every child. *)

Section NodeInduction.
Variable P : TrieNode -> Prop.
Hypothesis step :
  forall cs w f, Forall (fun kv => P (snd kv)) cs -> P (mkNode cs w f).

Fixpoint TrieNode_ind (n : TrieNode) : P n :=
  match n with
  | mkNode cs w f =>
      step cs w f
        ((fix go (l : list (ascii * TrieNode))
            : Forall (fun kv => P (snd kv)) l :=
            match l with
            | [] => Forall_nil _
            | kv :: l' => Forall_cons kv (TrieNode_ind (snd kv)) (go l')
            end) cs)
  end.
End NodeInduction.

(** [TrieNode()] *)
Definition new_node : TrieNode := mkNode [] false float_zero.

Record Trie : Type := mkTrie { root : TrieNode; _words : Z; _nodes : Z }.

(** [Trie()] *)
Definition new_trie : Trie := mkTrie new_node 0 1.

(** [path + ch] *)
Definition snoc (path : string) (ch : ascii) : string :=
  (path ++ String ch EmptyString)%string.

(** ** insert *)

(** The loop of [insert] from [node] on, over the symbols still to read; the
    node reached is updated in place, so the result is [node] after the call
    together with the two counters. *)
Fixpoint insert_from (word : string) (f : float) (node : TrieNode)
    (words nodes : Z) : TrieNode * Z * Z :=
  match word with
  | EmptyString =>
      (mkNode (children node) true f,
       if negb (is_word node) then words + 1 else words,
       nodes)
  | String c rest =>
      let '(child, nodes1) :=
        match Dict.get c (children node) with
        | None => (new_node, nodes + 1)
        | Some ch => (ch, nodes)
        end in
      let '(child', words', nodes') := insert_from rest f child words nodes1 in
      (mkNode (Dict.set c child' (children node)) (is_word node) (freq node),
       words', nodes')
  end.

Definition insert (word : string) (f : float) (self : Trie) : unit * Trie :=
  let '(r, w, n) := insert_from word f (root self) (_words self) (_nodes self) in
  (tt, mkTrie r w n).

(** ** contains *)

(** The walk shared by [contains] and [complete]: [None] where the source
    returns early because a symbol has no edge. *)
Fixpoint find_node (word : string) (node : TrieNode) : option TrieNode :=
  match word with
  | EmptyString => Some node
  | String c rest =>
      match Dict.get c (children node) with
      | None => None
      | Some ch => find_node rest ch
      end
  end.

(** The loop of [contains] from [node] on. *)
Definition contains_from (word : string) (node : TrieNode) : bool :=
  match find_node word node with
  | None => false
  | Some m => is_word m
  end.

Definition contains (word : string) (self : Trie) : bool * Trie :=
  (contains_from word (root self), self).

(** ** remove *)

(** What the closure [_remove] shares with its caller: the flag [removed]
    and the counters of [self]. *)
Record RemoveState : Type :=
  mkRS { removed : bool; rs_words : Z; rs_nodes : Z }.

(** [_remove(node, i)], over the suffix [word[i:]]: the node after the call,
    the state after the call, and the returned [should_delete].  This is
    what the closure computes when its calls nest no deeper than the
    interpreter's recursion limit; [Limited._remove] is the closure with the
    limit. *)
Fixpoint _remove (suffix : string) (node : TrieNode) (st : RemoveState)
    : TrieNode * RemoveState * bool :=
  match suffix with
  | EmptyString =>
      if negb (is_word node) then (node, st, false)
      else
        (mkNode (children node) false float_zero,
         mkRS true (rs_words st - 1) (rs_nodes st),
         Dict.is_empty (children node))
  | String ch rest =>
      match Dict.get ch (children node) with
      | None => (node, st, false)
      | Some child =>
          let '(child', st', should_delete) := _remove rest child st in
          let node1 :=
            mkNode (Dict.set ch child' (children node))
                   (is_word node) (freq node) in
          if should_delete then
            let node2 :=
              mkNode (Dict.del ch (children node1))
                     (is_word node1) (freq node1) in
            (node2,
             mkRS (removed st') (rs_words st') (rs_nodes st' - 1),
             negb (is_word node2) && Dict.is_empty (children node2))
          else (node1, st', false)
      end
  end.

Definition remove (word : string) (self : Trie) : bool * Trie :=
  let '(r, st, _) :=
    _remove word (root self) (mkRS false (_words self) (_nodes self)) in
  (removed st, mkTrie r (rs_words st) (rs_nodes st)).

(** ** complete *)

(** An element of [heap]: [(-n.freq, path)]. *)
Definition entry : Type := float * string.

(** [dfs(n, path)] of [complete], appending to [heap]: what it computes
    within the recursion limit; [Limited.dfs] has the limit. *)
Fixpoint dfs (n : TrieNode) (path : string) (heap : list entry) : list entry :=
  let heap1 := if is_word n then heap ++ [(SFopp (freq n), path)] else heap in
  fold_left
    (fun h (kv : ascii * TrieNode) =>
       let (ch, c) := kv in dfs c (snoc path ch) h)
    (children n) heap1.

(** [a < b] on tuples [(float, str)]: the first components that differ under
    [==] decide under [<]; equal tuples are not smaller. *)
Definition entry_lt (a b : entry) : bool :=
  if SFeqb (fst a) (fst b) then
    if String.eqb (snd a) (snd b) then false else String.ltb (snd a) (snd b)
  else SFltb (fst a) (fst b).

(** [list.sort()] is a stable sort that compares with [<] only; on keys that
    [<] orders totally its result is that of the stable insertion sort. *)
Fixpoint sort_insert (x : entry) (l : list entry) : list entry :=
  match l with
  | [] => [x]
  | y :: l' => if entry_lt x y then x :: l else y :: sort_insert x l'
  end.

Definition list_sort (l : list entry) : list entry :=
  fold_left (fun acc x => sort_insert x acc) l [].

(** [l[:k]] for an integer [k] of either sign. *)
Definition slice_to {A : Type} (k : Z) (l : list A) : list A :=
  let n := Z.of_nat (length l) in
  let stop := if k <? 0 then Z.max (k + n) 0 else Z.min k n in
  firstn (Z.to_nat stop) l.

Definition complete (prefix : string) (k : Z) (self : Trie)
    : list string * Trie :=
  (match find_node prefix (root self) with
   | None => []
   | Some node => map snd (slice_to k (list_sort (dfs node prefix [])))
   end, self).

(** ** stats *)

(** [height(node)] of [stats].  The maximum is taken over the children, of
    which there is at least one in that branch; every height is at least 1,
    so folding [Z.max] from 0 gives that maximum.  This is what it computes
    within the recursion limit; [Limited.height] has the limit. *)
Fixpoint height (node : TrieNode) : Z :=
  match children node with
  | [] => 1
  | _ :: _ =>
      1 + fold_right Z.max 0
            (map (fun kv : ascii * TrieNode => let (_, c) := kv in height c)
                 (children node))
  end.

Definition stats (self : Trie) : (Z * Z * Z) * Trie :=
  ((_words self, height (root self), _nodes self), self).

(** ** items *)

(** [dfs(node, path)] of [items], appending to [result]: what it computes
    within the recursion limit; [Limited.items_dfs] has the limit. *)
Fixpoint items_dfs (node : TrieNode) (path : string)
    (result : list (string * float)) : list (string * float) :=
  let result1 :=
    if is_word node then result ++ [(path, freq node)] else result in
  fold_left
    (fun r (kv : ascii * TrieNode) =>
       let (ch, nxt) := kv in items_dfs nxt (snoc path ch) r)
    (children node) result1.

Definition items (self : Trie) : list (string * float) * Trie :=
  (items_dfs (root self) EmptyString [], self).

(** ** Sequences of calls *)

Inductive command : Type :=
| Insert (word : string) (f : float)
| Remove (word : string)
| Contains (word : string)
| Complete (prefix : string) (k : Z)
| Stats
| Items.

(** The trie after one call. *)
Definition exec (c : command) (self : Trie) : Trie :=
  match c with
  | Insert word f => snd (insert word f self)
  | Remove word => snd (remove word self)
  | Contains word => snd (contains word self)
  | Complete prefix k => snd (complete prefix k self)
  | Stats => snd (stats self)
  | Items => snd (items self)
  end.

(** The trie after the calls of [cs], first to last. *)
Definition run (cs : list command) (self : Trie) : Trie :=
  fold_left (fun t c => exec c t) cs self.

(** The weight that [c] passes to [insert], if any, is a number. *)
Definition passes_number (c : command) : bool :=
  match c with Insert _ f => negb (is_nan f) | _ => true end.

Definition is_remove_of (word : string) (c : command) : bool :=
  match c with Remove w => String.eqb w word | _ => false end.

(** [for w, s in pairs: trie.insert(w, s)] on a fresh trie, as [load] does. *)
Definition build (pairs : list (string * float)) : Trie :=
  fold_left (fun t (p : string * float) => snd (insert (fst p) (snd p) t))
            pairs new_trie.

(** ** What the claims speak of *)

(** The sum of [m] over the values of a dictionary. *)
Definition dict_sum {V : Type} (m : V -> Z) (d : Dict.t V) : Z :=
  fold_right Z.add 0 (map (fun kv : ascii * V => let (_, c) := kv in m c) d).

(** Number of nodes reachable from [n], [n] included. *)
Fixpoint size (n : TrieNode) : Z := 1 + dict_sum size (children n).

(** Number of reachable nodes whose terminal flag is set. *)
Fixpoint count_words (n : TrieNode) : Z :=
  (if is_word n then 1 else 0) + dict_sum count_words (children n).

(** [p] holds of every value of a dictionary. *)
Definition dict_all {V : Type} (p : V -> bool) (d : Dict.t V) : bool :=
  forallb (fun kv : ascii * V => let (_, c) := kv in p c) d.

(** A node that is neither terminal nor has a child. *)
Definition dangling (n : TrieNode) : bool :=
  negb (is_word n) && Dict.is_empty (children n).

(** No node strictly below [n] is dangling. *)
Fixpoint no_dangling (n : TrieNode) : bool :=
  dict_all (fun c => negb (dangling c) && no_dangling c) (children n).

Fixpoint distinct (l : list ascii) : bool :=
  match l with
  | [] => true
  | x :: l' => negb (existsb (Ascii.eqb x) l') && distinct l'
  end.

(** The keys of every [children] dictionary are unique. *)
Fixpoint wf_node (n : TrieNode) : bool :=
  distinct (Dict.keys (children n)) && dict_all wf_node (children n).

(** No stored weight is a NaN. *)
Fixpoint nan_free (n : TrieNode) : bool :=
  (negb (is_word n) || negb (is_nan (freq n)))
  && dict_all nan_free (children n).

(** The counters agree with the tree and nothing dangles. *)
Definition counters_exact (self : Trie) : Prop :=
  _nodes self = size (root self)
  /\ _words self = count_words (root self)
  /\ no_dangling (root self) = true.

(** The weight stored for [word] below [node], if [word] is stored. *)
Definition weight_at (word : string) (node : TrieNode) : option float :=
  match find_node word node with
  | Some m => if is_word m then Some (freq m) else None
  | None => None
  end.

Definition weight_of (word : string) (self : Trie) : option float :=
  weight_at word (root self).

(** The words stored below [n] with their weights, in traversal order, each
    word read from [n]. *)
Fixpoint stored (n : TrieNode) : list (string * float) :=
  (if is_word n then [(EmptyString, freq n)] else [])
  ++ flat_map
       (fun kv : ascii * TrieNode =>
          let (ch, c) := kv in
          map (fun p : string * float => (String ch (fst p), snd p))
              (stored c))
       (children n).

(** [w1] is ranked before [w2]: a larger weight, or an equal weight and a
    smaller word. *)
Definition outranks (self : Trie) (w1 w2 : string) : bool :=
  match weight_of w1 self, weight_of w2 self with
  | Some f1, Some f2 =>
      SFltb f2 f1 || (SFeqb f1 f2 && String.ltb w1 w2)
  | _, _ => false
  end.

(** The stored words that start with [prefix]. *)
Definition matches (prefix : string) (self : Trie) : list string :=
  filter (String.prefix prefix) (map fst (fst (items self))).

(** The binary64 value of [m * 2 ^ e]. *)
Definition fl (m e : Z) : float := binary_normalize 53 1024 m e false.

(** The order of [list.sort()] on entries: [a] may stand before [b]. *)
Definition entry_le (a b : entry) : bool := negb (entry_lt b a).

Definition key_ok (a : entry) : bool := negb (is_nan (fst a)).

(** ** Comparisons *)

(** Lexicographic combination of two comparisons. *)
Definition lex (c d : comparison) : comparison :=
  match c with Eq => d | _ => c end.

(** [c3] is what [c1] then [c2] force in a total order. *)
Definition comp_trans (c1 c2 c3 : comparison) : Prop :=
  match c1, c2 with
  | Eq, _ => c3 = c2
  | _, Eq => c3 = c1
  | Lt, Lt => c3 = Lt
  | Gt, Gt => c3 = Gt
  | _, _ => True
  end.

(** Three-way comparison of entries; a NaN key compares as [Eq], since then
    neither [==] nor [<] holds and the tuple is never smaller. *)
Definition entry_cmp (a b : entry) : comparison :=
  match SFcompare (fst a) (fst b) with
  | Some c => lex c (String.compare (snd a) (snd b))
  | None => Eq
  end.

(** The list [heap] of [complete] when it is sorted: empty when the prefix
    has no node. *)
Definition entries (prefix : string) (self : Trie) : list entry :=
  match find_node prefix (root self) with
  | None => []
  | Some node => dfs node prefix []
  end.

(** ** Stored state beyond the claims *)

(** The literal [0.0] and nothing else. *)
Definition is_float_zero (f : float) : bool :=
  match f with S754_zero false => true | _ => false end.

(** Every node that is not terminal carries the weight [0.0], as
    [TrieNode()] sets it and [_remove] resets it. *)
Fixpoint tidy (n : TrieNode) : bool :=
  (is_word n || is_float_zero (freq n)) && dict_all tidy (children n).

(** The length of the longest word of a list, 0 for no word. *)
Definition longest (ws : list string) : Z :=
  fold_right Z.max 0 (map (fun w => Z.of_nat (String.length w)) ws).

(** ** The command loop (src/app.py) *)

(** What [main] takes from outside this repository's sources: the string
    methods and number parsers of Python, as functions ([None] where [float]
    or [int] raise), and the two functions of [io_utils].

    Modelled from the spec: [load_csv] and [save_csv] are not under [src/];
    [load(path)] gives a sequence of (word, weight) pairs or fails, and
    [save(path, pairs)] writes them or fails.  [Files] is whatever they read
    and write; [save_csv] returns it after the call, with [false] when it
    raised. *)
Record Platform : Type := mkPlatform {
  Files : Type;
  str_strip : string -> string;
  str_split : string -> list string;
  str_lower : string -> string;
  to_float : string -> option float;
  to_int : string -> option Z;
  load_csv : Files -> string -> option (list (string * float));
  save_csv : Files -> string -> list (string * float) -> Files * bool
}.

(** The variable [trie] of [main], the files, and the lines printed so far. *)
Record App (P : Platform) : Type := mkApp {
  app_trie : Trie;
  app_files : Files P;
  app_out : list string
}.
Arguments mkApp {P}.
Arguments app_trie {P}.
Arguments app_files {P}.
Arguments app_out {P}.

(** How an iteration of the loop of [main] ends: the loop goes on, [break]
    leaves it, or an exception leaves [main]. *)
Inductive flow : Type := Going | Quit | Crashed.

(** [str(n)] for an integer. *)
Definition str_of_int (n : Z) : string :=
  DecimalString.NilZero.string_of_int (Z.to_int n).

Section Main.
Context {P : Platform}.

(** [print(s)] *)
Definition print_line (s : string) (st : App P) : App P :=
  mkApp (app_trie st) (app_files st) (app_out st ++ [s]).

Definition with_trie (t : Trie) (st : App P) : App P :=
  mkApp t (app_files st) (app_out st).

(** [parts[i]], read only where [len(parts)] has been checked. *)
Definition part (i : nat) (parts : list string) : string :=
  nth i parts EmptyString.

(** The [try] block of the loop for a command word [cmd] and the tokens
    [parts]: the state after it, and whether it ran [break].  Where [float]
    or [int] raise, the handler of the block prints [ERROR].  The methods
    of the trie are taken within the recursion limit. *)
Definition dispatch (cmd : string) (parts : list string) (st : App P)
    : App P * bool :=
  if String.eqb cmd "quit" then (st, true)
  else if String.eqb cmd "load" && Nat.eqb (length parts) 2 then
    (match load_csv P (app_files st) (part 1 parts) with
     | Some pairs => with_trie (build pairs) st
     | None => print_line "ERROR" st
     end, false)
  else if String.eqb cmd "save" && Nat.eqb (length parts) 2 then
    let '(pairs, t) := items (app_trie st) in
    let '(fs, ok) := save_csv P (app_files st) (part 1 parts) pairs in
    (print_line (if ok then "OK" else "ERROR") (mkApp t fs (app_out st)), false)
  else if String.eqb cmd "insert" && Nat.eqb (length parts) 3 then
    let w := str_lower P (part 1 parts) in
    (match to_float P (part 2 parts) with
     | Some f => let '(_, t) := insert w f (app_trie st) in
                 print_line "OK" (with_trie t st)
     | None => print_line "ERROR" st
     end, false)
  else if String.eqb cmd "remove" && Nat.eqb (length parts) 2 then
    let w := str_lower P (part 1 parts) in
    let '(found, t) := remove w (app_trie st) in
    (print_line (if found then "OK" else "MISS") (with_trie t st), false)
  else if String.eqb cmd "contains" && Nat.eqb (length parts) 2 then
    let w := str_lower P (part 1 parts) in
    let '(found, t) := contains w (app_trie st) in
    (print_line (if found then "YES" else "NO") (with_trie t st), false)
  else if String.eqb cmd "complete" && Nat.eqb (length parts) 3 then
    let prefix := str_lower P (part 1 parts) in
    (match to_int P (part 2 parts) with
     | Some k =>
         let '(results, t) := complete prefix k (app_trie st) in
         print_line (match results with
                | [] => EmptyString
                | _ :: _ => String.concat "," results
                end) (with_trie t st)
     | None => print_line "ERROR" st
     end, false)
  else if String.eqb cmd "stats" then
    let '((words, h, nodes), t) := stats (app_trie st) in
    (print_line ("words=" ++ str_of_int words ++ " height=" ++ str_of_int h
            ++ " nodes=" ++ str_of_int nodes)%string (with_trie t st), false)
  else (print_line "ERROR" st, false).

(** One iteration of [for line in sys.stdin].  [parts[0]] is read before the
    [try] block: were [split] to give no token for a line that [strip] left
    non-empty, the exception would leave [main]. *)
Definition step (line : string) (st : App P) : App P * flow :=
  let line := str_strip P line in
  if String.eqb line EmptyString then (st, Going)
  else
    match str_split P line with
    | [] => (st, Crashed)
    | (p0 :: _) as parts =>
        let '(st', stop) := dispatch (str_lower P p0) parts st in
        (st', if stop then Quit else Going)
    end.

(** The loop over the lines of the input, from the state [st]. *)
Fixpoint main_loop (lines : list string) (st : App P) : App P * flow :=
  match lines with
  | [] => (st, Going)
  | line :: rest =>
      match step line st with
      | (st', Going) => main_loop rest st'
      | stopped => stopped
      end
  end.

(** [main()], reading [lines] with the files [fs]. *)
Definition main (fs : Files P) (lines : list string) : App P * flow :=
  main_loop lines (mkApp new_trie fs []).

End Main.

(** A platform to run [main] on: no files, one token per line, no folding
    of case, and the numerals ["1"] and ["2"]. *)
Definition toy_platform : Platform :=
  mkPlatform unit (fun s => s) (fun s => [s]) (fun s => s)
    (fun s => if String.eqb s "1" then Some (fl 1 0) else None)
    (fun s => if String.eqb s "2" then Some 2 else None)
    (fun _ _ => None) (fun fs _ _ => (fs, true)).

(** ** The recursion limit *)

(** [_remove], the two [dfs] and [height] call themselves once per level of
    the trie, and CPython raises [RecursionError] when calls nest deeper
    than its limit.  The definitions above give what these closures compute
    when the limit is not reached; [Limited] below gives the methods with
    the limit, [limit] being the number of nested calls of the closure that
    the interpreter still allows when the method is called.  An exception
    leaves no write behind: [_remove] writes only after its recursive call
    has returned, and the traversals do not write. *)
Inductive outcome (A : Type) : Type :=
| Returned (a : A)
| RecursionError.
Arguments Returned {A}.
Arguments RecursionError {A}.

(** How deep the calls of a traversal nest from [n]: 1 at a node without
    children. *)
Fixpoint levels (n : TrieNode) : nat :=
  S (fold_right Nat.max 0%nat
       (map (fun kv : ascii * TrieNode => let (_, c) := kv in levels c)
            (children n))).

(** How deep the calls of [_remove] nest for [suffix] from [node]: one call
    per node on the path, as far as the path exists. *)
Fixpoint calls (suffix : string) (node : TrieNode) : nat :=
  match suffix with
  | EmptyString => 1%nat
  | String ch rest =>
      match Dict.get ch (children node) with
      | None => 1%nat
      | Some child => S (calls rest child)
      end
  end.

(** How deep [complete] has to recurse for [prefix]: not at all when the
    prefix has no node. *)
Definition complete_depth (prefix : string) (self : Trie) : nat :=
  match find_node prefix (root self) with
  | None => 0%nat
  | Some node => levels node
  end.

(** [sys.getrecursionlimit()] of CPython as shipped; a closure can never
    nest deeper than this. *)
Definition default_limit : nat := 1000%nat.

Module Limited.

(** [_remove(node, i)] with [limit] nested calls left, [None] when the
    interpreter raises [RecursionError]. *)
Fixpoint _remove (limit : nat) (suffix : string) (node : TrieNode)
    (st : RemoveState) : option (TrieNode * RemoveState * bool) :=
  match limit with
  | O => None
  | S limit' =>
      match suffix with
      | EmptyString =>
          if negb (is_word node) then Some (node, st, false)
          else
            Some (mkNode (children node) false float_zero,
                  mkRS true (rs_words st - 1) (rs_nodes st),
                  Dict.is_empty (children node))
      | String ch rest =>
          match Dict.get ch (children node) with
          | None => Some (node, st, false)
          | Some child =>
              match _remove limit' rest child st with
              | None => None
              | Some (child', st', should_delete) =>
                  let node1 :=
                    mkNode (Dict.set ch child' (children node))
                           (is_word node) (freq node) in
                  if should_delete then
                    let node2 :=
                      mkNode (Dict.del ch (children node1))
                             (is_word node1) (freq node1) in
                    Some (node2,
                          mkRS (removed st') (rs_words st') (rs_nodes st' - 1),
                          negb (is_word node2)
                          && Dict.is_empty (children node2))
                  else Some (node1, st', false)
              end
          end
      end
  end.

(** [remove]: what the call gives and the trie after it. *)
Definition remove (limit : nat) (word : string) (self : Trie)
    : outcome bool * Trie :=
  match _remove limit word (root self)
          (mkRS false (_words self) (_nodes self)) with
  | None => (RecursionError, self)
  | Some (r, st, _) => (Returned (removed st), mkTrie r (rs_words st) (rs_nodes st))
  end.

(** [dfs(n, path)] of [complete] with [limit] nested calls left. *)
Fixpoint dfs (limit : nat) (n : TrieNode) (path : string) (heap : list entry)
    : option (list entry) :=
  match limit with
  | O => None
  | S limit' =>
      let heap1 :=
        if is_word n then heap ++ [(SFopp (freq n), path)] else heap in
      fold_left
        (fun (h : option (list entry)) (kv : ascii * TrieNode) =>
           let (ch, c) := kv in
           match h with
           | None => None
           | Some h' => dfs limit' c (snoc path ch) h'
           end)
        (children n) (Some heap1)
  end.

Definition complete (limit : nat) (prefix : string) (k : Z) (self : Trie)
    : outcome (list string) * Trie :=
  match find_node prefix (root self) with
  | None => (Returned [], self)
  | Some node =>
      match dfs limit node prefix [] with
      | None => (RecursionError, self)
      | Some heap => (Returned (map snd (slice_to k (list_sort heap))), self)
      end
  end.

(** [height(node)] of [stats] with [limit] nested calls left; a call with
    the generator it feeds to [max] counts as one. *)
Fixpoint height (limit : nat) (node : TrieNode) : option Z :=
  match limit with
  | O => None
  | S limit' =>
      match children node with
      | [] => Some 1
      | _ :: _ =>
          option_map (Z.add 1)
            (fold_right
               (fun (kv : ascii * TrieNode) (m : option Z) =>
                  let (_, c) := kv in
                  match height limit' c, m with
                  | Some h, Some m' => Some (Z.max h m')
                  | _, _ => None
                  end)
               (Some 0) (children node))
      end
  end.

Definition stats (limit : nat) (self : Trie) : outcome (Z * Z * Z) * Trie :=
  match height limit (root self) with
  | None => (RecursionError, self)
  | Some h => (Returned (_words self, h, _nodes self), self)
  end.

(** [dfs(node, path)] of [items] with [limit] nested calls left. *)
Fixpoint items_dfs (limit : nat) (node : TrieNode) (path : string)
    (result : list (string * float)) : option (list (string * float)) :=
  match limit with
  | O => None
  | S limit' =>
      let result1 :=
        if is_word node then result ++ [(path, freq node)] else result in
      fold_left
        (fun (r : option (list (string * float))) (kv : ascii * TrieNode) =>
           let (ch, nxt) := kv in
           match r with
           | None => None
           | Some r' => items_dfs limit' nxt (snoc path ch) r'
           end)
        (children node) (Some result1)
  end.

Definition items (limit : nat) (self : Trie)
    : outcome (list (string * float)) * Trie :=
  match items_dfs limit (root self) EmptyString [] with
  | None => (RecursionError, self)
  | Some result => (Returned result, self)
  end.

End Limited.

(** ** The objects behind a trie *)

(** The query methods once more, over the objects Python has in memory:
    node objects reached by reference, whose attributes a method reads and
    may assign.  A method body is a function from the store before the call
    to what the call gives and the store after it. *)
Module Heap.

(** A reference to a [TrieNode] object. *)
Definition ref : Type := nat.

(** A [TrieNode] object; its [children] dictionary holds references. *)
Record object : Type :=
  mkObject { children : Dict.t ref; is_word : bool; freq : float }.

(** The node objects by reference, and the attributes of the [Trie]
    instance. *)
Record store : Type :=
  mkStore { objects : list object; root : ref; _words : Z; _nodes : Z }.

Definition action (A : Type) : Type := store -> outcome A * store.

Definition ret {A : Type} (a : A) : action A := fun s => (Returned a, s).

(** [raise RecursionError] *)
Definition raise {A : Type} : action A := fun s => (RecursionError, s).

(** Sequencing; an exception ends the body with the store as it is then. *)
Definition bind {A B : Type} (m : action A) (f : A -> action B) : action B :=
  fun s =>
    match m s with
    | (Returned a, s') => f a s'
    | (RecursionError, s') => (RecursionError, s')
    end.

(** [TrieNode()] as an object. *)
Definition fresh : object := mkObject [] false float_zero.

(** Reading the attributes of the node [r] refers to.  A reference of a
    Python program always has its object; [fresh] stands in elsewhere. *)
Definition node (r : ref) : action object :=
  fun s => (Returned (nth r (objects s) fresh), s).

(** Assigning the attributes of the node [r] refers to. *)
Definition set_node (r : ref) (o : object) : action unit :=
  fun s =>
    (Returned tt,
     mkStore (firstn r (objects s) ++ o :: skipn (S r) (objects s))
             (root s) (_words s) (_nodes s)).

(** [TrieNode()]: a new object, and the reference to it. *)
Definition new_node : action ref :=
  fun s =>
    (Returned (length (objects s)),
     mkStore (objects s ++ [fresh]) (root s) (_words s) (_nodes s)).

(** [self.root], [self._words], [self._nodes] *)
Definition self_root : action ref := fun s => (Returned (root s), s).
Definition self_words : action Z := fun s => (Returned (_words s), s).
Definition self_nodes : action Z := fun s => (Returned (_nodes s), s).

(** [self._words = z], [self._nodes = z] *)
Definition set_words (z : Z) : action unit :=
  fun s => (Returned tt, mkStore (objects s) (root s) z (_nodes s)).
Definition set_nodes (z : Z) : action unit :=
  fun s => (Returned tt, mkStore (objects s) (root s) (_words s) z).

(** [Trie()] *)
Definition new_trie : store := mkStore [fresh] 0%nat 0 1.

(** The loop of [insert] from the node [r] on. *)
Fixpoint insert_from (word : string) (f : float) (r : ref) : action unit :=
  match word with
  | EmptyString =>
      bind (node r) (fun o =>
      bind (if negb (is_word o)
            then bind self_words (fun w => set_words (w + 1))
            else ret tt) (fun _ =>
      set_node r (mkObject (children o) true f)))
  | String c rest =>
      bind (node r) (fun o =>
      match Dict.get c (children o) with
      | Some r' => insert_from rest f r'
      | None =>
          bind new_node (fun r' =>
          bind (set_node r (mkObject (Dict.set c r' (children o))
                                     (is_word o) (freq o))) (fun _ =>
          bind self_nodes (fun n =>
          bind (set_nodes (n + 1)) (fun _ =>
          insert_from rest f r'))))
      end)
  end.

Definition insert (word : string) (f : float) : action unit :=
  bind self_root (insert_from word f).

(** The walk of [complete] along the prefix: [None] where it returns early. *)
Fixpoint walk (prefix : string) (r : ref) : action (option ref) :=
  match prefix with
  | EmptyString => ret (Some r)
  | String c rest =>
      bind (node r) (fun o =>
      match Dict.get c (children o) with
      | None => ret None
      | Some r' => walk rest r'
      end)
  end.

(** [dfs(n, path)] of [complete], with [limit] nested calls left. *)
Fixpoint dfs (limit : nat) (r : ref) (path : string) (heap : list entry)
    : action (list entry) :=
  match limit with
  | O => raise
  | S limit' =>
      bind (node r) (fun o =>
      fold_left
        (fun (m : action (list entry)) (kv : ascii * ref) =>
           let (ch, c) := kv in
           bind m (fun h => dfs limit' c (snoc path ch) h))
        (children o)
        (ret (if is_word o then heap ++ [(SFopp (freq o), path)] else heap)))
  end.

Definition complete (limit : nat) (prefix : string) (k : Z)
    : action (list string) :=
  bind self_root (fun r =>
  bind (walk prefix r) (fun found =>
  match found with
  | None => ret []
  | Some n =>
      bind (dfs limit n prefix []) (fun heap =>
      ret (map snd (slice_to k (list_sort heap))))
  end)).

(** [height(node)] of [stats], with [limit] nested calls left. *)
Fixpoint height (limit : nat) (r : ref) : action Z :=
  match limit with
  | O => raise
  | S limit' =>
      bind (node r) (fun o =>
      match children o with
      | [] => ret 1
      | _ :: _ =>
          bind (fold_left
                  (fun (m : action Z) (kv : ascii * ref) =>
                     let (_, c) := kv in
                     bind m (fun best =>
                     bind (height limit' c) (fun h => ret (Z.max best h))))
                  (children o) (ret 0))
               (fun best => ret (1 + best))
      end)
  end.

Definition stats (limit : nat) : action (Z * Z * Z) :=
  bind self_root (fun r =>
  bind (height limit r) (fun h =>
  bind self_words (fun w =>
  bind self_nodes (fun n => ret (w, h, n))))).

(** [dfs(node, path)] of [items], with [limit] nested calls left. *)
Fixpoint items_dfs (limit : nat) (r : ref) (path : string)
    (result : list (string * float)) : action (list (string * float)) :=
  match limit with
  | O => raise
  | S limit' =>
      bind (node r) (fun o =>
      fold_left
        (fun (m : action (list (string * float))) (kv : ascii * ref) =>
           let (ch, nxt) := kv in
           bind m (fun res => items_dfs limit' nxt (snoc path ch) res))
        (children o)
        (ret (if is_word o then result ++ [(path, freq o)] else result)))
  end.

Definition items (limit : nat) : action (list (string * float)) :=
  bind self_root (fun r => items_dfs limit r EmptyString []).

End Heap.

(** An action that leaves every store as it found it, whether it returns or
    raises. *)
Definition reads_only {A : Type} (m : Heap.action A) : Prop :=
  forall s, snd (m s) = s.

(** The node object behind the reference [r] and all below it spell out the
    tree [n]: same flags and weights, same symbols in the same order. *)
#[local] Unset Elimination Schemes.
Inductive represents (objs : list Heap.object) : Heap.ref -> TrieNode -> Prop :=
| represents_node r cs w f :
    Heap.is_word (nth r objs Heap.fresh) = w ->
    Heap.freq (nth r objs Heap.fresh) = f ->
    Forall2 (fun (kr : ascii * Heap.ref) (kn : ascii * TrieNode) =>
               fst kr = fst kn /\ represents objs (snd kr) (snd kn))
            (Heap.children (nth r objs Heap.fresh)) cs ->
    represents objs r (mkNode cs w f).
#[local] Set Elimination Schemes.

(** The store holds the trie [t]. *)
Definition holds (s : Heap.store) (t : Trie) : Prop :=
  represents (Heap.objects s) (Heap.root s) (root t)
  /\ Heap._words s = _words t
  /\ Heap._nodes s = _nodes t.

(** What a limited closure gives, as an outcome. *)
Definition outcome_of {A : Type} (o : option A) : outcome A :=
  match o with Some a => Returned a | None => RecursionError end.

(** The store after the inserts of [sample_pairs] into a fresh trie. *)
Definition sample_store : Heap.store :=
  snd (Heap.insert "cart" (fl 9 0)
         (snd (Heap.insert "car" (fl 9 0)
                 (snd (Heap.insert "cat" (fl 5 0) Heap.new_trie))))).

(** A word of [n] times the symbol [c]. *)
Fixpoint repeated (c : ascii) (n : nat) : string :=
  match n with O => EmptyString | S n' => String c (repeated c n') end.

(** A trie that holds one word of 1200 symbols, and one that also holds a
    short word. *)
Definition deep_trie : Trie :=
  snd (insert (repeated "a" 1200%nat) (fl 1 0) new_trie).

Definition deep_trie' : Trie := snd (insert "b" (fl 2 0) deep_trie).

(** ** Sample data *)

Definition sample_pairs : list (string * float) :=
  [("cat"%string, fl 5 0); ("car"%string, fl 9 0); ("cart"%string, fl 9 0)].

(** The same pairs in another order. *)
Definition sample_pairs' : list (string * float) :=
  [("car"%string, fl 9 0); ("cat"%string, fl 5 0); ("cart"%string, fl 9 0)].

Definition sample_trie : Trie := build sample_pairs.

(** * Proofs *)

#[local] Arguments size : simpl never.
#[local] Arguments count_words : simpl never.
#[local] Arguments no_dangling : simpl never.
#[local] Arguments wf_node : simpl never.
#[local] Arguments nan_free : simpl never.

(** ** Dictionaries *)

Section DictFacts.
Context {V : Type}.
Implicit Types (d : Dict.t V) (k : ascii) (v : V).

Lemma dict_get_set_same k v d : Dict.get k (Dict.set k v d) = Some v.
Proof.
  induction d as [|[k' v'] d IH]; simpl.
  - now rewrite Ascii.eqb_refl.
  - destruct (Ascii.eqb k k') eqn:E; simpl.
    + now rewrite Ascii.eqb_refl.
    + now rewrite E.
Qed.

Lemma dict_get_set_other k k' v d :
  k <> k' -> Dict.get k' (Dict.set k v d) = Dict.get k' d.
Proof.
  intros Hne. induction d as [|[k0 v0] d IH]; simpl.
  - apply not_eq_sym in Hne. apply Ascii.eqb_neq in Hne. now rewrite Hne.
  - destruct (Ascii.eqb k k0) eqn:E; simpl.
    + apply Ascii.eqb_eq in E. subst k0.
      apply not_eq_sym in Hne. apply Ascii.eqb_neq in Hne. now rewrite Hne.
    + now rewrite IH.
Qed.

Lemma dict_set_get_id k v d : Dict.get k d = Some v -> Dict.set k v d = d.
Proof.
  induction d as [|[k' v'] d IH]; simpl; [discriminate|].
  destruct (Ascii.eqb k k') eqn:E.
  - apply Ascii.eqb_eq in E. now intros [= ->]; subst.
  - intros H. now rewrite IH.
Qed.

Lemma dict_set_absent k v d :
  Dict.get k d = None -> Dict.set k v d = d ++ [(k, v)].
Proof.
  induction d as [|[k' v'] d IH]; simpl; [reflexivity|].
  destruct (Ascii.eqb k k'); [discriminate|].
  intros H. now rewrite IH.
Qed.

Lemma dict_get_del_other k k' d :
  k <> k' -> Dict.get k' (Dict.del k d) = Dict.get k' d.
Proof.
  intros Hne. induction d as [|[k0 v0] d IH]; simpl; [reflexivity|].
  destruct (Ascii.eqb k k0) eqn:E; simpl.
  - apply Ascii.eqb_eq in E. subst k0.
    apply not_eq_sym in Hne. apply Ascii.eqb_neq in Hne. now rewrite Hne.
  - now rewrite IH.
Qed.

Lemma dict_get_In k v d : Dict.get k d = Some v -> In (k, v) d.
Proof.
  induction d as [|[k' v'] d IH]; simpl; [discriminate|].
  destruct (Ascii.eqb k k') eqn:E.
  - apply Ascii.eqb_eq in E. intros [= ->]. left. now subst.
  - auto.
Qed.

Lemma dict_get_None_keys k d :
  Dict.get k d = None <-> ~ In k (Dict.keys d).
Proof.
  induction d as [|[k' v'] d IH]; simpl.
  - tauto.
  - destruct (Ascii.eqb k k') eqn:E.
    + apply Ascii.eqb_eq in E. split; [discriminate|]. intros H. exfalso. auto.
    + apply Ascii.eqb_neq in E. rewrite IH. split.
      * intros H [H1|H1]; [congruence | auto].
      * intros H H1. apply H. now right.
Qed.

Lemma dict_keys_set_present k v v0 d :
  Dict.get k d = Some v0 -> Dict.keys (Dict.set k v d) = Dict.keys d.
Proof.
  induction d as [|[k' v'] d IH]; simpl; [discriminate|].
  destruct (Ascii.eqb k k') eqn:E; simpl.
  - apply Ascii.eqb_eq in E. now subst.
  - intros H. f_equal. now apply IH.
Qed.

(** With unique keys, a binding that is in the dictionary is the one that
    [get] finds. *)
Lemma dict_In_get k v d :
  NoDup (Dict.keys d) -> In (k, v) d -> Dict.get k d = Some v.
Proof.
  induction d as [|[k' v'] d IH]; simpl; [tauto|].
  intros Hnd [H|H].
  - injection H as -> ->. now rewrite Ascii.eqb_refl.
  - inversion Hnd as [|? ? Hnotin Hnd']; subst.
    destruct (Ascii.eqb k k') eqn:E.
    + apply Ascii.eqb_eq in E. subst k'. exfalso. apply Hnotin.
      change (In (fst (k, v)) (map fst d)). now apply in_map.
    + auto.
Qed.

End DictFacts.

Lemma distinct_NoDup (l : list ascii) : distinct l = true <-> NoDup l.
Proof.
  induction l as [|x l IH]; simpl.
  - split; [constructor | reflexivity].
  - rewrite andb_true_iff, negb_true_iff, IH. split.
    + intros [Hx Hl]. constructor; [|assumption].
      intros Hin. assert (existsb (Ascii.eqb x) l = true); [|congruence].
      apply existsb_exists. exists x. split; [assumption | apply Ascii.eqb_refl].
    + intros H. inversion H as [|? ? Hnotin Hnd]; subst. split; [|assumption].
      destruct (existsb (Ascii.eqb x) l) eqn:E; [|reflexivity].
      apply existsb_exists in E. destruct E as [y [Hy Exy]].
      apply Ascii.eqb_eq in Exy. subst y. contradiction.
Qed.

Section DictSum.
Context {V : Type} (m : V -> Z).
Implicit Types (d : Dict.t V) (k : ascii) (v : V).

Lemma dict_sum_app d1 d2 :
  dict_sum m (d1 ++ d2) = dict_sum m d1 + dict_sum m d2.
Proof.
  unfold dict_sum. induction d1 as [|[k v] d1 IH]; simpl; [reflexivity|].
  rewrite IH. lia.
Qed.

Lemma dict_sum_set_present k v v0 d :
  Dict.get k d = Some v0 ->
  dict_sum m (Dict.set k v d) = dict_sum m d - m v0 + m v.
Proof.
  unfold dict_sum. induction d as [|[k' v'] d IH]; simpl; [discriminate|].
  destruct (Ascii.eqb k k'); simpl.
  - intros [= ->]. lia.
  - intros H. rewrite IH by assumption. lia.
Qed.

Lemma dict_sum_set_absent k v d :
  Dict.get k d = None -> dict_sum m (Dict.set k v d) = dict_sum m d + m v.
Proof.
  intros H. rewrite dict_set_absent by assumption. rewrite dict_sum_app.
  unfold dict_sum. simpl. lia.
Qed.

Lemma dict_sum_del k v0 d :
  Dict.get k d = Some v0 -> dict_sum m (Dict.del k d) = dict_sum m d - m v0.
Proof.
  unfold dict_sum. induction d as [|[k' v'] d IH]; simpl; [discriminate|].
  destruct (Ascii.eqb k k'); simpl.
  - intros [= ->]. lia.
  - intros H. rewrite IH by assumption. lia.
Qed.

End DictSum.

Lemma size_eq cs w f : size (mkNode cs w f) = 1 + dict_sum size cs.
Proof. reflexivity. Qed.

Lemma count_words_eq cs w f :
  count_words (mkNode cs w f) = (if w then 1 else 0) + dict_sum count_words cs.
Proof. reflexivity. Qed.

Lemma size_unfold n : size n = 1 + dict_sum size (children n).
Proof. now destruct n. Qed.

Lemma count_words_unfold n :
  count_words n = (if is_word n then 1 else 0) + dict_sum count_words (children n).
Proof. now destruct n. Qed.

Lemma node_eta n : mkNode (children n) (is_word n) (freq n) = n.
Proof. now destruct n. Qed.

(** ** remove of a word that is not stored *)

Lemma _remove_absent word : forall node st,
  contains_from word node = false -> _remove word node st = (node, st, false).
Proof.
  unfold contains_from.
  induction word as [|ch rest IH]; intros node st H; simpl in *.
  - now rewrite H.
  - destruct (Dict.get ch (children node)) as [child|] eqn:G; [|reflexivity].
    rewrite (IH child st H). simpl.
    now rewrite (dict_set_get_id _ _ _ G), node_eta.
Qed.

(** Where the recursion limit is not reached: when [contains(w)] is false,
    [remove(w)] returns false and the trie after the call is the trie before
    it. *)
Lemma remove_absent_unchanged (word : string) (self : Trie) :
  fst (contains word self) = false -> remove word self = (false, self).
Proof.
  intros H. unfold remove. simpl in H.
  rewrite (_remove_absent _ _ _ H). simpl. now destruct self.
Qed.

(** ** Predicates on every child *)

Section DictAll.
Context {V : Type} (p : V -> bool).
Implicit Types (d : Dict.t V) (k : ascii) (v : V).

Lemma dict_all_get k v d :
  dict_all p d = true -> Dict.get k d = Some v -> p v = true.
Proof.
  unfold dict_all. induction d as [|[k' v'] d IH]; simpl; [discriminate|].
  rewrite andb_true_iff. intros [Hv Hd].
  destruct (Ascii.eqb k k'); [now intros [= <-] | now apply IH].
Qed.

Lemma dict_all_set k v d :
  p v = true -> dict_all p d = true -> dict_all p (Dict.set k v d) = true.
Proof.
  unfold dict_all. intros Hv. induction d as [|[k' v'] d IH]; simpl.
  - now rewrite Hv.
  - rewrite andb_true_iff. intros [Hv' Hd].
    destruct (Ascii.eqb k k'); simpl.
    + now rewrite Hv, Hd.
    + now rewrite Hv', IH.
Qed.

Lemma dict_all_del k d :
  dict_all p d = true -> dict_all p (Dict.del k d) = true.
Proof.
  unfold dict_all. induction d as [|[k' v'] d IH]; simpl; [reflexivity|].
  rewrite andb_true_iff. intros [Hv' Hd].
  destruct (Ascii.eqb k k'); simpl; [assumption|].
  now rewrite Hv', IH.
Qed.

Lemma dict_all_In k v d : dict_all p d = true -> In (k, v) d -> p v = true.
Proof.
  unfold dict_all. rewrite forallb_forall. intros H Hin. exact (H _ Hin).
Qed.

End DictAll.

Section DictKeys.
Context {V : Type}.
Implicit Types (d : Dict.t V) (k : ascii) (v : V).

Lemma dict_keys_set_NoDup k v d :
  NoDup (Dict.keys d) -> NoDup (Dict.keys (Dict.set k v d)).
Proof.
  intros Hnd. destruct (Dict.get k d) as [v0|] eqn:G.
  - now rewrite (dict_keys_set_present _ _ _ _ G).
  - rewrite (dict_set_absent _ _ _ G). unfold Dict.keys. rewrite map_app. simpl.
    apply NoDup_app; [assumption | repeat constructor; intros [] |].
    intros a Ha [<-|[]]. now apply dict_get_None_keys in G.
Qed.

Lemma dict_keys_del_incl k d a :
  In a (Dict.keys (Dict.del k d)) -> In a (Dict.keys d).
Proof.
  induction d as [|[k' v'] d IH]; simpl; [tauto|].
  destruct (Ascii.eqb k k'); simpl; tauto.
Qed.

Lemma dict_keys_del_NoDup k d :
  NoDup (Dict.keys d) -> NoDup (Dict.keys (Dict.del k d)).
Proof.
  induction d as [|[k' v'] d IH]; simpl; [trivial|].
  intros H. inversion H as [|? ? Hnotin Hnd]; subst.
  destruct (Ascii.eqb k k'); simpl; [assumption|].
  constructor; [|now apply IH].
  intros Hin. apply Hnotin. now apply dict_keys_del_incl in Hin.
Qed.

End DictKeys.

Lemma no_dangling_unfold n :
  no_dangling n
  = dict_all (fun c => negb (dangling c) && no_dangling c) (children n).
Proof. now destruct n. Qed.

Lemma wf_node_unfold n :
  wf_node n = distinct (Dict.keys (children n)) && dict_all wf_node (children n).
Proof. now destruct n. Qed.

Lemma nan_free_unfold n :
  nan_free n
  = (negb (is_word n) || negb (is_nan (freq n)))
    && dict_all nan_free (children n).
Proof. now destruct n. Qed.

Lemma wf_node_iff n :
  wf_node n = true
  <-> NoDup (Dict.keys (children n)) /\ dict_all wf_node (children n) = true.
Proof. now rewrite wf_node_unfold, andb_true_iff, distinct_NoDup. Qed.

(** ** insert, node by node *)

Lemma insert_from_words word f : forall node words nodes,
  snd (fst (insert_from word f node words nodes))
  = if contains_from word node then words else words + 1.
Proof.
  unfold contains_from.
  induction word as [|c rest IH]; intros node words nodes; simpl.
  - now destruct (is_word node).
  - destruct (Dict.get c (children node)) as [ch|] eqn:G.
    + specialize (IH ch words nodes).
      destruct (insert_from rest f ch words nodes) as [[child' w'] n'].
      exact IH.
    + specialize (IH new_node words (nodes + 1)).
      destruct (insert_from rest f new_node words (nodes + 1)) as [[child' w'] n'].
      simpl in *. rewrite IH. now destruct rest.
Qed.

Lemma insert_from_nodes_present word f : forall node words nodes,
  find_node word node <> None ->
  snd (insert_from word f node words nodes) = nodes.
Proof.
  induction word as [|c rest IH]; intros node words nodes H; simpl in *.
  - reflexivity.
  - destruct (Dict.get c (children node)) as [ch|] eqn:G; [|congruence].
    specialize (IH ch words nodes H).
    destruct (insert_from rest f ch words nodes) as [[child' w'] n'].
    exact IH.
Qed.

Lemma insert_from_measure word f : forall node words nodes,
  let r := insert_from word f node words nodes in
  snd (fst r) - words = count_words (fst (fst r)) - count_words node
  /\ snd r - nodes = size (fst (fst r)) - size node.
Proof.
  induction word as [|c rest IH]; intros node words nodes; simpl.
  - rewrite count_words_eq, size_eq, (count_words_unfold node), (size_unfold node).
    destruct (is_word node); cbn [negb]; lia.
  - destruct (Dict.get c (children node)) as [ch|] eqn:G.
    + specialize (IH ch words nodes).
      destruct (insert_from rest f ch words nodes) as [[child' w'] n'].
      simpl in *. rewrite count_words_eq, size_eq.
      rewrite (count_words_unfold node), (size_unfold node).
      rewrite !(dict_sum_set_present _ _ _ _ _ G). lia.
    + specialize (IH new_node words (nodes + 1)).
      destruct (insert_from rest f new_node words (nodes + 1)) as [[child' w'] n'].
      simpl in *. rewrite count_words_eq, size_eq.
      rewrite (count_words_unfold node), (size_unfold node).
      rewrite !(dict_sum_set_absent _ _ _ _ G).
      change (count_words new_node) with 0 in IH.
      change (size new_node) with 1 in IH. lia.
Qed.

(** The node that [insert] returns to its caller is terminal or has a child,
    and below it no node is dangling if none was. *)
Lemma insert_from_no_dangling word f : forall node words nodes,
  no_dangling node = true ->
  let n' := fst (fst (insert_from word f node words nodes)) in
  dangling n' = false /\ no_dangling n' = true.
Proof.
  induction word as [|c rest IH]; intros node words nodes Hnd; simpl.
  - split; [reflexivity|]. now rewrite no_dangling_unfold in *.
  - assert (Hch : forall child w n,
      no_dangling child = true ->
      let r := mkNode (Dict.set c (fst (fst (insert_from rest f child w n)))
                        (children node)) (is_word node) (freq node) in
      dangling r = false /\ no_dangling r = true).
    { intros child w n Hc. destruct (IH child w n Hc) as [Hd Hn]. split.
      - unfold dangling. simpl.
        destruct (children node) as [|[k v] d]; simpl;
          [|destruct (Ascii.eqb c k)]; apply andb_false_r.
      - rewrite no_dangling_unfold. simpl. apply dict_all_set.
        + now rewrite Hd, Hn.
        + now rewrite no_dangling_unfold in Hnd. }
    destruct (Dict.get c (children node)) as [ch|] eqn:G.
    + assert (Hc : no_dangling ch = true).
      { rewrite no_dangling_unfold in Hnd.
        pose proof (dict_all_get _ _ _ _ Hnd G) as H.
        now apply andb_true_iff in H. }
      specialize (Hch ch words nodes Hc).
      destruct (insert_from rest f ch words nodes) as [[child' w'] n'].
      exact Hch.
    + specialize (Hch new_node words (nodes + 1) eq_refl).
      destruct (insert_from rest f new_node words (nodes + 1)) as [[child' w'] n'].
      exact Hch.
Qed.

Lemma weight_at_new_node word : weight_at word new_node = None.
Proof. unfold weight_at. now destruct word. Qed.

Lemma weight_at_cons c rest node :
  weight_at (String c rest) node
  = match Dict.get c (children node) with
    | Some ch => weight_at rest ch
    | None => None
    end.
Proof. unfold weight_at. simpl. now destruct (Dict.get c (children node)). Qed.

Lemma contains_from_weight_at word node :
  contains_from word node
  = match weight_at word node with Some _ => true | None => false end.
Proof.
  unfold contains_from, weight_at.
  destruct (find_node word node) as [m|]; [|reflexivity].
  now destruct (is_word m).
Qed.

(** [insert] as a map update: the inserted word gets the weight, every other
    word keeps what it had. *)
Lemma insert_from_weight_at word f : forall node words nodes word',
  weight_at word' (fst (fst (insert_from word f node words nodes)))
  = if String.eqb word word' then Some f else weight_at word' node.
Proof.
  induction word as [|c rest IH]; intros node words nodes word'.
  - destruct word' as [|c' rest']; [reflexivity|].
    now rewrite !weight_at_cons.
  - cbn [insert_from].
    assert (Hgen : forall child w n,
      (forall s, weight_at s child
                 = match Dict.get c (children node) with
                   | Some ch => weight_at s ch
                   | None => None
                   end) ->
      weight_at word'
        (mkNode (Dict.set c (fst (fst (insert_from rest f child w n)))
                  (children node)) (is_word node) (freq node))
      = if String.eqb (String c rest) word' then Some f
        else weight_at word' node).
    { intros child w n Hchild. destruct word' as [|c' rest'].
      - unfold weight_at. reflexivity.
      - rewrite !weight_at_cons. cbn [children String.eqb].
        destruct (Ascii.eqb c c') eqn:E.
        + apply Ascii.eqb_eq in E. subst c'.
          rewrite dict_get_set_same, IH, Hchild.
          now destruct (String.eqb rest rest').
        + apply Ascii.eqb_neq in E. now rewrite dict_get_set_other. }
    destruct (Dict.get c (children node)) as [ch|] eqn:G.
    + specialize (Hgen ch words nodes (fun s => eq_refl)).
      destruct (insert_from rest f ch words nodes) as [[child' w'] n'].
      exact Hgen.
    + specialize (Hgen new_node words (nodes + 1) weight_at_new_node).
      destruct (insert_from rest f new_node words (nodes + 1)) as [[child' w'] n'].
      exact Hgen.
Qed.

Lemma insert_from_wf word f : forall node words nodes,
  wf_node node = true ->
  wf_node (fst (fst (insert_from word f node words nodes))) = true.
Proof.
  induction word as [|c rest IH]; intros node words nodes Hwf.
  - now rewrite wf_node_unfold in *.
  - cbn [insert_from].
    assert (Hgen : forall child w n,
      wf_node child = true ->
      wf_node (mkNode (Dict.set c (fst (fst (insert_from rest f child w n)))
                        (children node)) (is_word node) (freq node)) = true).
    { intros child w n Hc. apply wf_node_iff in Hwf. destruct Hwf as [Hk Ha].
      apply wf_node_iff. cbn [children]. split.
      - now apply dict_keys_set_NoDup.
      - apply dict_all_set; [now apply IH | assumption]. }
    destruct (Dict.get c (children node)) as [ch|] eqn:G.
    + assert (Hc : wf_node ch = true).
      { apply wf_node_iff in Hwf. exact (dict_all_get _ _ _ _ (proj2 Hwf) G). }
      specialize (Hgen ch words nodes Hc).
      destruct (insert_from rest f ch words nodes) as [[child' w'] n'].
      exact Hgen.
    + specialize (Hgen new_node words (nodes + 1) eq_refl).
      destruct (insert_from rest f new_node words (nodes + 1)) as [[child' w'] n'].
      exact Hgen.
Qed.

Lemma insert_from_nan_free word f : forall node words nodes,
  is_nan f = false -> nan_free node = true ->
  nan_free (fst (fst (insert_from word f node words nodes))) = true.
Proof.
  induction word as [|c rest IH]; intros node words nodes Hf Hnf.
  - rewrite nan_free_unfold in *. cbn [insert_from fst freq is_word children].
    apply andb_true_iff in Hnf. rewrite Hf. now rewrite (proj2 Hnf).
  - cbn [insert_from].
    assert (Hgen : forall child w n,
      nan_free child = true ->
      nan_free (mkNode (Dict.set c (fst (fst (insert_from rest f child w n)))
                        (children node)) (is_word node) (freq node)) = true).
    { intros child w n Hc. rewrite nan_free_unfold in Hnf |- *.
      apply andb_true_iff in Hnf. destruct Hnf as [H1 H2].
      cbn [children is_word freq]. rewrite H1. cbn [andb].
      apply dict_all_set; [now apply IH | assumption]. }
    destruct (Dict.get c (children node)) as [ch|] eqn:G.
    + assert (Hc : nan_free ch = true).
      { rewrite nan_free_unfold in Hnf. apply andb_true_iff in Hnf.
        exact (dict_all_get _ _ _ _ (proj2 Hnf) G). }
      specialize (Hgen ch words nodes Hc).
      destruct (insert_from rest f ch words nodes) as [[child' w'] n'].
      exact Hgen.
    + specialize (Hgen new_node words (nodes + 1) eq_refl).
      destruct (insert_from rest f new_node words (nodes + 1)) as [[child' w'] n'].
      exact Hgen.
Qed.

(** ** remove, node by node *)

Lemma dict_del_set {V : Type} (k : ascii) (v : V) (d : Dict.t V) :
  Dict.del k (Dict.set k v d) = Dict.del k d.
Proof.
  induction d as [|[k' v'] d IH]; simpl.
  - now rewrite Ascii.eqb_refl.
  - destruct (Ascii.eqb k k') eqn:E; simpl.
    + now rewrite Ascii.eqb_refl.
    + now rewrite E, IH.
Qed.

Lemma dict_set_not_empty {V : Type} (k : ascii) (v : V) (d : Dict.t V) :
  Dict.is_empty (Dict.set k v d) = false.
Proof. destruct d as [|[k' v'] d]; simpl; [|destruct (Ascii.eqb k k')]; reflexivity. Qed.

Lemma dangling_weight_at node word :
  dangling node = true -> weight_at word node = None.
Proof.
  unfold dangling. rewrite andb_true_iff, negb_true_iff. intros [Hw He].
  destruct word as [|c rest].
  - unfold weight_at. simpl. now rewrite Hw.
  - rewrite weight_at_cons. now destruct (children node).
Qed.

Lemma dangling_size node : dangling node = true -> size node = 1.
Proof.
  unfold dangling. rewrite andb_true_iff. intros [_ He].
  rewrite size_unfold. now destruct (children node).
Qed.

Lemma dangling_count_words node : dangling node = true -> count_words node = 0.
Proof.
  unfold dangling. rewrite andb_true_iff, negb_true_iff. intros [Hw He].
  rewrite count_words_unfold, Hw. now destruct (children node).
Qed.

(** What [_remove] does when the word is stored. *)
Lemma _remove_present word : forall node st,
  contains_from word node = true ->
  let r := _remove word node st in
  let n' := fst (fst r) in
  let st' := snd (fst r) in
  removed st' = true
  /\ rs_words st' = rs_words st - 1
  /\ count_words n' = count_words node - 1
  /\ rs_nodes st' - rs_nodes st = size n' - size node
  /\ snd r = dangling n'
  /\ (no_dangling node = true -> no_dangling n' = true)
  /\ (wf_node node = true -> wf_node n' = true)
  /\ (nan_free node = true -> nan_free n' = true)
  /\ (forall w' x, w' <> word ->
        weight_at w' node = Some x -> weight_at w' n' = Some x).
Proof.
  unfold contains_from.
  induction word as [|ch rest IH]; intros node st H; cbn [_remove find_node] in *.
  - rewrite H. cbn [negb fst snd removed rs_words rs_nodes].
    rewrite count_words_eq, size_eq, (count_words_unfold node), (size_unfold node).
    rewrite H. repeat split; try lia.
    + now rewrite !no_dangling_unfold.
    + now rewrite !wf_node_unfold.
    + rewrite !nan_free_unfold. cbn [is_word children negb orb].
      intros Hn. apply andb_true_iff in Hn. exact (proj2 Hn).
    + intros [|c' rest'] x Hne; [congruence|]. now rewrite !weight_at_cons.
  - destruct (Dict.get ch (children node)) as [child|] eqn:G; [|discriminate].
    specialize (IH child st H).
    destruct (_remove rest child st) as [[child' st'] sd].
    cbn [fst snd] in IH.
    destruct IH as (Hrem & Hwords & Hcw & Hsize & Hsd & Hnd & Hwf & Hnf & Hkeep).
    cbn zeta. cbn [children is_word freq].
    assert (G' : Dict.get ch (Dict.set ch child' (children node)) = Some child')
      by apply dict_get_set_same.
    assert (Hweights : forall w' x d,
      (forall c', c' <> ch -> Dict.get c' d = Dict.get c' (children node)) ->
      (forall rest' y, rest' <> rest -> weight_at rest' child = Some y ->
         match Dict.get ch d with
         | Some c => weight_at rest' c
         | None => None
         end = Some y) ->
      w' <> String ch rest -> weight_at w' node = Some x ->
      weight_at w' (mkNode d (is_word node) (freq node)) = Some x).
    { intros [|c' rest'] x d Hother Hsame Hne Hw; [exact Hw|].
      rewrite weight_at_cons in Hw |- *. cbn [children].
      destruct (Ascii.eqb c' ch) eqn:E.
      - apply Ascii.eqb_eq in E. subst c'. rewrite G in Hw.
        apply Hsame; [congruence | assumption].
      - apply Ascii.eqb_neq in E. now rewrite Hother. }
    destruct sd; cbn [fst snd removed rs_words rs_nodes].
    + symmetry in Hsd. rewrite dict_del_set.
      repeat split; try assumption.
      * rewrite count_words_eq, (count_words_unfold node).
        rewrite (dict_sum_del _ _ _ _ G).
        rewrite (dangling_count_words _ Hsd) in Hcw. lia.
      * rewrite size_eq, (size_unfold node), (dict_sum_del _ _ _ _ G).
        rewrite (dangling_size _ Hsd) in Hsize. lia.
      * rewrite !no_dangling_unfold. cbn [children]. apply dict_all_del.
      * rewrite !wf_node_iff. cbn [children]. intros [Hk Ha]. split.
        -- now apply dict_keys_del_NoDup.
        -- now apply dict_all_del.
      * rewrite !nan_free_unfold. cbn [children is_word freq].
        rewrite !andb_true_iff. intros [H1 H2]. split; [assumption|].
        now apply dict_all_del.
      * intros w' x Hne Hw. apply (Hweights w' x); try assumption.
        -- intros c' Hc'. apply dict_get_del_other. congruence.
        -- intros rest' y Hr Hy. apply (Hkeep _ _ Hr) in Hy.
           rewrite (dangling_weight_at _ _ Hsd) in Hy. discriminate.
    + symmetry in Hsd. repeat split; try assumption.
      * rewrite count_words_eq, (count_words_unfold node).
        rewrite (dict_sum_set_present _ _ _ _ _ G). lia.
      * rewrite size_eq, (size_unfold node).
        rewrite (dict_sum_set_present _ _ _ _ _ G). lia.
      * unfold dangling. cbn [children].
        now rewrite dict_set_not_empty, andb_false_r.
      * rewrite !no_dangling_unfold. cbn [children]. intros Ha.
        apply dict_all_set; [|assumption].
        rewrite Hsd. cbn [negb andb]. apply Hnd.
        pose proof (dict_all_get _ _ _ _ Ha G) as Hc.
        now apply andb_true_iff in Hc.
      * rewrite !wf_node_iff. cbn [children]. intros [Hk Ha]. split.
        -- now apply dict_keys_set_NoDup.
        -- apply dict_all_set; [|assumption].
           apply Hwf. exact (dict_all_get _ _ _ _ Ha G).
      * rewrite !nan_free_unfold. cbn [children is_word freq].
        rewrite !andb_true_iff. intros [H1 H2]. split; [assumption|].
        apply dict_all_set; [|assumption].
        apply Hnf. exact (dict_all_get _ _ _ _ H2 G).
      * intros w' x Hne Hw. apply (Hweights w' x); try assumption.
        -- intros c' Hc'. apply dict_get_set_other. congruence.
        -- intros rest' y Hr Hy. rewrite G'. now apply Hkeep.
Qed.

(** ** The methods on the whole trie *)

Lemma insert_fields word f self :
  let r := insert_from word f (root self) (_words self) (_nodes self) in
  snd (insert word f self) = mkTrie (fst (fst r)) (snd (fst r)) (snd r).
Proof.
  unfold insert.
  now destruct (insert_from word f (root self) (_words self) (_nodes self))
    as [[r w] n].
Qed.

Lemma remove_fields word self :
  let r := _remove word (root self) (mkRS false (_words self) (_nodes self)) in
  remove word self
  = (removed (snd (fst r)),
     mkTrie (fst (fst r)) (rs_words (snd (fst r))) (rs_nodes (snd (fst r)))).
Proof.
  unfold remove.
  now destruct (_remove word (root self) (mkRS false (_words self) (_nodes self)))
    as [[r st] sd].
Qed.

Lemma remove_result word self :
  fst (remove word self) = fst (contains word self).
Proof.
  cbn [contains fst]. destruct (contains_from word (root self)) eqn:E.
  - rewrite remove_fields. cbn [fst].
    exact (proj1 (_remove_present word (root self) _ E)).
  - unfold remove. now rewrite (_remove_absent _ _ _ E).
Qed.

Lemma weight_of_insert word f self word' :
  weight_of word' (snd (insert word f self))
  = if String.eqb word word' then Some f else weight_of word' self.
Proof.
  unfold weight_of. rewrite insert_fields. cbn [root].
  apply insert_from_weight_at.
Qed.

Lemma contains_weight_of word self :
  fst (contains word self)
  = match weight_of word self with Some _ => true | None => false end.
Proof. apply contains_from_weight_at. Qed.

Lemma weight_of_remove_other word self w' x :
  w' <> word -> weight_of w' self = Some x ->
  weight_of w' (snd (remove word self)) = Some x.
Proof.
  unfold weight_of. intros Hne Hw.
  destruct (contains_from word (root self)) eqn:E.
  - rewrite remove_fields. cbn [snd root].
    now apply (_remove_present word (root self) _ E).
  - unfold remove. now rewrite (_remove_absent _ _ _ E).
Qed.

Lemma counters_exact_new : counters_exact new_trie.
Proof. repeat split. Qed.

Lemma counters_exact_insert word f self :
  counters_exact self -> counters_exact (snd (insert word f self)).
Proof.
  intros (Hn & Hw & Hd). rewrite insert_fields.
  destruct (insert_from_measure word f (root self) (_words self) (_nodes self))
    as [Hcw Hsz].
  destruct (insert_from_no_dangling word f (root self) (_words self)
              (_nodes self) Hd) as [_ Hnd].
  unfold counters_exact. cbn [root _words _nodes]. cbn zeta in *.
  repeat split; [lia | lia | assumption].
Qed.

Lemma counters_exact_remove word self :
  counters_exact self -> counters_exact (snd (remove word self)).
Proof.
  intros (Hn & Hw & Hd).
  destruct (contains_from word (root self)) eqn:E.
  - rewrite remove_fields.
    destruct (_remove_present word (root self)
                (mkRS false (_words self) (_nodes self)) E)
      as (_ & Hwords & Hcw & Hsize & _ & Hnd & _).
    unfold counters_exact. cbn [snd root _words _nodes rs_words rs_nodes] in *.
    repeat split; [lia | lia | auto].
  - unfold remove. rewrite (_remove_absent _ _ _ E). cbn.
    now repeat split.
Qed.

Lemma counters_exact_exec c self :
  counters_exact self -> counters_exact (exec c self).
Proof.
  destruct c; cbn [exec]; intros H;
    [now apply counters_exact_insert | now apply counters_exact_remove | ..];
    exact H.
Qed.

Lemma run_app cs1 cs2 self : run (cs1 ++ cs2) self = run cs2 (run cs1 self).
Proof. apply fold_left_app. Qed.

Lemma run_cons c cs self : run (c :: cs) self = run cs (exec c self).
Proof. reflexivity. Qed.

Lemma counters_exact_run cs : forall self,
  counters_exact self -> counters_exact (run cs self).
Proof.
  induction cs as [|c cs IH]; intros self H; [exact H|].
  rewrite run_cons. apply IH. now apply counters_exact_exec.
Qed.

Lemma size_pos n : 1 <= size n.
Proof.
  induction n as [cs w f IH] using TrieNode_ind. rewrite size_eq.
  assert (0 <= dict_sum size cs); [|lia].
  unfold dict_sum. induction IH as [|[k c] cs Hc _ IHcs]; simpl in *; lia.
Qed.

(** C3: after any sequence of calls on a fresh trie, [node_count] is the
    number of nodes reachable from the root (root included), [word_count] is
    the number of reachable terminal nodes, and no node below the root is
    both non-terminal and childless. *)
Theorem counters_exact_reachable (cs : list command) :
  let self := run cs new_trie in
  _nodes self = size (root self)
  /\ _words self = count_words (root self)
  /\ no_dangling (root self) = true.
Proof. exact (counters_exact_run cs new_trie counters_exact_new). Qed.

(** C4: inserting a stored word overwrites its weight and leaves
    [word_count] and [node_count] as they were; inserting a word that is not
    stored makes its node terminal, with the weight, and adds exactly one to
    [word_count]. *)
Theorem insert_existing_or_new (word : string) (f : float) (self : Trie) :
  let self' := snd (insert word f self) in
  (fst (contains word self) = true ->
     weight_of word self' = Some f
     /\ _words self' = _words self
     /\ _nodes self' = _nodes self)
  /\ (fst (contains word self) = false ->
        fst (contains word self') = true
        /\ weight_of word self' = Some f
        /\ _words self' = _words self + 1).
Proof.
  cbn zeta.
  assert (Hw : weight_of word (snd (insert word f self)) = Some f)
    by now rewrite weight_of_insert, String.eqb_refl.
  assert (Hc : fst (contains word (snd (insert word f self))) = true)
    by now rewrite contains_weight_of, Hw.
  rewrite insert_fields. rewrite insert_fields in Hw, Hc.
  cbn [_words _nodes contains fst]. rewrite insert_from_words.
  split; intros H; rewrite H; repeat split; try assumption.
  apply insert_from_nodes_present. unfold contains_from in H.
  destruct (find_node word (root self)); congruence.
Qed.

Lemma contains_exec_keeps word c self :
  is_remove_of word c = false ->
  fst (contains word self) = true -> fst (contains word (exec c self)) = true.
Proof.
  intros Hc. rewrite !contains_weight_of.
  destruct (weight_of word self) as [x|] eqn:Hw; [intros _ | discriminate].
  destruct c as [w f|w| | | |]; cbn [exec snd complete stats items contains];
    try now rewrite Hw.
  - rewrite weight_of_insert. destruct (String.eqb w word); [reflexivity|].
    now rewrite Hw.
  - cbn [is_remove_of] in Hc. apply String.eqb_neq in Hc.
    rewrite (weight_of_remove_other w self word x); auto.
Qed.

Lemma contains_run_keeps word cs : forall self,
  forallb (fun c => negb (is_remove_of word c)) cs = true ->
  fst (contains word self) = true -> fst (contains word (run cs self)) = true.
Proof.
  induction cs as [|c cs IH]; intros self Hcs H; [exact H|].
  cbn [forallb] in Hcs. apply andb_true_iff in Hcs. destruct Hcs as [Hc Hcs].
  apply negb_true_iff in Hc.
  rewrite run_cons. apply IH; [assumption|].
  now apply contains_exec_keeps.
Qed.

(** C5: after [insert(w, f)], [contains(w)] is true, and it is still true
    after any further calls (inserts, removes, contains, complete, stats,
    items) none of which is [remove(w)]. *)
Theorem contains_until_removed (word : string) (f : float) (self : Trie)
    (cs : list command) :
  forallb (fun c => negb (is_remove_of word c)) cs = true ->
  fst (contains word (run cs (snd (insert word f self)))) = true.
Proof.
  intros Hcs. apply contains_run_keeps; [assumption|].
  now rewrite contains_weight_of, weight_of_insert, String.eqb_refl.
Qed.

(** C8: [insert("", f)] makes the root terminal, so [contains("")] is true,
    [word_count] grows by one exactly when the empty word was absent and
    [node_count] is unchanged; [remove("")] then returns true; and in every
    state reached from a fresh trie the root is still there: the tree has at
    least one node and [node_count] is at least 1. *)
Theorem empty_word_legal (f : float) (self : Trie) :
  let self' := snd (insert EmptyString f self) in
  is_word (root self') = true
  /\ fst (contains EmptyString self') = true
  /\ _words self'
     = (if fst (contains EmptyString self) then _words self
        else _words self + 1)
  /\ _nodes self' = _nodes self
  /\ fst (remove EmptyString self') = true
  /\ (forall cs : list command,
        1 <= size (root (run cs new_trie)) /\ 1 <= _nodes (run cs new_trie)).
Proof.
  cbn zeta. repeat split.
  - cbn. now destruct (is_word (root self)).
  - pose proof (counters_exact_run cs new_trie counters_exact_new) as (Hn & _).
    apply size_pos.
  - pose proof (counters_exact_run cs new_trie counters_exact_new) as (Hn & _).
    rewrite Hn. apply size_pos.
Qed.

(** ** The order on weights, words and entries *)

Lemma comp_trans_lex c1 c2 c3 d1 d2 d3 :
  comp_trans c1 c2 c3 -> comp_trans d1 d2 d3 ->
  comp_trans (lex c1 d1) (lex c2 d2) (lex c3 d3).
Proof.
  destruct c1, c2, c3; simpl; trivial; try discriminate;
    destruct d1, d2, d3; simpl; trivial; discriminate.
Qed.

Lemma comp_trans_opp c1 c2 c3 :
  comp_trans c1 c2 c3 -> comp_trans (CompOpp c1) (CompOpp c2) (CompOpp c3).
Proof. destruct c1, c2, c3; simpl; trivial; discriminate. Qed.

Lemma Z_compare_trans (a b c : Z) : comp_trans (a ?= b) (b ?= c) (a ?= c).
Proof.
  destruct (Z.compare_spec a b), (Z.compare_spec b c); simpl; subst;
    trivial; try (apply Z.compare_eq_iff; lia);
    try (apply Z.compare_lt_iff; lia); try (apply Z.compare_gt_iff; lia).
Qed.

Lemma Pos_compare_trans (a b c : positive) :
  comp_trans (a ?= b)%positive (b ?= c)%positive (a ?= c)%positive.
Proof.
  destruct (Pos.compare_spec a b), (Pos.compare_spec b c); simpl; subst;
    trivial; try (apply Pos.compare_eq_iff; lia);
    try (apply Pos.compare_lt_iff; lia); try (apply Pos.compare_gt_iff; lia).
Qed.

Lemma N_compare_trans (a b c : N) :
  comp_trans (a ?= b)%N (b ?= c)%N (a ?= c)%N.
Proof.
  destruct (N.compare_spec a b), (N.compare_spec b c); simpl; subst;
    trivial; try (apply N.compare_eq_iff; lia);
    try (apply N.compare_lt_iff; lia); try (apply N.compare_gt_iff; lia).
Qed.

Lemma String_compare_lex c1 s1 c2 s2 :
  String.compare (String c1 s1) (String c2 s2)
  = lex (Ascii.compare c1 c2) (String.compare s1 s2).
Proof. simpl. now destruct (Ascii.compare c1 c2). Qed.

Lemma String_compare_trans a : forall b c,
  comp_trans (String.compare a b) (String.compare b c) (String.compare a c).
Proof.
  induction a as [|x a IH]; intros [|y b] [|z c]; try (simpl; trivial; fail).
  - change (comp_trans Lt (String.compare (String y b) (String z c)) Lt).
    now destruct (String.compare (String y b) (String z c)).
  - change (comp_trans (String.compare (String x a) (String y b)) Gt Gt).
    now destruct (String.compare (String x a) (String y b)).
  - rewrite !String_compare_lex. apply comp_trans_lex; [|apply IH].
    apply N_compare_trans.
Qed.

Lemma String_compare_refl a : String.compare a a = Eq.
Proof.
  induction a as [|x a IH]; [reflexivity|]. simpl.
  unfold Ascii.compare. now rewrite N.compare_refl.
Qed.

Lemma SFcompare_total a b :
  is_nan a = false -> is_nan b = false -> exists c, SFcompare a b = Some c.
Proof.
  destruct a, b; simpl; try discriminate; intros _ _; eexists; reflexivity.
Qed.

Lemma SFcompare_nan a b :
  SFcompare a b = None -> is_nan a = true \/ is_nan b = true.
Proof.
  destruct (is_nan a) eqn:Ha; [now left|].
  destruct (is_nan b) eqn:Hb; [now right|].
  destruct (SFcompare_total a b Ha Hb) as [c Hc]. congruence.
Qed.

Lemma finite_compare_antisym (e1 e2 : Z) (m1 m2 : positive) :
  lex (e2 ?= e1) (m2 ?= m1)%positive
  = CompOpp (lex (e1 ?= e2) (m1 ?= m2)%positive).
Proof.
  rewrite (Z.compare_antisym e1 e2), (Pos.compare_antisym m1 m2).
  now destruct (e1 ?= e2), (m1 ?= m2)%positive.
Qed.

Lemma SFcompare_finite s1 m1 e1 s2 m2 e2 :
  SFcompare (S754_finite s1 m1 e1) (S754_finite s2 m2 e2)
  = Some (match s1, s2 with
          | true, false => Lt
          | false, true => Gt
          | false, false => lex (e1 ?= e2) (m1 ?= m2)%positive
          | true, true => CompOpp (lex (e1 ?= e2) (m1 ?= m2)%positive)
          end).
Proof.
  unfold SFcompare. change (Pos.compare_cont Eq m1 m2) with (m1 ?= m2)%positive.
  destruct s1, s2; try reflexivity; now destruct (e1 ?= e2).
Qed.

#[local] Opaque lex.

Lemma SFcompare_antisym a b c :
  SFcompare a b = Some c -> SFcompare b a = Some (CompOpp c).
Proof.
  destruct a as [sa|sa| |sa ma ea], b as [sb|sb| |sb mb eb];
    rewrite ?SFcompare_finite;
    try (simpl; discriminate);
    try (destruct sa); try (destruct sb);
    try (simpl; intros [= <-]; reflexivity);
    intros [= <-]; f_equal; rewrite finite_compare_antisym;
    now rewrite ?CompOpp_involutive.
Qed.

Lemma SFcompare_opp a b : SFcompare (SFopp a) (SFopp b) = SFcompare b a.
Proof.
  destruct a as [sa|sa| |sa ma ea], b as [sb|sb| |sb mb eb];
    cbn [SFopp]; rewrite ?SFcompare_finite;
    try reflexivity;
    try (destruct sa); try (destruct sb); try reflexivity;
    cbn [negb]; f_equal; rewrite finite_compare_antisym;
    now rewrite ?CompOpp_involutive.
Qed.

Lemma SFcompare_trans a b c c1 c2 :
  SFcompare a b = Some c1 -> SFcompare b c = Some c2 ->
  exists c3, SFcompare a c = Some c3 /\ comp_trans c1 c2 c3.
Proof.
  destruct a as [sa|sa| |sa ma ea], b as [sb|sb| |sb mb eb],
           c as [sc|sc| |sc mc ec];
    rewrite ?SFcompare_finite;
    try (simpl; discriminate);
    try (destruct sa); try (destruct sb); try (destruct sc);
    intros [= <-] [= <-]; (eexists; split; [reflexivity|]);
    first
      [ apply comp_trans_opp, comp_trans_lex;
        [apply Z_compare_trans | apply Pos_compare_trans]
      | apply comp_trans_lex; [apply Z_compare_trans | apply Pos_compare_trans]
      | simpl;
        repeat match goal with
               | |- context [lex ?x ?y] => destruct (lex x y)
               end;
        simpl; trivial ].
Qed.

#[local] Transparent lex.

Lemma is_nan_opp a : is_nan (SFopp a) = is_nan a.
Proof. now destruct a. Qed.

Lemma entry_lt_cmp a b :
  entry_lt a b = match entry_cmp a b with Lt => true | _ => false end.
Proof.
  unfold entry_lt, entry_cmp, SFeqb, SFltb.
  destruct (SFcompare (fst a) (fst b)) as [[| |]|]; simpl; try reflexivity.
  unfold String.ltb. destruct (String.eqb_spec (snd a) (snd b)) as [->|];
    [now rewrite String_compare_refl | reflexivity].
Qed.

Lemma entry_cmp_antisym a b :
  key_ok a = true -> key_ok b = true ->
  entry_cmp b a = CompOpp (entry_cmp a b).
Proof.
  unfold key_ok, entry_cmp. rewrite !negb_true_iff. intros Ha Hb.
  destruct (SFcompare_total _ _ Ha Hb) as [c Hc].
  rewrite Hc, (SFcompare_antisym _ _ _ Hc), (String.compare_antisym (snd a)).
  now destruct c, (String.compare (snd b) (snd a)).
Qed.

Lemma entry_cmp_trans a b c :
  key_ok a = true -> key_ok b = true -> key_ok c = true ->
  comp_trans (entry_cmp a b) (entry_cmp b c) (entry_cmp a c).
Proof.
  unfold key_ok, entry_cmp. rewrite !negb_true_iff. intros Ha Hb Hc.
  destruct (SFcompare_total _ _ Ha Hb) as [c1 H1].
  destruct (SFcompare_total _ _ Hb Hc) as [c2 H2].
  destruct (SFcompare_trans _ _ _ _ _ H1 H2) as [c3 [H3 Ht]].
  rewrite H1, H2, H3. apply comp_trans_lex; [assumption|].
  apply String_compare_trans.
Qed.

Lemma entry_cmp_Eq a b :
  key_ok a = true -> key_ok b = true -> entry_cmp a b = Eq ->
  SFeqb (fst a) (fst b) = true /\ snd a = snd b.
Proof.
  unfold key_ok, entry_cmp, SFeqb. rewrite !negb_true_iff. intros Ha Hb.
  destruct (SFcompare_total _ _ Ha Hb) as [c Hc]. rewrite Hc.
  destruct c; simpl; try discriminate.
  intros H. split; [reflexivity|]. now apply String.compare_eq_iff.
Qed.

Lemma entry_le_cmp a b :
  key_ok a = true -> key_ok b = true ->
  entry_le a b = match entry_cmp a b with Gt => false | _ => true end.
Proof.
  intros Ha Hb. unfold entry_le.
  rewrite entry_lt_cmp, (entry_cmp_antisym a b Ha Hb).
  now destruct (entry_cmp a b).
Qed.

Lemma entry_le_trans a b c :
  key_ok a = true -> key_ok b = true -> key_ok c = true ->
  entry_le a b = true -> entry_le b c = true -> entry_le a c = true.
Proof.
  intros Ha Hb Hc. rewrite !entry_le_cmp by assumption.
  pose proof (entry_cmp_trans a b c Ha Hb Hc) as Ht.
  destruct (entry_cmp a b), (entry_cmp b c); simpl in Ht; rewrite ?Ht;
    try reflexivity; discriminate.
Qed.

Lemma entry_lt_le a b :
  key_ok a = true -> key_ok b = true ->
  entry_lt a b = true -> entry_le a b = true.
Proof.
  intros Ha Hb. rewrite entry_le_cmp, entry_lt_cmp by assumption.
  now destruct (entry_cmp a b).
Qed.

Lemma entry_le_antisym a b :
  key_ok a = true -> key_ok b = true ->
  entry_le a b = true -> entry_le b a = true -> snd a = snd b.
Proof.
  intros Ha Hb. rewrite (entry_le_cmp b a), (entry_le_cmp a b) by assumption.
  rewrite (entry_cmp_antisym a b Ha Hb).
  destruct (entry_cmp a b) eqn:E; simpl; try discriminate.
  intros _ _. now apply (entry_cmp_Eq a b).
Qed.

(** ** list.sort *)

Lemma sort_insert_perm x l : Permutation (sort_insert x l) (x :: l).
Proof.
  induction l as [|y l IH]; simpl; [reflexivity|].
  destruct (entry_lt x y); [reflexivity|].
  rewrite IH. apply perm_swap.
Qed.

Lemma list_sort_from_perm l : forall acc,
  Permutation (fold_left (fun acc x => sort_insert x acc) l acc) (l ++ acc).
Proof.
  induction l as [|x l IH]; intros acc; simpl; [reflexivity|].
  rewrite IH, sort_insert_perm. symmetry. apply Permutation_middle.
Qed.

Lemma list_sort_perm l : Permutation (list_sort l) l.
Proof. unfold list_sort. now rewrite list_sort_from_perm, app_nil_r. Qed.

Lemma sort_insert_sorted x l :
  key_ok x = true -> Forall (fun a => key_ok a = true) l ->
  StronglySorted (fun a b => entry_le a b = true) l ->
  StronglySorted (fun a b => entry_le a b = true) (sort_insert x l).
Proof.
  intros Hx. induction l as [|y l IH]; intros Hok Hs; simpl.
  - repeat constructor.
  - inversion Hok as [|? ? Hy Hl]; subst.
    apply StronglySorted_inv in Hs. destruct Hs as [Hs Hall].
    destruct (entry_lt x y) eqn:E.
    + constructor; [now constructor|].
      assert (Hxy : entry_le x y = true) by now apply entry_lt_le.
      constructor; [assumption|].
      rewrite Forall_forall in *. intros z Hz.
      apply (entry_le_trans x y z); auto.
    + constructor; [now apply IH|].
      apply (Permutation_Forall (Permutation_sym (sort_insert_perm x l))).
      constructor; [|assumption].
      unfold entry_le. now rewrite E.
Qed.

Lemma list_sort_sorted l :
  Forall (fun a => key_ok a = true) l ->
  StronglySorted (fun a b => entry_le a b = true) (list_sort l).
Proof.
  unfold list_sort.
  assert (H : forall acc,
    Forall (fun a => key_ok a = true) acc ->
    Forall (fun a => key_ok a = true) l ->
    StronglySorted (fun a b => entry_le a b = true) acc ->
    StronglySorted (fun a b => entry_le a b = true)
      (fold_left (fun acc x => sort_insert x acc) l acc)).
  { induction l as [|x l IH]; intros acc Hacc Hl Hs; simpl; [assumption|].
    inversion Hl; subst. apply IH; [|assumption|].
    - apply (Permutation_Forall (Permutation_sym (sort_insert_perm x acc))).
      now constructor.
    - now apply sort_insert_sorted. }
  intros Hl. apply H; [constructor | assumption | constructor].
Qed.

(** Two sorted lists with the same elements are equal when no two elements
    carry the same word. *)
Lemma sorted_perm_unique l1 : forall l2,
  Forall (fun a => key_ok a = true) l1 ->
  NoDup (map snd l1) ->
  StronglySorted (fun a b => entry_le a b = true) l1 ->
  StronglySorted (fun a b => entry_le a b = true) l2 ->
  Permutation l1 l2 -> l1 = l2.
Proof.
  induction l1 as [|x l1 IH]; intros l2 Hok Hnd Hs1 Hs2 Hp.
  - now apply Permutation_nil in Hp.
  - destruct l2 as [|y l2];
      [apply Permutation_sym, Permutation_nil in Hp; discriminate|].
    apply StronglySorted_inv in Hs1. destruct Hs1 as [Hs1 Hx].
    apply StronglySorted_inv in Hs2. destruct Hs2 as [Hs2 Hy].
    inversion Hok as [|? ? Hkx Hok1]; subst.
    inversion Hnd as [|? ? Hnotin Hnd1]; subst.
    assert (Hok2 : Forall (fun a => key_ok a = true) (y :: l2))
      by exact (Permutation_Forall Hp Hok).
    inversion Hok2 as [|? ? Hky _]; subst.
    assert (Hxy : x = y).
    { assert (Hin1 : In y (x :: l1))
        by (apply (Permutation_in _ (Permutation_sym Hp)); now left).
      assert (Hin2 : In x (y :: l2))
        by (apply (Permutation_in _ Hp); now left).
      destruct Hin1 as [|Hin1]; [assumption|].
      destruct Hin2 as [|Hin2]; [congruence|].
      rewrite Forall_forall in Hx, Hy.
      assert (Hw : snd x = snd y)
        by (apply entry_le_antisym; auto).
      exfalso. apply Hnotin. rewrite Hw. now apply in_map. }
    subst y. f_equal. apply IH; try assumption.
    now apply Permutation_cons_inv in Hp.
Qed.

(** ** Words *)

Lemma append_snoc path ch s :
  (snoc path ch ++ s)%string = (path ++ String ch s)%string.
Proof. unfold snoc. induction path as [|a p IH]; simpl; congruence. Qed.

Lemma append_empty_r s : (s ++ EmptyString)%string = s.
Proof. induction s as [|a s IH]; simpl; congruence. Qed.

Lemma append_inj p s1 s2 : (p ++ s1)%string = (p ++ s2)%string -> s1 = s2.
Proof. induction p as [|a p IH]; simpl; [trivial|]. intros [= H]. auto. Qed.

Lemma prefix_append p s : String.prefix p (p ++ s) = true.
Proof.
  induction p as [|a p IH]; simpl; [now destruct s|].
  now destruct (ascii_dec a a).
Qed.

Lemma prefix_split p : forall w,
  String.prefix p w = true -> exists s, w = (p ++ s)%string.
Proof.
  induction p as [|a p IH]; intros w H.
  - now exists w.
  - destruct w as [|b w]; simpl in H; [discriminate|].
    destruct (ascii_dec a b) as [->|]; [|discriminate].
    destruct (IH w H) as [s ->]. now exists s.
Qed.

Lemma NoDup_map_inj {A B : Type} (g : A -> B) (l : list A) :
  (forall a b, g a = g b -> a = b) -> NoDup l -> NoDup (map g l).
Proof.
  intros Hg. induction 1 as [|a l Hnotin Hnd IH]; simpl; constructor; auto.
  rewrite in_map_iff. intros [b [Hb Hin]]. apply Hg in Hb. now subst.
Qed.

Lemma NoDup_snd_eq {A B : Type} (l : list (A * B)) a b :
  NoDup (map snd l) -> In a l -> In b l -> snd a = snd b -> a = b.
Proof.
  induction l as [|x l IH]; simpl; [tauto|].
  intros Hnd. inversion Hnd as [|? ? Hnotin Hnd']; subst.
  intros [->|Ha] [->|Hb] Heq; auto.
  - exfalso. apply Hnotin. rewrite Heq. now apply in_map.
  - exfalso. apply Hnotin. rewrite <- Heq. now apply in_map.
Qed.

(** ** The traversals *)

Lemma stored_eq cs w f :
  stored (mkNode cs w f)
  = (if w then [(EmptyString, f)] else [])
    ++ flat_map
         (fun kv : ascii * TrieNode =>
            let (ch, c) := kv in
            map (fun p : string * float => (String ch (fst p), snd p))
                (stored c))
         cs.
Proof. reflexivity. Qed.

Lemma stored_unfold n :
  stored n
  = (if is_word n then [(EmptyString, freq n)] else [])
    ++ flat_map
         (fun kv : ascii * TrieNode =>
            let (ch, c) := kv in
            map (fun p : string * float => (String ch (fst p), snd p))
                (stored c))
         (children n).
Proof. now destruct n. Qed.

#[local] Arguments stored : simpl never.

(** [dfs] of [complete] appends the stored words, each with its key. *)
Lemma dfs_stored n : forall path heap,
  dfs n path heap
  = heap ++ map (fun p => (SFopp (snd p), (path ++ fst p)%string)) (stored n).
Proof.
  induction n as [cs w f IH] using TrieNode_ind. intros path heap.
  change (dfs (mkNode cs w f) path heap)
    with (fold_left
            (fun h (kv : ascii * TrieNode) =>
               let (ch, c) := kv in dfs c (snoc path ch) h)
            cs
            (if w then heap ++ [(SFopp f, path)] else heap)).
  assert (Hfold : forall h,
    fold_left
      (fun h (kv : ascii * TrieNode) =>
         let (ch, c) := kv in dfs c (snoc path ch) h) cs h
    = h ++ map (fun p => (SFopp (snd p), (path ++ fst p)%string))
             (flat_map
                (fun kv : ascii * TrieNode =>
                   let (ch, c) := kv in
                   map (fun p : string * float => (String ch (fst p), snd p))
                       (stored c)) cs)).
  { induction IH as [|[ch c] cs Hc _ IHcs]; intros h;
      cbn [fold_left flat_map map snd] in *.
    - now rewrite app_nil_r.
    - rewrite IHcs, (Hc (snoc path ch) h), map_app, app_assoc, map_map.
      do 2 f_equal. apply map_ext. intros [s x]. simpl.
      now rewrite append_snoc. }
  rewrite Hfold, stored_eq, map_app, app_assoc. f_equal.
  destruct w; simpl; [now rewrite append_empty_r | now rewrite app_nil_r].
Qed.

(** [dfs] of [items] appends the stored words with their weights. *)
Lemma items_dfs_stored n : forall path result,
  items_dfs n path result
  = result ++ map (fun p => ((path ++ fst p)%string, snd p)) (stored n).
Proof.
  induction n as [cs w f IH] using TrieNode_ind. intros path result.
  change (items_dfs (mkNode cs w f) path result)
    with (fold_left
            (fun r (kv : ascii * TrieNode) =>
               let (ch, nxt) := kv in items_dfs nxt (snoc path ch) r)
            cs
            (if w then result ++ [(path, f)] else result)).
  assert (Hfold : forall r,
    fold_left
      (fun r (kv : ascii * TrieNode) =>
         let (ch, nxt) := kv in items_dfs nxt (snoc path ch) r) cs r
    = r ++ map (fun p => ((path ++ fst p)%string, snd p))
             (flat_map
                (fun kv : ascii * TrieNode =>
                   let (ch, c) := kv in
                   map (fun p : string * float => (String ch (fst p), snd p))
                       (stored c)) cs)).
  { induction IH as [|[ch c] cs Hc _ IHcs]; intros r;
      cbn [fold_left flat_map map snd] in *.
    - now rewrite app_nil_r.
    - rewrite IHcs, (Hc (snoc path ch) r), map_app, app_assoc, map_map.
      do 2 f_equal. apply map_ext. intros [s x]. simpl.
      now rewrite append_snoc. }
  rewrite Hfold, stored_eq, map_app, app_assoc. f_equal.
  destruct w; simpl; [now rewrite append_empty_r | now rewrite app_nil_r].
Qed.

Lemma items_stored self : fst (items self) = stored (root self).
Proof.
  cbn [items fst]. rewrite items_dfs_stored. cbn [app].
  rewrite <- (map_id (stored (root self))) at 2.
  apply map_ext. now intros [s x].
Qed.

Lemma weight_at_stored s : forall n x,
  weight_at s n = Some x -> In (s, x) (stored n).
Proof.
  induction s as [|c rest IH]; intros n x H; rewrite stored_unfold.
  - unfold weight_at in H. simpl in H.
    destruct (is_word n); [|discriminate]. injection H as <-. now left.
  - rewrite weight_at_cons in H.
    destruct (Dict.get c (children n)) as [ch|] eqn:G; [|discriminate].
    apply in_or_app. right. apply in_flat_map.
    exists (c, ch). split; [now apply dict_get_In|].
    apply in_map_iff. exists (rest, x). split; [reflexivity | now apply IH].
Qed.

Lemma stored_weight_at s : forall n x,
  wf_node n = true -> In (s, x) (stored n) -> weight_at s n = Some x.
Proof.
  induction s as [|c rest IH]; intros n x Hwf H; rewrite stored_unfold in H;
    apply in_app_or in H; destruct H as [H|H].
  - unfold weight_at. simpl. destruct (is_word n); [|contradiction].
    destruct H as [[= ->]|[]]. reflexivity.
  - apply in_flat_map in H. destruct H as [[ch c] [_ H]].
    apply in_map_iff in H. destruct H as [p [[=] _]].
  - destruct (is_word n); [|contradiction]. now destruct H as [[=]|[]].
  - apply in_flat_map in H. destruct H as [[ch child] [Hin H]].
    apply in_map_iff in H. destruct H as [[s' x'] [[= -> -> ->] H]].
    apply wf_node_iff in Hwf. destruct Hwf as [Hk Ha].
    rewrite weight_at_cons, (dict_In_get _ _ _ Hk Hin).
    apply IH; [|assumption]. exact (dict_all_In _ _ _ _ Ha Hin).
Qed.

Lemma stored_NoDup n : wf_node n = true -> NoDup (map fst (stored n)).
Proof.
  induction n as [cs w f IH] using TrieNode_ind. intros Hwf.
  apply wf_node_iff in Hwf. cbn [children] in Hwf. destruct Hwf as [Hk Ha].
  rewrite stored_eq, map_app.
  assert (Hfirst : forall s (d : Dict.t TrieNode),
    In s (map fst (flat_map
            (fun kv : ascii * TrieNode =>
               let (ch, c) := kv in
               map (fun p : string * float => (String ch (fst p), snd p))
                   (stored c)) d)) ->
    exists rest ch, s = String ch rest /\ In ch (Dict.keys d)).
  { intros s d Hs. apply in_map_iff in Hs. destruct Hs as [[s' x] [<- Hs]].
    apply in_flat_map in Hs. destruct Hs as [[ch c] [Hin Hs]].
    apply in_map_iff in Hs. destruct Hs as [[r y] [[= <- <-] _]].
    exists r, ch. split; [reflexivity|].
    change ch with (fst (ch, c)). now apply in_map. }
  apply NoDup_app.
  - destruct w; simpl; repeat constructor. intros [].
  - clear w f. induction IH as [|[ch c] cs Hc _ IHcs]; simpl; [constructor|].
    inversion Hk as [|? ? Hnotin Hk']; subst.
    unfold dict_all in Ha. simpl in Ha. apply andb_true_iff in Ha.
    destruct Ha as [Hwc Ha]. rewrite map_app. apply NoDup_app.
    + rewrite map_map. cbn [fst].
      rewrite <- (map_map fst (String ch)).
      apply NoDup_map_inj; [now intros a b [=] | now apply Hc].
    + now apply IHcs.
    + intros s Hs1 Hs2. apply Hfirst in Hs2.
      destruct Hs2 as (rest & ch' & -> & Hin').
      rewrite map_map in Hs1. apply in_map_iff in Hs1.
      destruct Hs1 as [[r y] [[= -> ->] _]]. contradiction.
  - intros s Hs1 Hs2. apply Hfirst in Hs2.
    destruct Hs2 as (rest & ch' & -> & _).
    destruct w; simpl in Hs1; [now destruct Hs1 as [[=]|[]] | contradiction].
Qed.

(** ** The node of a prefix *)

Lemma weight_at_app p : forall s n,
  weight_at (p ++ s) n
  = match find_node p n with
    | Some m => weight_at s m
    | None => None
    end.
Proof.
  induction p as [|c p IH]; intros s n; [reflexivity|].
  cbn [String.append find_node]. rewrite weight_at_cons.
  destruct (Dict.get c (children n)); [apply IH | reflexivity].
Qed.

Lemma find_node_wf p : forall n m,
  wf_node n = true -> find_node p n = Some m -> wf_node m = true.
Proof.
  induction p as [|c p IH]; intros n m Hwf H; simpl in H.
  - now injection H as <-.
  - destruct (Dict.get c (children n)) as [ch|] eqn:G; [|discriminate].
    apply (IH ch); [|assumption].
    apply wf_node_iff in Hwf. exact (dict_all_get _ _ _ _ (proj2 Hwf) G).
Qed.

Lemma find_node_nan_free p : forall n m,
  nan_free n = true -> find_node p n = Some m -> nan_free m = true.
Proof.
  induction p as [|c p IH]; intros n m Hnf H; simpl in H.
  - now injection H as <-.
  - destruct (Dict.get c (children n)) as [ch|] eqn:G; [|discriminate].
    apply (IH ch); [|assumption].
    rewrite nan_free_unfold in Hnf. apply andb_true_iff in Hnf.
    exact (dict_all_get _ _ _ _ (proj2 Hnf) G).
Qed.

Lemma weight_at_not_nan s n x :
  nan_free n = true -> weight_at s n = Some x -> is_nan x = false.
Proof.
  unfold weight_at. intros Hnf H.
  destruct (find_node s n) as [m|] eqn:F; [|discriminate].
  apply (find_node_nan_free _ _ _ Hnf) in F.
  rewrite nan_free_unfold in F. apply andb_true_iff in F. destruct F as [F _].
  destruct (is_word m); [|discriminate]. injection H as <-.
  now apply negb_true_iff in F.
Qed.

(** ** The entries that complete sorts *)

Lemma entries_stored p self :
  entries p self
  = match find_node p (root self) with
    | Some node =>
        map (fun q => (SFopp (snd q), (p ++ fst q)%string)) (stored node)
    | None => []
    end.
Proof.
  unfold entries. destruct (find_node p (root self)); [|reflexivity].
  now rewrite dfs_stored.
Qed.

Lemma complete_entries p k self :
  fst (complete p k self) = map snd (slice_to k (list_sort (entries p self))).
Proof.
  unfold complete, entries. cbn [fst].
  destruct (find_node p (root self)); [reflexivity|].
  unfold slice_to, list_sort. cbn [fold_left]. now rewrite firstn_nil.
Qed.

Lemma entries_In p self e :
  wf_node (root self) = true ->
  In e (entries p self)
  <-> exists s x, e = (SFopp x, (p ++ s)%string)
                  /\ weight_of (p ++ s) self = Some x.
Proof.
  intros Hwf. rewrite entries_stored. unfold weight_of. split.
  - destruct (find_node p (root self)) as [node|] eqn:F; [|contradiction].
    intros H. apply in_map_iff in H. destruct H as [[s x] [<- H]].
    exists s, x. split; [reflexivity|]. rewrite weight_at_app, F.
    apply stored_weight_at; [|assumption]. exact (find_node_wf _ _ _ Hwf F).
  - intros (s & x & -> & H). rewrite weight_at_app in H.
    destruct (find_node p (root self)) as [node|]; [|discriminate].
    apply in_map_iff. exists (s, x). split; [reflexivity|].
    now apply weight_at_stored.
Qed.

Lemma entries_NoDup p self :
  wf_node (root self) = true -> NoDup (map snd (entries p self)).
Proof.
  intros Hwf. rewrite entries_stored.
  destruct (find_node p (root self)) as [node|] eqn:F; [|constructor].
  rewrite map_map. cbn [snd]. rewrite <- (map_map fst (String.append p)).
  apply NoDup_map_inj; [apply append_inj|].
  apply stored_NoDup. exact (find_node_wf _ _ _ Hwf F).
Qed.

Lemma entries_key_ok p self :
  wf_node (root self) = true -> nan_free (root self) = true ->
  Forall (fun a => key_ok a = true) (entries p self).
Proof.
  intros Hwf Hnf. apply Forall_forall. intros e He.
  apply (entries_In _ _ _ Hwf) in He. destruct He as (s & x & -> & H).
  unfold key_ok. cbn [fst]. rewrite is_nan_opp.
  apply negb_true_iff. exact (weight_at_not_nan _ _ _ Hnf H).
Qed.

(** Two tries that store the same words with the same weights give complete
    the same entries, up to their order. *)
Lemma entries_ext p self other :
  wf_node (root self) = true -> wf_node (root other) = true ->
  (forall w, weight_of w self = weight_of w other) ->
  Permutation (entries p self) (entries p other).
Proof.
  intros Hwf1 Hwf2 Hw. apply NoDup_Permutation.
  - apply (NoDup_map_inv snd). now apply entries_NoDup.
  - apply (NoDup_map_inv snd). now apply entries_NoDup.
  - intros e. rewrite !entries_In by assumption.
    split; intros (s & x & -> & H); exists s, x;
      (split; [reflexivity|]); [now rewrite <- Hw | now rewrite Hw].
Qed.

Lemma list_sort_perm_eq l1 l2 :
  Forall (fun a => key_ok a = true) l1 ->
  NoDup (map snd l1) ->
  Permutation l1 l2 -> list_sort l1 = list_sort l2.
Proof.
  intros Hok Hnd Hp.
  assert (Hp1 := list_sort_perm l1). assert (Hp2 := list_sort_perm l2).
  apply sorted_perm_unique.
  - exact (Permutation_Forall (Permutation_sym Hp1) Hok).
  - apply (Permutation_NoDup (l := map snd l1)); [|assumption].
    now apply Permutation_map, Permutation_sym.
  - now apply list_sort_sorted.
  - apply list_sort_sorted. exact (Permutation_Forall Hp Hok).
  - now rewrite Hp1, Hp, Hp2.
Qed.

Lemma complete_ext p k self other :
  wf_node (root self) = true -> nan_free (root self) = true ->
  wf_node (root other) = true ->
  (forall w, weight_of w self = weight_of w other) ->
  fst (complete p k self) = fst (complete p k other).
Proof.
  intros Hwf1 Hnf1 Hwf2 Hw. rewrite !complete_entries. do 2 f_equal.
  apply list_sort_perm_eq.
  - now apply entries_key_ok.
  - now apply entries_NoDup.
  - now apply entries_ext.
Qed.

(** ** Building a trie from pairs *)

Section Build.
#[local] Abbreviation step :=
  (fun (t : Trie) (p : string * float) => snd (insert (fst p) (snd p) t)).

Lemma build_from_wf pairs : forall t,
  wf_node (root t) = true -> wf_node (root (fold_left step pairs t)) = true.
Proof.
  induction pairs as [|q pairs IH]; intros t H; [exact H|].
  cbn [fold_left]. apply IH. rewrite insert_fields. cbn [root].
  now apply insert_from_wf.
Qed.

Lemma build_from_nan_free pairs : forall t,
  Forall (fun q => is_nan (snd q) = false) pairs ->
  nan_free (root t) = true ->
  nan_free (root (fold_left step pairs t)) = true.
Proof.
  induction pairs as [|q pairs IH]; intros t Hp H; [exact H|].
  inversion Hp; subst. cbn [fold_left]. apply IH; [assumption|].
  rewrite insert_fields. cbn [root].
  now apply insert_from_nan_free.
Qed.

Lemma build_from_absent pairs w : forall t,
  ~ In w (map fst pairs) ->
  weight_of w (fold_left step pairs t) = weight_of w t.
Proof.
  induction pairs as [|q pairs IH]; intros t H; [reflexivity|].
  cbn [fold_left]. rewrite IH by (intros Hin; apply H; now right).
  rewrite weight_of_insert.
  destruct (String.eqb_spec (fst q) w) as [E|]; [|reflexivity].
  exfalso. apply H. now left.
Qed.

Lemma build_from_present pairs w x : forall t,
  NoDup (map fst pairs) -> In (w, x) pairs ->
  weight_of w (fold_left step pairs t) = Some x.
Proof.
  induction pairs as [|q pairs IH]; intros t Hnd H; [contradiction|].
  inversion Hnd as [|? ? Hnotin Hnd']; subst. cbn [fold_left].
  destruct H as [->|H].
  - rewrite build_from_absent by assumption.
    cbn [fst snd]. now rewrite weight_of_insert, String.eqb_refl.
  - now apply IH.
Qed.

End Build.

Lemma build_wf pairs : wf_node (root (build pairs)) = true.
Proof. now apply build_from_wf. Qed.

Lemma build_nan_free pairs :
  Forall (fun q => is_nan (snd q) = false) pairs ->
  nan_free (root (build pairs)) = true.
Proof. intros H. now apply build_from_nan_free. Qed.

Lemma build_weight_of pairs w :
  NoDup (map fst pairs) ->
  (forall x, In (w, x) pairs -> weight_of w (build pairs) = Some x)
  /\ (~ In w (map fst pairs) -> weight_of w (build pairs) = None).
Proof.
  intros Hnd. split.
  - intros x Hin. now apply build_from_present.
  - intros Hnotin. unfold build. rewrite build_from_absent by assumption.
    apply weight_at_new_node.
Qed.

Lemma build_perm_weight_of l1 l2 w :
  NoDup (map fst l1) -> Permutation l1 l2 ->
  weight_of w (build l1) = weight_of w (build l2).
Proof.
  intros Hnd Hp.
  assert (Hnd2 : NoDup (map fst l2))
    by exact (Permutation_NoDup (Permutation_map fst Hp) Hnd).
  destruct (in_dec string_dec w (map fst l1)) as [Hin|Hnotin].
  - apply in_map_iff in Hin. destruct Hin as [[w' x] [Hw Hin]].
    cbn [fst] in Hw. subst w'.
    rewrite (proj1 (build_weight_of l1 w Hnd) x Hin).
    symmetry. apply (proj1 (build_weight_of l2 w Hnd2)).
    exact (Permutation_in _ Hp Hin).
  - rewrite (proj2 (build_weight_of l1 w Hnd) Hnotin).
    symmetry. apply (proj2 (build_weight_of l2 w Hnd2)).
    intros Hin. apply Hnotin.
    exact (Permutation_in _ (Permutation_sym (Permutation_map fst Hp)) Hin).
Qed.

(** C6: the same pairs, with distinct words and weights that are numbers,
    inserted into a fresh trie in any two orders give the same answer to
    [complete(p, k)], for every prefix and every [k]. *)
Theorem complete_insertion_order (l1 l2 : list (string * float))
    (p : string) (k : Z) :
  NoDup (map fst l1) ->
  Forall (fun q => is_nan (snd q) = false) l1 ->
  Permutation l1 l2 ->
  fst (complete p k (build l1)) = fst (complete p k (build l2)).
Proof.
  intros Hnd Hok Hp. apply complete_ext.
  - apply build_wf.
  - now apply build_nan_free.
  - apply build_wf.
  - intros w. now apply build_perm_weight_of.
Qed.

Lemma rebuild_weight_of self w :
  wf_node (root self) = true ->
  weight_of w (build (fst (items self))) = weight_of w self.
Proof.
  intros Hwf. rewrite items_stored.
  pose proof (build_weight_of (stored (root self)) w
                (stored_NoDup _ Hwf)) as [Hin Hout].
  unfold weight_of at 2.
  destruct (weight_at w (root self)) as [x|] eqn:E.
  - apply Hin. now apply weight_at_stored.
  - apply Hout. intros H. apply in_map_iff in H.
    destruct H as [[w' x] [Hw H]]. cbn [fst] in Hw. subst w'.
    apply (stored_weight_at _ _ _ Hwf) in H. congruence.
Qed.

(** C7: a fresh trie rebuilt by inserting every pair of [items()] answers
    [contains] and [complete] as the original does. *)
Theorem items_round_trip (self : Trie) :
  wf_node (root self) = true -> nan_free (root self) = true ->
  let self' := build (fst (items self)) in
  (forall w, fst (contains w self') = fst (contains w self))
  /\ (forall p k, fst (complete p k self') = fst (complete p k self)).
Proof.
  intros Hwf Hnf. cbn zeta. split.
  - intros w. now rewrite !contains_weight_of, rebuild_weight_of.
  - intros p k. symmetry. apply complete_ext; try assumption.
    + apply build_wf.
    + intros w. symmetry. now apply rebuild_weight_of.
Qed.

(** ** Ranking *)

Lemma StronglySorted_firstn {A : Type} (R : A -> A -> Prop) n : forall l,
  StronglySorted R l -> StronglySorted R (firstn n l).
Proof.
  induction n as [|n IH]; intros l H; [constructor|].
  destruct l as [|a l]; [constructor|].
  apply StronglySorted_inv in H. destruct H as [Hs Ha].
  cbn [firstn]. constructor; [now apply IH|].
  rewrite Forall_forall in *. intros x Hx. apply Ha.
  rewrite <- (firstn_skipn n l). apply in_or_app. now left.
Qed.

Lemma NoDup_firstn {A : Type} n (l : list A) : NoDup l -> NoDup (firstn n l).
Proof.
  intros H. rewrite <- (firstn_skipn n l) in H.
  now apply NoDup_app_remove_r in H.
Qed.

Lemma In_firstn {A : Type} n (l : list A) x : In x (firstn n l) -> In x l.
Proof.
  intros H. rewrite <- (firstn_skipn n l). apply in_or_app. now left.
Qed.

Lemma list_sort_length l : length (list_sort l) = length l.
Proof. apply Permutation_length, list_sort_perm. Qed.

(** In a sorted list of entries with distinct words, each word outranks the
    words after it. *)
Lemma sorted_outranks self l :
  (forall e, In e l ->
     exists x, fst e = SFopp x /\ weight_of (snd e) self = Some x
               /\ is_nan x = false) ->
  NoDup (map snd l) ->
  StronglySorted (fun a b => entry_le a b = true) l ->
  StronglySorted (fun w1 w2 => outranks self w1 w2 = true) (map snd l).
Proof.
  induction l as [|a l IH]; intros Hin Hnd Hs; [constructor|].
  apply StronglySorted_inv in Hs. destruct Hs as [Hs Ha].
  inversion Hnd as [|? ? Hnotin Hnd']; subst.
  cbn [map]. constructor.
  - apply IH; [|assumption|assumption]. intros e He. apply Hin. now right.
  - rewrite Forall_forall in *. intros w Hw.
    apply in_map_iff in Hw. destruct Hw as [b [<- Hb]].
    destruct (Hin a (or_introl eq_refl)) as (xa & Hka & Hwa & Hna).
    destruct (Hin b (or_intror Hb)) as (xb & Hkb & Hwb & Hnb).
    assert (Hoka : key_ok a = true)
      by (unfold key_ok; now rewrite Hka, is_nan_opp, Hna).
    assert (Hokb : key_ok b = true)
      by (unfold key_ok; now rewrite Hkb, is_nan_opp, Hnb).
    assert (Hne : snd a <> snd b).
    { intros E. apply Hnotin. rewrite E. now apply in_map. }
    specialize (Ha b Hb). rewrite (entry_le_cmp a b Hoka Hokb) in Ha.
    unfold outranks. rewrite Hwa, Hwb.
    unfold entry_cmp in Ha. rewrite Hka, Hkb, SFcompare_opp in Ha.
    unfold SFltb, SFeqb.
    destruct (SFcompare xb xa) as [c|] eqn:Ec.
    + rewrite (SFcompare_antisym _ _ _ Ec).
      destruct c; cbn [lex CompOpp orb andb] in *; try reflexivity;
        try discriminate.
      unfold String.ltb.
      destruct (String.compare (snd a) (snd b)) eqn:Es; try reflexivity;
        try discriminate.
      now apply String.compare_eq_iff in Es.
    + apply SFcompare_nan in Ec. destruct Ec; congruence.
Qed.

Lemma matches_NoDup p self :
  wf_node (root self) = true -> NoDup (matches p self).
Proof.
  intros Hwf. unfold matches. apply NoDup_filter.
  rewrite items_stored. now apply stored_NoDup.
Qed.

Lemma matches_In p self w :
  wf_node (root self) = true ->
  In w (matches p self)
  <-> String.prefix p w = true /\ exists x, weight_of w self = Some x.
Proof.
  intros Hwf. unfold matches. rewrite filter_In, items_stored, in_map_iff.
  split; intros [H1 H2].
  - split; [assumption|]. destruct H1 as [[w' x] [Hw H1]].
    cbn [fst] in Hw. subst w'. exists x. now apply stored_weight_at.
  - split; [|assumption]. destruct H2 as [x H2].
    exists (w, x). split; [reflexivity | now apply weight_at_stored].
Qed.

(** The words complete ranks are the stored words with the prefix. *)
Lemma entries_matches p self :
  wf_node (root self) = true ->
  Permutation (map snd (entries p self)) (matches p self).
Proof.
  intros Hwf. apply NoDup_Permutation.
  - now apply entries_NoDup.
  - now apply matches_NoDup.
  - intros w. rewrite (matches_In _ _ _ Hwf), in_map_iff. split.
    + intros [e [<- He]]. apply (entries_In _ _ _ Hwf) in He.
      destruct He as (s & x & -> & H). cbn [snd].
      split; [apply prefix_append | now exists x].
    + intros [Hp [x Hx]]. destruct (prefix_split _ _ Hp) as [s ->].
      exists (SFopp x, (p ++ s)%string). split; [reflexivity|].
      apply (entries_In _ _ _ Hwf). now exists s, x.
Qed.

Lemma slice_to_nonneg {A : Type} (k : Z) (l : list A) :
  0 <= k -> slice_to k l = firstn (Z.to_nat k) l.
Proof.
  intros Hk. unfold slice_to.
  destruct (Z.ltb_spec k 0) as [|_]; [lia|].
  destruct (Z.le_ge_cases k (Z.of_nat (length l))) as [H|H].
  - now rewrite Z.min_l.
  - rewrite Z.min_r, Nat2Z.id by assumption.
    rewrite !firstn_all2; [reflexivity | lia | lia].
Qed.

(** Where the recursion limit is not reached: on a trie whose weights are
    numbers, for [k >= 0], [complete(p, k)] returns at most [k] words, each
    starting with [p], each ranked before the ones after it; it returns
    [min(k, number of matches)] words, nothing when the prefix has no node
    and nothing when [k = 0]. *)
Lemma complete_ranked (p : string) (k : Z) (self : Trie) :
  wf_node (root self) = true -> nan_free (root self) = true -> 0 <= k ->
  let r := fst (complete p k self) in
  Z.of_nat (length r) <= k
  /\ Forall (fun w => String.prefix p w = true) r
  /\ StronglySorted (fun w1 w2 => outranks self w1 w2 = true) r
  /\ Z.of_nat (length r) = Z.min k (Z.of_nat (length (matches p self)))
  /\ (find_node p (root self) = None -> r = [])
  /\ (k = 0 -> r = []).
Proof.
  intros Hwf Hnf Hk. cbn zeta.
  assert (Hlen : length (matches p self) = length (entries p self)).
  { rewrite <- (Permutation_length (entries_matches p self Hwf)).
    apply length_map. }
  assert (Hmem : forall e,
    In e (firstn (Z.to_nat k) (list_sort (entries p self))) ->
    exists s x, e = (SFopp x, (p ++ s)%string)
                /\ weight_of (p ++ s) self = Some x).
  { intros e He. apply In_firstn in He.
    apply (Permutation_in _ (list_sort_perm _)) in He.
    now apply (entries_In _ _ _ Hwf). }
  assert (Hnone : find_node p (root self) = None ->
                  fst (complete p k self) = []).
  { intros H. unfold complete. now rewrite H. }
  rewrite complete_entries, slice_to_nonneg in * by assumption.
  rewrite length_map, length_firstn, list_sort_length, Hlen.
  repeat split.
  - lia.
  - apply Forall_forall. intros w Hw. apply in_map_iff in Hw.
    destruct Hw as [e [<- He]]. destruct (Hmem e He) as (s & x & -> & _).
    apply prefix_append.
  - apply sorted_outranks.
    + intros e He. destruct (Hmem e He) as (s & x & -> & Hx).
      exists x. repeat split; [assumption|].
      exact (weight_at_not_nan _ _ _ Hnf Hx).
    + rewrite <- firstn_map. apply NoDup_firstn.
      apply (Permutation_NoDup (l := map snd (entries p self))).
      * apply Permutation_map, Permutation_sym, list_sort_perm.
      * now apply entries_NoDup.
    + apply StronglySorted_firstn, list_sort_sorted.
      now apply entries_key_ok.
  - lia.
  - exact Hnone.
  - intros ->. reflexivity.
Qed.

(** Where the recursion limit is not reached: for [k < 0], [complete(p, k)]
    is what it returns for a large [k] without its last [-k] words. *)
Lemma complete_negative_k (p : string) (k : Z) (self : Trie) :
  k < 0 ->
  let full := fst (complete p (Z.of_nat (length (entries p self))) self) in
  fst (complete p k self) = firstn (length full - Z.to_nat (- k)) full
  /\ length full = length (entries p self)
  /\ (wf_node (root self) = true -> length full = length (matches p self))
  /\ (fst (complete p k self) = [] <-> Z.of_nat (length full) <= - k).
Proof.
  intros Hk. cbn zeta. rewrite !complete_entries.
  rewrite (slice_to_nonneg (Z.of_nat _)) by lia.
  rewrite Nat2Z.id.
  rewrite (firstn_all2 (list_sort (entries p self)))
    by (rewrite list_sort_length; lia).
  rewrite length_map, list_sort_length.
  assert (Hslice :
    map snd (slice_to k (list_sort (entries p self)))
    = firstn (length (entries p self) - Z.to_nat (- k))
             (map snd (list_sort (entries p self)))).
  { rewrite firstn_map. f_equal. unfold slice_to.
    rewrite list_sort_length.
    destruct (Z.ltb_spec k 0) as [_|]; [|lia]. f_equal. lia. }
  repeat split.
  - exact Hslice.
  - intros Hwf. rewrite <- (Permutation_length (entries_matches p self Hwf)).
    symmetry. apply length_map.
  - rewrite Hslice. intros H. apply (f_equal (@length _)) in H.
    rewrite length_firstn, length_map, list_sort_length in H.
    cbn [length] in H. lia.
  - intros H. rewrite Hslice.
    replace (length (entries p self) - Z.to_nat (- k))%nat with 0%nat by lia.
    reflexivity.
Qed.

(** ** States reached from a fresh trie *)

Lemma remove_keeps_shape word self :
  (wf_node (root self) = true -> wf_node (root (snd (remove word self))) = true)
  /\ (nan_free (root self) = true ->
      nan_free (root (snd (remove word self))) = true).
Proof.
  destruct (contains_from word (root self)) eqn:E.
  - rewrite remove_fields. cbn [snd root].
    destruct (_remove_present word (root self)
                (mkRS false (_words self) (_nodes self)) E)
      as (_ & _ & _ & _ & _ & _ & Hwf & Hnf & _).
    now split.
  - unfold remove. rewrite (_remove_absent _ _ _ E). now split.
Qed.

(** Every state the methods can reach has unique keys in every dictionary,
    and no NaN weight when none was inserted. *)
Lemma run_keeps_shape cs : forall self,
  wf_node (root self) = true ->
  wf_node (root (run cs self)) = true
  /\ (forallb passes_number cs = true -> nan_free (root self) = true ->
      nan_free (root (run cs self)) = true).
Proof.
  induction cs as [|c cs IH]; intros self Hwf; [now split|].
  rewrite run_cons. cbn [forallb].
  assert (Hstep : wf_node (root (exec c self)) = true
                  /\ (passes_number c = true -> nan_free (root self) = true ->
                      nan_free (root (exec c self)) = true)).
  { destruct c as [w f|w| | | |]; cbn [exec snd complete stats items contains];
      try (split; [assumption | intros _ H; exact H]).
    - rewrite insert_fields. cbn [root passes_number]. split.
      + now apply insert_from_wf.
      + intros Hf Hnf. apply negb_true_iff in Hf.
        now apply insert_from_nan_free.
    - destruct (remove_keeps_shape w self) as [H1 H2]. split; auto. }
  destruct Hstep as [Hwf' Hnf']. destruct (IH _ Hwf') as [H1 H2].
  split; [assumption|]. intros Hcs Hnf. apply andb_true_iff in Hcs.
  destruct Hcs as [Hc Hcs]. auto.
Qed.

(** * The claims at sample inputs *)

Lemma insert_existing_or_new_witness :
  fst (contains "cat" sample_trie) = true
  /\ weight_of "cat" (snd (insert "cat" (fl 7 0) sample_trie)) = Some (fl 7 0)
  /\ _words (snd (insert "cat" (fl 7 0) sample_trie)) = 3
  /\ _nodes (snd (insert "cat" (fl 7 0) sample_trie)) = 6
  /\ fst (contains "dog" sample_trie) = false
  /\ fst (contains "dog" (snd (insert "dog" (fl 1 0) sample_trie))) = true
  /\ _words (snd (insert "dog" (fl 1 0) sample_trie)) = 4.
Proof.
  destruct (insert_existing_or_new "cat" (fl 7 0) sample_trie) as [Hold _].
  destruct (insert_existing_or_new "dog" (fl 1 0) sample_trie) as [_ Hnew].
  destruct (Hold eq_refl) as (H1 & H2 & H3).
  destruct (Hnew eq_refl) as (H4 & _ & H5).
  repeat split; assumption.
Defined.

Lemma contains_until_removed_witness :
  fst (contains "dog"
         (run [Remove "cat"; Insert "do" (fl 2 0); Complete "d" 3; Remove "do";
               Stats; Items]
              (snd (insert "dog" (fl 1 0) sample_trie)))) = true.
Proof.
  apply (contains_until_removed "dog" (fl 1 0) sample_trie). reflexivity.
Defined.

Lemma complete_insertion_order_witness :
  fst (complete "ca" 2 (build sample_pairs))
  = fst (complete "ca" 2 (build sample_pairs')).
Proof.
  apply complete_insertion_order.
  - repeat constructor; simpl; intuition discriminate.
  - repeat constructor.
  - apply perm_swap.
Defined.

Lemma items_round_trip_witness :
  (forall w, fst (contains w (build (fst (items sample_trie))))
             = fst (contains w sample_trie))
  /\ (forall p k, fst (complete p k (build (fst (items sample_trie))))
                  = fst (complete p k sample_trie)).
Proof.
  apply (items_round_trip sample_trie); vm_compute; reflexivity.
Defined.

(** The scenarios of the specification. *)

Example scenario_ranked_completion :
  fst (complete "ca" 2 sample_trie) = ["car"; "cart"]%string.
Proof. vm_compute. reflexivity. Qed.

Example scenario_remove_prunes :
  let t := snd (insert "dog" (fl 1 0) new_trie) in
  fst (remove "dog" t) = true
  /\ fst (contains "dog" (snd (remove "dog" t))) = false
  /\ fst (stats (snd (remove "dog" t))) = (0, 1, 1).
Proof. vm_compute. repeat split. Qed.

Example scenario_absent_prefix :
  fst (complete "xyz" 5 new_trie) = [].
Proof. reflexivity. Qed.

(** * Further properties of the code *)

(** ** More on dictionaries *)

Section DictMore.
Context {V : Type}.
Implicit Types (d : Dict.t V) (k : ascii) (v : V).

Lemma dict_get_del_same k d :
  NoDup (Dict.keys d) -> Dict.get k (Dict.del k d) = None.
Proof.
  induction d as [|[k' v'] d IH]; simpl; [reflexivity|].
  intros H. inversion H as [|? ? Hnotin Hnd]; subst.
  destruct (Ascii.eqb k k') eqn:E; simpl.
  - apply Ascii.eqb_eq in E. subst k'. now apply dict_get_None_keys.
  - rewrite E. now apply IH.
Qed.

Lemma dict_del_absent k d : Dict.get k d = None -> Dict.del k d = d.
Proof.
  induction d as [|[k' v'] d IH]; simpl; [reflexivity|].
  destruct (Ascii.eqb k k'); [discriminate|].
  intros H. now rewrite IH.
Qed.

Lemma dict_set_set k v1 v2 d :
  Dict.set k v2 (Dict.set k v1 d) = Dict.set k v2 d.
Proof.
  induction d as [|[k' v'] d IH]; simpl.
  - now rewrite Ascii.eqb_refl.
  - destruct (Ascii.eqb k k') eqn:E; simpl.
    + now rewrite Ascii.eqb_refl.
    + now rewrite E, IH.
Qed.

End DictMore.

(** ** remove of a stored word *)

Lemma _remove_cons ch rest node st child :
  Dict.get ch (children node) = Some child ->
  _remove (String ch rest) node st
  = let r := _remove rest child st in
    if snd r then
      (mkNode (Dict.del ch (children node)) (is_word node) (freq node),
       mkRS (removed (snd (fst r))) (rs_words (snd (fst r)))
            (rs_nodes (snd (fst r)) - 1),
       negb (is_word node) && Dict.is_empty (Dict.del ch (children node)))
    else
      (mkNode (Dict.set ch (fst (fst r)) (children node))
              (is_word node) (freq node),
       snd (fst r), false).
Proof.
  intros G. cbn [_remove]. rewrite G.
  destruct (_remove rest child st) as [[child' st'] sd].
  cbn [fst snd children is_word freq]. rewrite dict_del_set.
  now destruct sd.
Qed.

Lemma _remove_weight_at word : forall node st w',
  wf_node node = true -> contains_from word node = true ->
  weight_at w' (fst (fst (_remove word node st)))
  = if String.eqb word w' then None else weight_at w' node.
Proof.
  induction word as [|ch rest IH]; intros node st w' Hwf H.
  - unfold contains_from in H. cbn [find_node] in H. cbn [_remove].
    rewrite H. cbn [negb fst].
    destruct w' as [|c' r']; [reflexivity|]. now rewrite !weight_at_cons.
  - pose proof H as Hc. unfold contains_from in H. cbn [find_node] in H.
    destruct (Dict.get ch (children node)) as [child|] eqn:G; [|discriminate].
    fold (contains_from rest child) in H.
    apply wf_node_iff in Hwf. destruct Hwf as [Hk Ha].
    assert (Hwfc : wf_node child = true) by exact (dict_all_get _ _ _ _ Ha G).
    rewrite (_remove_cons _ _ _ _ _ G). cbn zeta.
    pose proof (_remove_present rest child st H) as Hp. cbn zeta in Hp.
    destruct Hp as (_ & _ & _ & _ & Hsd & _).
    specialize (IH child st).
    destruct (_remove rest child st) as [[child' st'] sd].
    cbn [fst snd] in *.
    destruct w' as [|c' r'].
    + destruct sd; reflexivity.
    + cbn [String.eqb]. rewrite (weight_at_cons c' r' node).
      destruct (Ascii.eqb ch c') eqn:E.
      * apply Ascii.eqb_eq in E. subst c'. rewrite G.
        specialize (IH r' Hwfc H).
        destruct sd; cbn [fst]; rewrite weight_at_cons; cbn [children].
        -- rewrite (dict_get_del_same _ _ Hk).
           symmetry in Hsd. rewrite (dangling_weight_at _ _ Hsd) in IH.
           destruct (String.eqb rest r'); [reflexivity | assumption].
        -- now rewrite dict_get_set_same.
      * apply Ascii.eqb_neq in E.
        destruct sd; cbn [fst]; rewrite weight_at_cons; cbn [children].
        -- now rewrite dict_get_del_other.
        -- now rewrite dict_get_set_other.
Qed.

Lemma _remove_nodes_bound word : forall node st,
  let st' := snd (fst (_remove word node st)) in
  rs_nodes st - Z.of_nat (String.length word) <= rs_nodes st' <= rs_nodes st.
Proof.
  induction word as [|ch rest IH]; intros node st; cbn zeta.
  - cbn [_remove]. destruct (negb (is_word node)); cbn; lia.
  - destruct (Dict.get ch (children node)) as [child|] eqn:G.
    + rewrite (_remove_cons _ _ _ _ _ G). cbn zeta.
      specialize (IH child st). cbn zeta in IH.
      destruct (_remove rest child st) as [[child' st'] sd].
      cbn [fst snd String.length] in *.
      destruct sd; cbn [fst snd rs_nodes]; lia.
    + cbn [_remove]. rewrite G. cbn [fst snd String.length]. lia.
Qed.

Lemma remove_not_stored word self :
  contains_from word (root self) = false -> remove word self = (false, self).
Proof.
  intros H. unfold remove. rewrite (_remove_absent _ _ _ H).
  cbn [removed rs_words rs_nodes]. now destruct self.
Qed.

(** Where the recursion limit is not reached: removing a stored word
    returns true, the word is no longer stored, every other word keeps its
    weight, [word_count] drops by one, [node_count] drops by at most
    [len(word)], and removing it once more returns false and changes
    nothing. *)
Lemma remove_stored (word : string) (self : Trie) :
  wf_node (root self) = true -> fst (contains word self) = true ->
  let r := remove word self in
  fst r = true
  /\ fst (contains word (snd r)) = false
  /\ (forall w', w' <> word -> weight_of w' (snd r) = weight_of w' self)
  /\ _words (snd r) = _words self - 1
  /\ _nodes self - Z.of_nat (String.length word) <= _nodes (snd r)
     <= _nodes self
  /\ remove word (snd r) = (false, snd r).
Proof.
  intros Hwf Hc. cbn zeta. cbn [contains fst] in Hc.
  assert (Hw : forall w', weight_of w' (snd (remove word self))
                          = if String.eqb word w' then None
                            else weight_of w' self).
  { intros w'. rewrite remove_fields. unfold weight_of. cbn [snd root].
    now apply _remove_weight_at. }
  assert (Hgone : fst (contains word (snd (remove word self))) = false).
  { now rewrite contains_weight_of, Hw, String.eqb_refl. }
  repeat split.
  - now rewrite remove_result.
  - exact Hgone.
  - intros w' Hne. rewrite Hw.
    destruct (String.eqb_spec word w'); [congruence | reflexivity].
  - rewrite remove_fields. cbn [snd _words].
    exact (proj1 (proj2 (_remove_present word (root self) _ Hc))).
  - rewrite remove_fields. cbn [snd _nodes].
    apply (_remove_nodes_bound word (root self)
             (mkRS false (_words self) (_nodes self))).
  - rewrite remove_fields. cbn [snd _nodes].
    apply (_remove_nodes_bound word (root self)
             (mkRS false (_words self) (_nodes self))).
  - now apply remove_not_stored.
Qed.

(** ** insert and the other words *)

Lemma insert_from_nodes_bound word f : forall node words nodes,
  nodes <= snd (insert_from word f node words nodes)
  <= nodes + Z.of_nat (String.length word).
Proof.
  induction word as [|c rest IH]; intros node words nodes.
  - cbn. lia.
  - cbn [insert_from String.length].
    destruct (Dict.get c (children node)) as [ch|].
    + specialize (IH ch words nodes).
      destruct (insert_from rest f ch words nodes) as [[child' w'] n'].
      cbn [snd] in *. lia.
    + specialize (IH new_node words (nodes + 1)).
      destruct (insert_from rest f new_node words (nodes + 1))
        as [[child' w'] n'].
      cbn [snd] in *. lia.
Qed.

(** X2: [insert(w, f)] leaves every other word as it was, stored or not and
    with the same weight, and creates at most [len(w)] nodes. *)
Theorem insert_frame (word : string) (f : float) (self : Trie) :
  let self' := snd (insert word f self) in
  (forall w', w' <> word -> weight_of w' self' = weight_of w' self)
  /\ (forall w', w' <> word ->
        fst (contains w' self') = fst (contains w' self))
  /\ _nodes self <= _nodes self'
     <= _nodes self + Z.of_nat (String.length word).
Proof.
  cbn zeta.
  assert (Hw : forall w', w' <> word ->
    weight_of w' (snd (insert word f self)) = weight_of w' self).
  { intros w' Hne. rewrite weight_of_insert.
    destruct (String.eqb_spec word w'); [congruence | reflexivity]. }
  split; [exact Hw|]. split.
  - intros w' Hne. now rewrite !contains_weight_of, Hw.
  - rewrite insert_fields. cbn [_nodes]. apply insert_from_nodes_bound.
Qed.

Lemma insert_from_twice word f1 f2 : forall node words nodes,
  let r1 := insert_from word f1 node words nodes in
  insert_from word f2 (fst (fst r1)) (snd (fst r1)) (snd r1)
  = insert_from word f2 node words nodes.
Proof.
  induction word as [|c rest IH]; intros node words nodes; cbn zeta.
  - cbn. now destruct (is_word node).
  - cbn [insert_from].
    assert (Hgen : forall child w n,
      let r1 := insert_from rest f1 child w n in
      insert_from (String c rest) f2
        (mkNode (Dict.set c (fst (fst r1)) (children node))
                (is_word node) (freq node))
        (snd (fst r1)) (snd r1)
      = let '(child', words', nodes') := insert_from rest f2 child w n in
        (mkNode (Dict.set c child' (children node))
                (is_word node) (freq node), words', nodes')).
    { intros child w n. cbn zeta. cbn [insert_from children is_word freq].
      rewrite dict_get_set_same, (IH child w n).
      destruct (insert_from rest f2 child w n) as [[child' w'] n'].
      now rewrite dict_set_set. }
    destruct (Dict.get c (children node)) as [ch|].
    + specialize (Hgen ch words nodes). cbn zeta in Hgen.
      destruct (insert_from rest f1 ch words nodes) as [[c1 w1] n1].
      exact Hgen.
    + specialize (Hgen new_node words (nodes + 1)). cbn zeta in Hgen.
      destruct (insert_from rest f1 new_node words (nodes + 1))
        as [[c1 w1] n1].
      exact Hgen.
Qed.

(** X3: inserting a word twice is inserting it with the last weight: the
    trie after [insert(w, f1); insert(w, f2)] is the trie after
    [insert(w, f2)], node for node and counter for counter. *)
Theorem insert_overwrites (word : string) (f1 f2 : float) (self : Trie) :
  snd (insert word f2 (snd (insert word f1 self))) = snd (insert word f2 self).
Proof.
  rewrite (insert_fields word f1 self). cbn zeta.
  rewrite !insert_fields. cbn [root _words _nodes].
  now rewrite insert_from_twice.
Qed.

(** ** insert followed by remove *)

#[local] Arguments tidy : simpl never.

Lemma tidy_unfold n :
  tidy n = (is_word n || is_float_zero (freq n)) && dict_all tidy (children n).
Proof. now destruct n. Qed.

Lemma insert_from_tidy word f : forall node words nodes,
  tidy node = true ->
  tidy (fst (fst (insert_from word f node words nodes))) = true.
Proof.
  induction word as [|c rest IH]; intros node words nodes Ht.
  - rewrite tidy_unfold in *. cbn [insert_from fst is_word children orb].
    apply andb_true_iff in Ht. exact (proj2 Ht).
  - cbn [insert_from].
    assert (Hgen : forall child w n,
      tidy child = true ->
      tidy (mkNode (Dict.set c (fst (fst (insert_from rest f child w n)))
                     (children node)) (is_word node) (freq node)) = true).
    { intros child w n Hc. rewrite tidy_unfold in Ht |- *.
      apply andb_true_iff in Ht. destruct Ht as [H1 H2].
      cbn [children is_word freq]. rewrite H1. cbn [andb].
      apply dict_all_set; [now apply IH | assumption]. }
    destruct (Dict.get c (children node)) as [ch|] eqn:G.
    + assert (Hc : tidy ch = true).
      { rewrite tidy_unfold in Ht. apply andb_true_iff in Ht.
        exact (dict_all_get _ _ _ _ (proj2 Ht) G). }
      specialize (Hgen ch words nodes Hc).
      destruct (insert_from rest f ch words nodes) as [[child' w'] n'].
      exact Hgen.
    + specialize (Hgen new_node words (nodes + 1) eq_refl).
      destruct (insert_from rest f new_node words (nodes + 1))
        as [[child' w'] n'].
      exact Hgen.
Qed.

Lemma _remove_tidy word : forall node st,
  tidy node = true -> tidy (fst (fst (_remove word node st))) = true.
Proof.
  induction word as [|ch rest IH]; intros node st Ht.
  - cbn [_remove]. destruct (negb (is_word node)); [exact Ht|].
    rewrite tidy_unfold in *. cbn [fst is_word freq children].
    apply andb_true_iff in Ht. exact (proj2 Ht).
  - destruct (Dict.get ch (children node)) as [child|] eqn:G.
    + rewrite (_remove_cons _ _ _ _ _ G). cbn zeta.
      assert (Hc : tidy child = true).
      { rewrite tidy_unfold in Ht. apply andb_true_iff in Ht.
        exact (dict_all_get _ _ _ _ (proj2 Ht) G). }
      specialize (IH child st Hc).
      destruct (_remove rest child st) as [[child' st'] sd].
      cbn [fst snd] in *.
      rewrite tidy_unfold in Ht. apply andb_true_iff in Ht.
      destruct Ht as [H1 H2].
      destruct sd; cbn [fst]; rewrite tidy_unfold;
        cbn [children is_word freq]; rewrite H1; cbn [andb].
      * now apply dict_all_del.
      * now apply dict_all_set.
    + cbn [_remove]. now rewrite G.
Qed.

Lemma run_tidy cs : forall self,
  tidy (root self) = true -> tidy (root (run cs self)) = true.
Proof.
  induction cs as [|c cs IH]; intros self Ht; [exact Ht|].
  rewrite run_cons. apply IH.
  destruct c as [w f|w| | | |]; cbn [exec snd complete stats items contains];
    try exact Ht.
  - rewrite insert_fields. cbn [root]. now apply insert_from_tidy.
  - rewrite remove_fields. cbn [snd root]. now apply _remove_tidy.
Qed.

Lemma dict_get_not_empty {V : Type} (k : ascii) (v : V) (d : Dict.t V) :
  Dict.get k d = Some v -> Dict.is_empty d = false.
Proof. now destruct d. Qed.

Lemma contains_from_cons c rest node :
  contains_from (String c rest) node
  = match Dict.get c (children node) with
    | Some ch => contains_from rest ch
    | None => false
    end.
Proof.
  unfold contains_from. cbn [find_node].
  now destruct (Dict.get c (children node)).
Qed.

(** At a node below which nothing dangles and every weight is tidy,
    [_remove] undoes the [insert] of a word that was not stored, and reports
    the node prunable exactly when it was childless and not terminal. *)
Lemma insert_remove_node word f : forall node words nodes st,
  no_dangling node = true -> tidy node = true ->
  contains_from word node = false ->
  let n1 := fst (fst (insert_from word f node words nodes)) in
  fst (fst (_remove word n1 st)) = node
  /\ snd (_remove word n1 st) = dangling node.
Proof.
  induction word as [|c rest IH]; intros node words nodes st Hnd Ht Hc;
    cbn zeta.
  - unfold contains_from in Hc. cbn [find_node] in Hc.
    cbn [insert_from _remove fst snd is_word children negb].
    rewrite tidy_unfold, Hc in Ht. cbn [orb] in Ht.
    apply andb_true_iff in Ht. destruct Ht as [Hz _].
    unfold dangling. rewrite Hc. cbn [negb andb]. split; [|reflexivity].
    destruct node as [cs w x]. cbn in *. subst w.
    destruct x as [[|]| | |]; try discriminate. reflexivity.
  - rewrite contains_from_cons in Hc. cbn [insert_from].
    rewrite no_dangling_unfold in Hnd. rewrite tidy_unfold in Ht.
    apply andb_true_iff in Ht. destruct Ht as [_ Htc].
    destruct (Dict.get c (children node)) as [ch|] eqn:G.
    + pose proof (dict_all_get _ _ _ _ Hnd G) as Hch.
      apply andb_true_iff in Hch. destruct Hch as [Hdg Hndc].
      apply negb_true_iff in Hdg.
      pose proof (dict_all_get _ _ _ _ Htc G) as Htch.
      specialize (IH ch words nodes st Hndc Htch Hc). cbn zeta in IH.
      destruct (insert_from rest f ch words nodes) as [[ch1 w1] n1].
      cbn [fst snd] in *.
      rewrite (_remove_cons c rest _ st ch1)
        by (cbn [children]; apply dict_get_set_same).
      cbn zeta. destruct IH as [IH1 IH2]. rewrite IH2, Hdg, IH1.
      cbn [fst snd children is_word freq].
      rewrite dict_set_set, (dict_set_get_id _ _ _ G), node_eta.
      split; [reflexivity|]. unfold dangling.
      now rewrite (dict_get_not_empty _ _ _ G), andb_false_r.
    + assert (Hnew : contains_from rest new_node = false)
        by now rewrite contains_from_weight_at, weight_at_new_node.
      specialize (IH new_node words (nodes + 1) st eq_refl eq_refl Hnew).
      cbn zeta in IH.
      destruct (insert_from rest f new_node words (nodes + 1))
        as [[ch1 w1] n1].
      cbn [fst snd] in *.
      rewrite (_remove_cons c rest _ st ch1)
        by (cbn [children]; apply dict_get_set_same).
      cbn zeta. destruct IH as [IH1 IH2]. rewrite IH2.
      change (dangling new_node) with true.
      cbn [fst snd children is_word freq].
      rewrite dict_del_set, (dict_del_absent _ _ G), node_eta.
      split; reflexivity.
Qed.

Lemma insert_remove_restores word f self :
  no_dangling (root self) = true -> tidy (root self) = true ->
  fst (contains word self) = false ->
  remove word (snd (insert word f self)) = (true, self).
Proof.
  intros Hnd Ht Hc. cbn [contains fst] in Hc.
  rewrite insert_fields. cbn zeta. rewrite remove_fields. cbn zeta.
  cbn [root _words _nodes].
  pose proof (insert_from_words word f (root self) (_words self) (_nodes self))
    as Hw. rewrite Hc in Hw.
  pose proof (insert_from_measure word f (root self) (_words self)
                (_nodes self)) as [_ Hm]. cbn zeta in Hm.
  pose proof (insert_from_weight_at word f (root self) (_words self)
                (_nodes self) word) as Hin. rewrite String.eqb_refl in Hin.
  set (r1 := insert_from word f (root self) (_words self) (_nodes self)) in *.
  assert (Hc1 : contains_from word (fst (fst r1)) = true)
    by now rewrite contains_from_weight_at, Hin.
  pose proof (_remove_present word (fst (fst r1))
                (mkRS false (snd (fst r1)) (snd r1)) Hc1) as Hp.
  cbn zeta in Hp. destruct Hp as (Hrem & Hwords & _ & Hnodes & _).
  pose proof (insert_remove_node word f (root self) (_words self) (_nodes self)
                (mkRS false (snd (fst r1)) (snd r1)) Hnd Ht Hc) as [Hnode _].
  fold r1 in Hnode. rewrite Hnode in *. rewrite Hrem.
  cbn [rs_words rs_nodes] in Hwords, Hnodes.
  f_equal. destruct self as [r w n]. cbn [root _words _nodes] in *.
  f_equal; lia.
Qed.

(** Where the recursion limit is not reached: in every state reached from a
    fresh trie, inserting a word that is not stored and then removing it
    gives back that state exactly. *)
Lemma insert_then_remove (cs : list command) (word : string) (f : float) :
  let self := run cs new_trie in
  fst (contains word self) = false ->
  remove word (snd (insert word f self)) = (true, self).
Proof.
  cbn zeta. intros Hc.
  destruct (counters_exact_run cs new_trie counters_exact_new)
    as (_ & _ & Hnd).
  apply insert_remove_restores; try assumption.
  now apply run_tidy.
Qed.

(** ** items *)

Lemma count_words_stored n : count_words n = Z.of_nat (length (stored n)).
Proof.
  induction n as [cs w f IH] using TrieNode_ind.
  rewrite count_words_eq, stored_eq, length_app, Nat2Z.inj_add.
  f_equal; [now destruct w|].
  unfold dict_sum. induction IH as [|[ch c] cs Hc _ IHcs];
    cbn [map fold_right flat_map snd] in *; [reflexivity|].
  now rewrite length_app, length_map, Nat2Z.inj_add, Hc, IHcs.
Qed.

(** Where the recursion limit is not reached: in every state reached from a
    fresh trie, [items()] lists exactly the stored words, each once and with
    its weight, and as many of them as [word_count] says. *)
Lemma items_exact (cs : list command) :
  let self := run cs new_trie in
  (forall w x, In (w, x) (fst (items self)) <-> weight_of w self = Some x)
  /\ NoDup (map fst (fst (items self)))
  /\ Z.of_nat (length (fst (items self))) = _words self.
Proof.
  cbn zeta.
  destruct (run_keeps_shape cs new_trie eq_refl) as [Hwf _].
  destruct (counters_exact_run cs new_trie counters_exact_new)
    as (_ & Hw & _).
  rewrite items_stored. repeat split.
  - now apply stored_weight_at.
  - now apply weight_at_stored.
  - now apply stored_NoDup.
  - now rewrite Hw, count_words_stored.
Qed.

(** ** complete, beyond the ranking *)

Lemma StronglySorted_app_inv {A : Type} (R : A -> A -> Prop) l1 : forall l2,
  StronglySorted R (l1 ++ l2) ->
  forall a b, In a l1 -> In b l2 -> R a b.
Proof.
  induction l1 as [|x l1 IH]; intros l2 Hs a b Ha Hb; [contradiction|].
  cbn [app] in Hs. apply StronglySorted_inv in Hs. destruct Hs as [Hs Hx].
  destruct Ha as [->|Ha].
  - rewrite Forall_forall in Hx. apply Hx, in_or_app. now right.
  - now apply (IH l2).
Qed.

Lemma ranked_words_sorted p self :
  wf_node (root self) = true -> nan_free (root self) = true ->
  StronglySorted (fun w1 w2 => outranks self w1 w2 = true)
    (map snd (list_sort (entries p self))).
Proof.
  intros Hwf Hnf. apply sorted_outranks.
  - intros e He. apply (Permutation_in _ (list_sort_perm _)) in He.
    apply (entries_In _ _ _ Hwf) in He. destruct He as (s & x & -> & Hx).
    exists x. repeat split; [assumption|].
    exact (weight_at_not_nan _ _ _ Hnf Hx).
  - apply (Permutation_NoDup (l := map snd (entries p self))).
    + apply Permutation_map, Permutation_sym, list_sort_perm.
    + now apply entries_NoDup.
  - apply list_sort_sorted. now apply entries_key_ok.
Qed.

(** X6: what [complete(p, k)] leaves out is no better than what it returns:
    every stored word with the prefix that is not in the result is outranked
    by every word of the result. *)
Theorem complete_top_k (p : string) (k : Z) (self : Trie) (w r : string) :
  wf_node (root self) = true -> nan_free (root self) = true -> 0 <= k ->
  In w (matches p self) ->
  ~ In w (fst (complete p k self)) ->
  In r (fst (complete p k self)) ->
  outranks self r w = true.
Proof.
  intros Hwf Hnf Hk Hw Hout Hr.
  rewrite complete_entries, slice_to_nonneg, <- firstn_map in * by assumption.
  pose proof (ranked_words_sorted p self Hwf Hnf) as Hs.
  set (ws := map snd (list_sort (entries p self))) in *.
  rewrite <- (firstn_skipn (Z.to_nat k) ws) in Hs.
  apply (StronglySorted_app_inv _ _ _ Hs); [assumption|].
  assert (Hin : In w ws).
  { apply (Permutation_in _ (Permutation_sym (entries_matches p self Hwf))) in Hw.
    unfold ws.
    exact (Permutation_in _
             (Permutation_map snd (Permutation_sym (list_sort_perm _))) Hw). }
  rewrite <- (firstn_skipn (Z.to_nat k) ws) in Hin.
  apply in_app_or in Hin. destruct Hin; [contradiction | assumption].
Qed.

(** Where the recursion limit is not reached: with [k] at least the number
    of matches, [complete(p, k)] returns every stored word that starts with
    [p], each once. *)
Lemma complete_all (p : string) (k : Z) (self : Trie) :
  wf_node (root self) = true ->
  Z.of_nat (length (matches p self)) <= k ->
  Permutation (fst (complete p k self)) (matches p self)
  /\ (forall w, In w (fst (complete p k self))
                <-> String.prefix p w = true /\ fst (contains w self) = true).
Proof.
  intros Hwf Hk.
  assert (Hlen : length (matches p self) = length (entries p self)).
  { rewrite <- (Permutation_length (entries_matches p self Hwf)).
    apply length_map. }
  assert (Hp : Permutation (fst (complete p k self)) (matches p self)).
  { rewrite complete_entries, slice_to_nonneg by lia.
    rewrite firstn_all2 by (rewrite list_sort_length; lia).
    rewrite <- (entries_matches p self Hwf).
    apply Permutation_map, list_sort_perm. }
  split; [exact Hp|]. intros w. split.
  - intros H. apply (Permutation_in _ Hp) in H.
    apply (matches_In _ _ _ Hwf) in H. destruct H as [H1 [x H2]].
    split; [assumption|]. now rewrite contains_weight_of, H2.
  - intros [H1 H2]. apply (Permutation_in _ (Permutation_sym Hp)).
    apply (matches_In _ _ _ Hwf). split; [assumption|].
    rewrite contains_weight_of in H2.
    destruct (weight_of w self) as [x|]; [now exists x | discriminate].
Qed.

(** X8: a larger [k] only appends: for [0 <= k <= k'], [complete(p, k)] is
    the first [k] words of [complete(p, k')]. *)
Theorem complete_monotone (p : string) (k k' : Z) (self : Trie) :
  0 <= k <= k' ->
  fst (complete p k self) = firstn (Z.to_nat k) (fst (complete p k' self)).
Proof.
  intros [Hk Hk']. rewrite !complete_entries, !slice_to_nonneg by lia.
  rewrite <- firstn_map, <- (firstn_map _ (Z.to_nat k')), firstn_firstn.
  f_equal. lia.
Qed.

(** ** What pruning buys: every node leads to a word *)

Lemma stored_nonempty n :
  dangling n = false -> no_dangling n = true -> stored n <> [].
Proof.
  induction n as [cs w f IH] using TrieNode_ind. intros Hd Hnd.
  rewrite stored_eq. unfold dangling in Hd. cbn [is_word children] in Hd.
  destruct w; [discriminate|]. cbn [negb andb app] in *.
  destruct cs as [|[ch c] cs]; [discriminate|].
  rewrite no_dangling_unfold in Hnd. cbn [children] in Hnd.
  unfold dict_all in Hnd. cbn [forallb] in Hnd.
  apply andb_true_iff in Hnd. destruct Hnd as [Hc _].
  apply andb_true_iff in Hc. destruct Hc as [Hc1 Hc2].
  apply negb_true_iff in Hc1.
  inversion IH as [|? ? Hchild _]; subst. cbn [snd] in Hchild.
  specialize (Hchild Hc1 Hc2). cbn [flat_map].
  destruct (stored c) as [|q l]; [congruence|]. discriminate.
Qed.

Lemma find_node_no_dangling p : forall n m,
  no_dangling n = true -> find_node p n = Some m ->
  no_dangling m = true /\ (p <> EmptyString -> dangling m = false).
Proof.
  induction p as [|c p IH]; intros n m Hnd H; cbn [find_node] in H.
  - injection H as <-. split; [assumption | congruence].
  - destruct (Dict.get c (children n)) as [ch|] eqn:G; [|discriminate].
    rewrite no_dangling_unfold in Hnd.
    pose proof (dict_all_get _ _ _ _ Hnd G) as Hch.
    apply andb_true_iff in Hch. destruct Hch as [Hd Hn].
    apply negb_true_iff in Hd.
    destruct (IH ch m Hn H) as [H1 H2]. split; [assumption|]. intros _.
    destruct p as [|c' p']; [|apply H2; discriminate].
    cbn [find_node] in H. now injection H as <-.
Qed.

(** X9: in every state reached from a fresh trie, the trie has a node for a
    non-empty prefix exactly when some stored word starts with that prefix:
    no path of nodes leads to no word. *)
Theorem node_iff_stored_prefix (cs : list command) (p : string) :
  let self := run cs new_trie in
  p <> EmptyString ->
  (find_node p (root self) <> None
   <-> exists w, String.prefix p w = true /\ fst (contains w self) = true).
Proof.
  cbn zeta. intros Hp.
  destruct (run_keeps_shape cs new_trie eq_refl) as [Hwf _].
  destruct (counters_exact_run cs new_trie counters_exact_new)
    as (_ & _ & Hnd).
  set (self := run cs new_trie) in *. split.
  - intros H. destruct (find_node p (root self)) as [m|] eqn:F; [|congruence].
    destruct (find_node_no_dangling _ _ _ Hnd F) as [Hm1 Hm2].
    pose proof (stored_nonempty m (Hm2 Hp) Hm1) as Hne.
    destruct (stored m) as [|[s x] l] eqn:Es; [congruence|].
    assert (Hin : In (s, x) (stored m)) by (rewrite Es; now left).
    apply (stored_weight_at _ _ _ (find_node_wf _ _ _ Hwf F)) in Hin.
    exists (p ++ s)%string. split; [apply prefix_append|].
    rewrite contains_weight_of. unfold weight_of.
    now rewrite weight_at_app, F, Hin.
  - intros (w & Hpre & Hc). destruct (prefix_split _ _ Hpre) as [s ->].
    rewrite contains_weight_of in Hc. unfold weight_of in Hc.
    rewrite weight_at_app in Hc.
    destruct (find_node p (root self)); [discriminate | discriminate].
Qed.

(** ** stats *)

Lemma longest_nonneg ws : 0 <= longest ws.
Proof. unfold longest. induction ws as [|w ws IH]; simpl; lia. Qed.

Lemma longest_app l1 l2 : longest (l1 ++ l2) = Z.max (longest l1) (longest l2).
Proof.
  unfold longest. induction l1 as [|w l1 IH]; cbn [app map fold_right].
  - pose proof (longest_nonneg l2) as H. unfold longest in H. lia.
  - rewrite IH. lia.
Qed.

Lemma longest_map_String ch ws :
  ws <> [] -> longest (map (String ch) ws) = 1 + longest ws.
Proof.
  unfold longest. induction ws as [|w ws IH]; [congruence|]. intros _.
  cbn [map fold_right String.length].
  destruct ws as [|w' ws'].
  - cbn [map fold_right]. lia.
  - rewrite IH by discriminate. lia.
Qed.

Lemma height_unfold n :
  height n
  = match children n with
    | [] => 1
    | _ :: _ =>
        1 + fold_right Z.max 0
              (map (fun kv : ascii * TrieNode => let (_, c) := kv in height c)
                   (children n))
    end.
Proof. now destruct n. Qed.

#[local] Arguments height : simpl never.

(** Below a node where nothing dangles, the height is one more than the
    length of the longest word stored there. *)
Lemma height_longest n :
  no_dangling n = true -> height n = 1 + longest (map fst (stored n)).
Proof.
  induction n as [cs w f IH] using TrieNode_ind. intros Hnd.
  rewrite height_unfold, stored_eq, map_app, longest_app. cbn [children].
  rewrite no_dangling_unfold in Hnd. cbn [children] in Hnd.
  assert (Hself : longest (map fst (if w then [(EmptyString, f)] else [])) = 0)
    by now destruct w.
  rewrite Hself.
  assert (Hcs :
    fold_right Z.max 0
      (map (fun kv : ascii * TrieNode => let (_, c) := kv in height c) cs)
    = longest (map fst
        (flat_map
           (fun kv : ascii * TrieNode =>
              let (ch, c) := kv in
              map (fun p : string * float => (String ch (fst p), snd p))
                  (stored c)) cs))).
  { clear Hself. unfold dict_all in Hnd.
    induction IH as [|[ch c] cs Hc _ IHcs];
      cbn [map fold_right flat_map snd forallb] in *; [reflexivity|].
    apply andb_true_iff in Hnd. destruct Hnd as [Hc' Hrest].
    apply andb_true_iff in Hc'. destruct Hc' as [Hd Hn].
    apply negb_true_iff in Hd.
    rewrite map_app, longest_app, (IHcs Hrest), (Hc Hn), map_map.
    cbn [fst]. rewrite <- (map_map fst (String ch)).
    rewrite longest_map_String; [reflexivity|].
    pose proof (stored_nonempty c Hd Hn) as Hne.
    destruct (stored c); [congruence | discriminate]. }
  destruct cs as [|kv cs'].
  - cbn [flat_map map]. reflexivity.
  - rewrite Hcs.
    pose proof (longest_nonneg
      (map fst
        (flat_map
           (fun kv : ascii * TrieNode =>
              let (ch, c) := kv in
              map (fun p : string * float => (String ch (fst p), snd p))
                  (stored c)) (kv :: cs')))).
    lia.
Qed.

(** Where the recursion limit is not reached: in every state reached from a
    fresh trie, [stats()] returns the number of stored words, one more than
    the length of the longest stored word, and the number of nodes. *)
Lemma stats_exact (cs : list command) :
  let self := run cs new_trie in
  fst (stats self)
  = (Z.of_nat (length (fst (items self))),
     1 + longest (map fst (fst (items self))),
     size (root self)).
Proof.
  cbn zeta.
  destruct (counters_exact_run cs new_trie counters_exact_new)
    as (Hn & Hw & Hnd).
  cbn [stats fst]. rewrite items_stored, <- count_words_stored.
  now rewrite (height_longest _ Hnd), Hn, Hw.
Qed.

(** ** The command loop *)

Lemma build_last pairs q :
  build (pairs ++ [q]) = snd (insert (fst q) (snd q) (build pairs)).
Proof. unfold build. now rewrite fold_left_app. Qed.

Lemma build_run pairs :
  build pairs = run (map (fun q => Insert (fst q) (snd q)) pairs) new_trie.
Proof.
  unfold build, run. generalize new_trie as t.
  induction pairs as [|q pairs IH]; intros t; [reflexivity|].
  cbn [fold_left map exec]. apply IH.
Qed.

(** X11: loading pairs into a fresh trie, as [load] does, gives every word
    the weight of its last pair and stores no other word. *)
Theorem build_last_wins (pairs : list (string * float)) (w : string) :
  weight_of w (build pairs)
  = option_map snd (find (fun q => String.eqb (fst q) w) (rev pairs)).
Proof.
  induction pairs as [|q pairs IH] using rev_ind.
  - apply weight_at_new_node.
  - rewrite build_last, weight_of_insert, rev_app_distr. cbn [rev app find].
    destruct (String.eqb (fst q) w); [reflexivity | exact IH].
Qed.

Section MainFacts.
Context {P : Platform}.
Implicit Types (st : App P) (parts : list string).

Ltac case_on_test :=
  match goal with
  | |- context [if ?c then _ else _] => destruct c eqn:?
  end.

(** What a branch of [dispatch] does to the trie: nothing; or it replaces
    it by a loaded one, printing nothing; or it inserts or removes a word,
    printing [OK]. *)
Lemma dispatch_effect cmd parts st :
  let st' := fst (dispatch cmd parts st) in
  app_trie st' = app_trie st
  \/ (exists pairs, app_trie st' = build pairs /\ app_out st' = app_out st)
  \/ (exists w f, app_trie st' = snd (insert w f (app_trie st))
                  /\ app_out st' = app_out st ++ ["OK"%string])
  \/ (exists w, app_trie st' = snd (remove w (app_trie st))
                /\ app_out st' = app_out st ++ ["OK"%string]).
Proof.
  cbn zeta. unfold dispatch.
  repeat case_on_test; cbn [fst]; try (left; reflexivity).
  - destruct (load_csv P (app_files st) (part 1 parts)) as [pairs|].
    + right. left. now exists pairs.
    + now left.
  - rewrite (surjective_pairing (items (app_trie st))).
    destruct (save_csv P (app_files st) (part 1 parts)
                (fst (items (app_trie st)))) as [fs ok].
    now left.
  - destruct (to_float P (part 2 parts)) as [f|]; [|now left].
    right. right. left. exists (str_lower P (part 1 parts)), f.
    now rewrite (surjective_pairing (insert _ f (app_trie st))).
  - destruct (remove (str_lower P (part 1 parts)) (app_trie st))
      as [found t] eqn:E.
    cbn [fst print_line with_trie app_trie app_out].
    destruct found.
    + right. right. right. exists (str_lower P (part 1 parts)).
      now rewrite E.
    + left. pose proof (remove_result (str_lower P (part 1 parts))
                          (app_trie st)) as Hr.
      rewrite E in Hr. cbn [fst contains] in Hr. symmetry in Hr.
      rewrite (remove_not_stored _ _ Hr) in E. now injection E.
  - destruct (to_int P (part 2 parts)) as [k|]; now left.
Qed.

Lemma dispatch_reachable cmd parts st :
  (exists cs, app_trie st = run cs new_trie) ->
  exists cs, app_trie (fst (dispatch cmd parts st)) = run cs new_trie.
Proof.
  intros [cs Hcs].
  destruct (dispatch_effect cmd parts st)
    as [H|[(pairs & H & _)|[(w & f & H & _)|(w & H & _)]]]; rewrite H.
  - now exists cs.
  - eexists. apply build_run.
  - exists (cs ++ [Insert w f]). now rewrite run_app, <- Hcs.
  - exists (cs ++ [Remove w]). now rewrite run_app, <- Hcs.
Qed.

Lemma step_reachable line st :
  (exists cs, app_trie st = run cs new_trie) ->
  exists cs, app_trie (fst (step line st)) = run cs new_trie.
Proof.
  intros H. unfold step.
  destruct (String.eqb (str_strip P line) EmptyString); [exact H|].
  destruct (str_split P (str_strip P line)) as [|p0 ps]; [exact H|].
  pose proof (dispatch_reachable (str_lower P p0) (p0 :: ps) st H) as Hd.
  now destruct (dispatch (str_lower P p0) (p0 :: ps) st).
Qed.

Lemma main_loop_reachable lines : forall st,
  (exists cs, app_trie st = run cs new_trie) ->
  exists cs, app_trie (fst (main_loop lines st)) = run cs new_trie.
Proof.
  induction lines as [|line lines IH]; intros st H; [exact H|].
  cbn [main_loop]. pose proof (step_reachable line st H) as Hs.
  destruct (step line st) as [st' [| |]]; cbn [fst] in *; auto.
Qed.

(** X12: whatever lines [main] reads, the trie it holds is a state that
    calls of [insert] and [remove] reach from a fresh trie, so its counters
    are exact and nothing dangles in it. *)
Theorem main_trie_reachable (fs : Files P) (lines : list string) :
  let t := app_trie (fst (main fs lines)) in
  (exists cs, t = run cs new_trie)
  /\ _nodes t = size (root t)
  /\ _words t = count_words (root t)
  /\ no_dangling (root t) = true.
Proof.
  cbn zeta.
  assert (H : exists cs, app_trie (fst (main fs lines)) = run cs new_trie).
  { apply main_loop_reachable. now exists []. }
  split; [exact H|]. destruct H as [cs ->].
  exact (counters_exact_run cs new_trie counters_exact_new).
Qed.

Lemma step_effect line st :
  let st' := fst (step line st) in
  (app_trie st' = app_trie st)
  \/ (app_out st' = app_out st)
  \/ (app_out st' = app_out st ++ ["OK"%string]).
Proof.
  cbn zeta. unfold step.
  destruct (String.eqb (str_strip P line) EmptyString); [now left|].
  destruct (str_split P (str_strip P line)) as [|p0 ps]; [now left|].
  pose proof (dispatch_effect (str_lower P p0) (p0 :: ps) st) as Hd.
  cbn zeta in Hd.
  destruct (dispatch (str_lower P p0) (p0 :: ps) st) as [st' stop].
  cbn [fst] in *.
  destruct Hd as [H|[(pairs & _ & H)|[(w & f & _ & H)|(w & _ & H)]]]; auto.
Qed.

(** X13: a line that [main] answers with anything but [OK] (with [ERROR],
    [MISS], [YES], [NO], a list of completions or the stats) leaves the trie
    as it was. *)
Theorem only_ok_changes_trie (line : string) (st : App P) (s : string) :
  app_out (fst (step line st)) = app_out st ++ [s] ->
  s <> "OK"%string ->
  app_trie (fst (step line st)) = app_trie st.
Proof.
  intros Hout Hs. destruct (step_effect line st) as [H|[H|H]].
  - exact H.
  - rewrite H in Hout. exfalso.
    apply (f_equal (@length _)) in Hout. rewrite length_app in Hout.
    cbn [length] in Hout. lia.
  - rewrite H in Hout. apply app_inv_head in Hout. congruence.
Qed.

Lemma main_loop_app lines1 : forall lines2 st,
  main_loop (lines1 ++ lines2) st
  = match main_loop lines1 st with
    | (st', Going) => main_loop lines2 st'
    | stopped => stopped
    end.
Proof.
  induction lines1 as [|l lines1 IH]; intros lines2 st; cbn [app main_loop].
  - reflexivity.
  - destruct (step l st) as [st' [| |]]; [apply IH | reflexivity..].
Qed.

(** X14: nothing is read after [quit]: the lines that follow a line whose
    first token is [quit] in any case, whatever else is on it, change
    neither the trie nor the output, and [quit] itself prints nothing. *)
Theorem quit_stops (q p0 : string) (ps lines1 lines2 : list string)
    (st : App P) :
  String.eqb (str_strip P q) EmptyString = false ->
  str_split P (str_strip P q) = p0 :: ps ->
  str_lower P p0 = "quit"%string ->
  main_loop (lines1 ++ q :: lines2) st
  = match main_loop lines1 st with
    | (st', Going) => (st', Quit)
    | stopped => stopped
    end.
Proof.
  intros Hne Hsplit Hlow. rewrite main_loop_app.
  destruct (main_loop lines1 st) as [st' [| |]]; try reflexivity.
  cbn [main_loop]. unfold step. rewrite Hne, Hsplit, Hlow. reflexivity.
Qed.

Lemma dispatch_insert c w f x st :
  to_float P f = Some x ->
  dispatch "insert" [c; w; f] st
  = (print_line "OK"
       (with_trie (snd (insert (str_lower P w) x (app_trie st))) st), false).
Proof.
  intros Hf. unfold dispatch. cbn [String.eqb Ascii.eqb Bool.eqb andb length
    Nat.eqb part nth]. rewrite Hf.
  now rewrite (surjective_pairing (insert _ x (app_trie st))).
Qed.

Lemma dispatch_contains c w st :
  dispatch "contains" [c; w] st
  = (print_line
       (if fst (contains (str_lower P w) (app_trie st)) then "YES" else "NO")
       st, false).
Proof. unfold dispatch. cbn. now destruct st. Qed.

(** X15: words are folded to lower case on the way in and on the way out:
    after the command [insert w1 f] with a weight that parses, the command
    [contains w2] answers [YES] whenever [w1] and [w2] agree once
    lower-cased. *)
Theorem insert_then_contains_any_case (c1 c2 w1 w2 f : string) (x : float)
    (st : App P) :
  to_float P f = Some x ->
  str_lower P w1 = str_lower P w2 ->
  let st1 := fst (dispatch "insert" [c1; w1; f] st) in
  let st2 := fst (dispatch "contains" [c2; w2] st1) in
  app_out st2 = app_out st ++ ["OK"; "YES"]%string.
Proof.
  intros Hf Hw. cbn zeta.
  rewrite (dispatch_insert c1 w1 f x st Hf), dispatch_contains.
  cbn [fst print_line with_trie app_trie app_out].
  rewrite <- Hw, contains_weight_of, weight_of_insert, String.eqb_refl.
  now rewrite <- app_assoc.
Qed.

End MainFacts.

(** * The further properties at sample inputs *)

Lemma insert_frame_witness :
  weight_of "car" (snd (insert "cat" (fl 7 0) sample_trie))
  = weight_of "car" sample_trie.
Proof.
  apply (proj1 (insert_frame "cat" (fl 7 0) sample_trie)). discriminate.
Defined.

Lemma complete_top_k_witness :
  ~ In "cat"%string (fst (complete "ca" 2 sample_trie))
  /\ outranks sample_trie "cart" "cat" = true.
Proof.
  assert (Hout : ~ In "cat"%string (fst (complete "ca" 2 sample_trie))).
  { vm_compute. intros [H|[H|[]]]; discriminate H. }
  split; [exact Hout|].
  apply (complete_top_k "ca" 2 sample_trie "cat" "cart").
  - vm_compute. reflexivity.
  - vm_compute. reflexivity.
  - lia.
  - vm_compute. left. reflexivity.
  - exact Hout.
  - vm_compute. right. left. reflexivity.
Defined.

Lemma complete_monotone_witness :
  fst (complete "ca" 1 sample_trie)
  = firstn 1 (fst (complete "ca" 2 sample_trie)).
Proof. apply (complete_monotone "ca" 1 2 sample_trie). lia. Defined.

Lemma node_iff_stored_prefix_witness :
  find_node "ca" (root (run [Insert "cat" (fl 5 0)] new_trie)) <> None
  <-> exists w, String.prefix "ca" w = true
                /\ fst (contains w (run [Insert "cat" (fl 5 0)] new_trie))
                   = true.
Proof.
  apply (node_iff_stored_prefix [Insert "cat" (fl 5 0)] "ca"). discriminate.
Defined.

Lemma only_ok_changes_trie_witness :
  app_trie (fst (step (P := toy_platform) "zzz" (mkApp (P := toy_platform) sample_trie tt [])))
  = sample_trie.
Proof.
  apply (only_ok_changes_trie (P := toy_platform) "zzz"
           (mkApp (P := toy_platform) sample_trie tt []) "ERROR").
  - reflexivity.
  - discriminate.
Defined.

Lemma quit_stops_witness :
  main_loop (P := toy_platform) (["zzz"; "quit"; "zzz"]%string)
    (mkApp (P := toy_platform) new_trie tt [])
  = (mkApp (P := toy_platform) new_trie tt ["ERROR"%string], Quit).
Proof.
  exact (quit_stops (P := toy_platform) "quit" "quit" [] ["zzz"%string]
           ["zzz"%string] (mkApp (P := toy_platform) new_trie tt [])
           eq_refl eq_refl eq_refl).
Defined.

Lemma insert_then_contains_any_case_witness :
  app_out
    (fst (dispatch (P := toy_platform) "contains" ["CONTAINS"; "cat"]%string
            (fst (dispatch (P := toy_platform) "insert"
                    ["Insert"; "cat"; "1"]%string (mkApp (P := toy_platform) new_trie tt [])))))
  = ["OK"; "YES"]%string.
Proof.
  apply (insert_then_contains_any_case (P := toy_platform)
           "Insert" "CONTAINS" "cat" "cat" "1" (fl 1 0)
           (mkApp (P := toy_platform) new_trie tt []));
    reflexivity.
Defined.

(** * The methods under the recursion limit *)

#[local] Arguments levels : simpl never.

Lemma levels_unfold n :
  levels n
  = S (fold_right Nat.max 0%nat
         (map (fun kv : ascii * TrieNode => let (_, c) := kv in levels c)
              (children n))).
Proof. now destruct n. Qed.

Lemma levels_pos n : (1 <= levels n)%nat.
Proof. rewrite levels_unfold. lia. Qed.

Lemma levels_child k c cs :
  In (k, c) cs ->
  (levels c
   <= fold_right Nat.max 0%nat
        (map (fun kv : ascii * TrieNode => let (_, c) := kv in levels c) cs))%nat.
Proof.
  induction cs as [|[k' c'] cs IH]; cbn [In map fold_right]; [tauto|].
  intros [[= -> ->]|H]; [lia|]. specialize (IH H). lia.
Qed.

Lemma levels_find_node p : forall n m,
  find_node p n = Some m -> (levels m + String.length p <= levels n)%nat.
Proof.
  induction p as [|c p IH]; intros n m H; cbn [find_node String.length] in *.
  - injection H as <-. lia.
  - destruct (Dict.get c (children n)) as [ch|] eqn:G; [|discriminate].
    specialize (IH ch m H). apply dict_get_In in G.
    pose proof (levels_child _ _ _ G). rewrite (levels_unfold n). lia.
Qed.

(** ** remove *)

Lemma calls_bound suffix : forall node,
  (1 <= calls suffix node <= S (String.length suffix))%nat.
Proof.
  induction suffix as [|ch rest IH]; intros node; cbn [calls String.length].
  - lia.
  - destruct (Dict.get ch (children node)) as [child|]; [|lia].
    specialize (IH child). lia.
Qed.

Lemma calls_found suffix : forall node,
  find_node suffix node <> None -> calls suffix node = S (String.length suffix).
Proof.
  induction suffix as [|ch rest IH]; intros node H;
    cbn [calls String.length find_node] in *; [reflexivity|].
  destruct (Dict.get ch (children node)) as [child|]; [|congruence].
  now rewrite IH.
Qed.

(** With enough calls left, the closure returns what [_remove] computes. *)
Lemma Limited_remove_within limit : forall suffix node st,
  (calls suffix node <= limit)%nat ->
  Limited._remove limit suffix node st = Some (_remove suffix node st).
Proof.
  induction limit as [|limit IH]; intros suffix node st H.
  - pose proof (calls_bound suffix node). lia.
  - destruct suffix as [|ch rest]; cbn [Limited._remove _remove calls] in *.
    + now destruct (negb (is_word node)).
    + destruct (Dict.get ch (children node)) as [child|]; [|reflexivity].
      rewrite IH by lia.
      destruct (_remove rest child st) as [[child' st'] sd].
      now destruct sd.
Qed.

(** With too few calls left, it raises. *)
Lemma Limited_remove_beyond limit : forall suffix node st,
  (limit < calls suffix node)%nat ->
  Limited._remove limit suffix node st = None.
Proof.
  induction limit as [|limit IH]; intros suffix node st H; [reflexivity|].
  destruct suffix as [|ch rest]; cbn [Limited._remove calls] in *; [lia|].
  destruct (Dict.get ch (children node)) as [child|]; [|lia].
  now rewrite IH by lia.
Qed.

Lemma Limited_remove_returns limit word self :
  (calls word (root self) <= limit)%nat ->
  Limited.remove limit word self
  = (Returned (fst (remove word self)), snd (remove word self)).
Proof.
  intros H. unfold Limited.remove, remove.
  rewrite Limited_remove_within by assumption.
  now destruct (_remove word (root self) _) as [[r st] sd].
Qed.

Lemma Limited_remove_raises limit word self :
  (limit < calls word (root self))%nat ->
  Limited.remove limit word self = (RecursionError, self).
Proof.
  intros H. unfold Limited.remove. now rewrite Limited_remove_beyond.
Qed.

(** ** The traversals *)

Lemma Limited_dfs_within n : forall limit path heap,
  (levels n <= limit)%nat ->
  Limited.dfs limit n path heap = Some (dfs n path heap).
Proof.
  induction n as [cs w f IH] using TrieNode_ind. intros limit path heap H.
  rewrite levels_unfold in H. cbn [children] in H.
  destruct limit as [|limit]; [lia|]. apply Nat.succ_le_mono in H.
  change (dfs (mkNode cs w f) path heap)
    with (fold_left
            (fun h (kv : ascii * TrieNode) =>
               let (ch, c) := kv in dfs c (snoc path ch) h)
            cs (if w then heap ++ [(SFopp f, path)] else heap)).
  cbn [Limited.dfs children is_word freq].
  generalize (if w then heap ++ [(SFopp f, path)] else heap) as h.
  induction IH as [|[ch c] cs Hc _ IHcs]; intros h;
    cbn [fold_left map fold_right snd] in *; [reflexivity|].
  rewrite Hc by lia. apply IHcs. lia.
Qed.

Lemma Limited_dfs_beyond n : forall limit path heap,
  (limit < levels n)%nat -> Limited.dfs limit n path heap = None.
Proof.
  induction n as [cs w f IH] using TrieNode_ind. intros limit path heap H.
  destruct limit as [|limit]; [reflexivity|].
  rewrite levels_unfold in H. cbn [children] in H.
  apply Nat.succ_lt_mono in H.
  cbn [Limited.dfs children is_word freq].
  generalize (Some (if w then heap ++ [(SFopp f, path)] else heap)) as h.
  induction IH as [|[ch c] cs Hc _ IHcs]; intros h;
    cbn [fold_left map fold_right snd] in *; [lia|].
  destruct (Nat.lt_ge_cases limit (levels c)) as [Hdeep|Hshallow].
  - assert (Hnone : forall cs' : list (ascii * TrieNode),
      fold_left
        (fun (h : option (list entry)) (kv : ascii * TrieNode) =>
           let (ch, c) := kv in
           match h with
           | None => None
           | Some h' => Limited.dfs limit c (snoc path ch) h'
           end) cs' None = None).
    { induction cs' as [|[k' c'] cs' IH']; [reflexivity | exact IH']. }
    destruct h as [h'|]; [rewrite (Hc limit _ _ Hdeep)|]; apply Hnone.
  - apply IHcs. lia.
Qed.

Lemma Limited_items_dfs_within n : forall limit path result,
  (levels n <= limit)%nat ->
  Limited.items_dfs limit n path result = Some (items_dfs n path result).
Proof.
  induction n as [cs w f IH] using TrieNode_ind. intros limit path result H.
  rewrite levels_unfold in H. cbn [children] in H.
  destruct limit as [|limit]; [lia|]. apply Nat.succ_le_mono in H.
  change (items_dfs (mkNode cs w f) path result)
    with (fold_left
            (fun r (kv : ascii * TrieNode) =>
               let (ch, nxt) := kv in items_dfs nxt (snoc path ch) r)
            cs (if w then result ++ [(path, f)] else result)).
  cbn [Limited.items_dfs children is_word freq].
  generalize (if w then result ++ [(path, f)] else result) as r.
  induction IH as [|[ch c] cs Hc _ IHcs]; intros r;
    cbn [fold_left map fold_right snd] in *; [reflexivity|].
  rewrite Hc by lia. apply IHcs. lia.
Qed.

Lemma Limited_items_dfs_beyond n : forall limit path result,
  (limit < levels n)%nat -> Limited.items_dfs limit n path result = None.
Proof.
  induction n as [cs w f IH] using TrieNode_ind. intros limit path result H.
  destruct limit as [|limit]; [reflexivity|].
  rewrite levels_unfold in H. cbn [children] in H.
  apply Nat.succ_lt_mono in H.
  cbn [Limited.items_dfs children is_word freq].
  generalize (Some (if w then result ++ [(path, f)] else result)) as r.
  induction IH as [|[ch c] cs Hc _ IHcs]; intros r;
    cbn [fold_left map fold_right snd] in *; [lia|].
  destruct (Nat.lt_ge_cases limit (levels c)) as [Hdeep|Hshallow].
  - assert (Hnone : forall cs' : list (ascii * TrieNode),
      fold_left
        (fun (r : option (list (string * float))) (kv : ascii * TrieNode) =>
           let (ch, nxt) := kv in
           match r with
           | None => None
           | Some r' => Limited.items_dfs limit nxt (snoc path ch) r'
           end) cs' None = None).
    { induction cs' as [|[k' c'] cs' IH']; [reflexivity | exact IH']. }
    destruct r as [r'|]; [rewrite (Hc limit _ _ Hdeep)|]; apply Hnone.
  - apply IHcs. lia.
Qed.

Lemma height_levels n : height n = Z.of_nat (levels n).
Proof.
  induction n as [cs w f IH] using TrieNode_ind.
  rewrite height_unfold, levels_unfold. cbn [children].
  assert (H : fold_right Z.max 0
                (map (fun kv : ascii * TrieNode => let (_, c) := kv in height c)
                     cs)
              = Z.of_nat
                  (fold_right Nat.max 0%nat
                     (map (fun kv : ascii * TrieNode =>
                             let (_, c) := kv in levels c) cs))).
  { induction IH as [|[ch c] cs Hc _ IHcs];
      cbn [map fold_right snd] in *; [reflexivity|].
    rewrite Hc, IHcs. lia. }
  destruct cs as [|kv cs']; [reflexivity|]. rewrite H. lia.
Qed.

Lemma Limited_height_within n : forall limit,
  (levels n <= limit)%nat -> Limited.height limit n = Some (height n).
Proof.
  induction n as [cs w f IH] using TrieNode_ind. intros limit H.
  rewrite levels_unfold in H. cbn [children] in H.
  destruct limit as [|limit]; [lia|]. apply Nat.succ_le_mono in H.
  rewrite height_unfold. cbn [Limited.height children].
  assert (Hfold :
    fold_right
      (fun (kv : ascii * TrieNode) (m : option Z) =>
         let (_, c) := kv in
         match Limited.height limit c, m with
         | Some h, Some m' => Some (Z.max h m')
         | _, _ => None
         end) (Some 0) cs
    = Some (fold_right Z.max 0
              (map (fun kv : ascii * TrieNode => let (_, c) := kv in height c)
                   cs))).
  { induction IH as [|[ch c] cs Hc _ IHcs];
      cbn [map fold_right snd] in *; [reflexivity|].
    rewrite Hc, IHcs by lia. reflexivity. }
  destruct cs as [|kv cs']; [reflexivity|]. now rewrite Hfold.
Qed.

Lemma Limited_height_beyond n : forall limit,
  (limit < levels n)%nat -> Limited.height limit n = None.
Proof.
  induction n as [cs w f IH] using TrieNode_ind. intros limit H.
  destruct limit as [|limit]; [reflexivity|].
  rewrite levels_unfold in H. cbn [children] in H.
  apply Nat.succ_lt_mono in H. cbn [Limited.height children].
  assert (Hfold :
    fold_right
      (fun (kv : ascii * TrieNode) (m : option Z) =>
         let (_, c) := kv in
         match Limited.height limit c, m with
         | Some h, Some m' => Some (Z.max h m')
         | _, _ => None
         end) (Some 0) cs = None).
  { induction IH as [|[ch c] cs Hc _ IHcs];
      cbn [map fold_right snd] in *; [lia|].
    destruct (Nat.lt_ge_cases limit (levels c)) as [Hdeep|Hshallow].
    - now rewrite (Hc limit Hdeep).
    - rewrite IHcs by lia. now destruct (Limited.height limit c). }
  destruct cs as [|kv cs']; [cbn in H; lia|]. now rewrite Hfold.
Qed.

(** ** The methods *)

Lemma Limited_complete_returns limit p k self :
  (complete_depth p self <= limit)%nat ->
  Limited.complete limit p k self = (Returned (fst (complete p k self)), self).
Proof.
  unfold complete_depth, Limited.complete, complete. cbn [fst].
  destruct (find_node p (root self)) as [node|]; [|reflexivity].
  intros H. now rewrite Limited_dfs_within.
Qed.

Lemma Limited_complete_raises limit p k self :
  (limit < complete_depth p self)%nat ->
  Limited.complete limit p k self = (RecursionError, self).
Proof.
  unfold complete_depth, Limited.complete.
  destruct (find_node p (root self)) as [node|]; [|lia].
  intros H. now rewrite Limited_dfs_beyond.
Qed.

Lemma Limited_items_returns limit self :
  (levels (root self) <= limit)%nat ->
  Limited.items limit self = (Returned (fst (items self)), self).
Proof.
  intros H. unfold Limited.items, items. cbn [fst].
  now rewrite Limited_items_dfs_within.
Qed.

Lemma Limited_items_raises limit self :
  (limit < levels (root self))%nat ->
  Limited.items limit self = (RecursionError, self).
Proof.
  intros H. unfold Limited.items. now rewrite Limited_items_dfs_beyond.
Qed.

Lemma Limited_stats_returns limit self :
  (levels (root self) <= limit)%nat ->
  Limited.stats limit self = (Returned (fst (stats self)), self).
Proof.
  intros H. unfold Limited.stats, stats. cbn [fst].
  now rewrite Limited_height_within.
Qed.

Lemma Limited_stats_raises limit self :
  (limit < levels (root self))%nat ->
  Limited.stats limit self = (RecursionError, self).
Proof.
  intros H. unfold Limited.stats. now rewrite Limited_height_beyond.
Qed.

(** C1: as the code has it, on a trie whose weights are numbers and for
    [k >= 0], when the subtree of the prefix is no deeper than the recursion
    limit, [complete(p, k)] returns at most [k] words, each starting with
    [p], each ranked before the ones after it (larger weight first, smaller
    word first among equal weights), [min(k, number of matches)] of them,
    none when the prefix has no node and none when [k = 0]; when the subtree
    is deeper it raises [RecursionError].  The trie is the same after the
    call either way. *)
Theorem complete_ranked_within (limit : nat) (p : string) (k : Z)
    (self : Trie) :
  wf_node (root self) = true -> nan_free (root self) = true -> 0 <= k ->
  ((complete_depth p self <= limit)%nat ->
     exists r,
       Limited.complete limit p k self = (Returned r, self)
       /\ Z.of_nat (length r) <= k
       /\ Forall (fun w => String.prefix p w = true) r
       /\ StronglySorted (fun w1 w2 => outranks self w1 w2 = true) r
       /\ Z.of_nat (length r) = Z.min k (Z.of_nat (length (matches p self)))
       /\ (find_node p (root self) = None -> r = [])
       /\ (k = 0 -> r = []))
  /\ ((limit < complete_depth p self)%nat ->
        Limited.complete limit p k self = (RecursionError, self)).
Proof.
  intros Hwf Hnf Hk. split.
  - intros Hd. exists (fst (complete p k self)).
    split; [now apply Limited_complete_returns|].
    exact (complete_ranked p k self Hwf Hnf Hk).
  - apply Limited_complete_raises.
Qed.

Lemma complete_ranked_within_witness :
  wf_node (root sample_trie) = true
  /\ nan_free (root sample_trie) = true
  /\ (complete_depth "ca" sample_trie <= default_limit)%nat
  /\ (exists r,
        Limited.complete default_limit "ca" 2 sample_trie
        = (Returned r, sample_trie)
        /\ Z.of_nat (length r) <= 2
        /\ StronglySorted (fun w1 w2 => outranks sample_trie w1 w2 = true) r)
  /\ Limited.complete 2 "ca" 2 sample_trie = (RecursionError, sample_trie).
Proof.
  assert (Hwf : wf_node (root sample_trie) = true) by (vm_compute; reflexivity).
  assert (Hnf : nan_free (root sample_trie) = true) by (vm_compute; reflexivity).
  assert (Hk : 0 <= 2) by lia.
  assert (Hd : (complete_depth "ca" sample_trie <= default_limit)%nat)
    by (apply Nat.leb_le; vm_compute; reflexivity).
  assert (Hd' : (2 < complete_depth "ca" sample_trie)%nat)
    by (apply Nat.ltb_lt; vm_compute; reflexivity).
  split; [exact Hwf|]. split; [exact Hnf|]. split; [exact Hd|]. split.
  - destruct (proj1 (complete_ranked_within default_limit "ca" 2 sample_trie
                       Hwf Hnf Hk) Hd) as (r & H1 & H2 & _ & H4 & _).
    exists r. split; [exact H1|]. split; [exact H2|exact H4].
  - exact (proj2 (complete_ranked_within 2 "ca" 2 sample_trie Hwf Hnf Hk) Hd').
Defined.

(** C2: as the code has it, when [contains(w)] is false, [remove(w)] leaves
    the whole trie as it was; it returns false when its calls nest no deeper
    than the recursion limit, which is so whenever [len(w)] is below the
    limit, and otherwise it raises [RecursionError]. *)
Theorem remove_absent_within (limit : nat) (word : string) (self : Trie) :
  fst (contains word self) = false ->
  snd (Limited.remove limit word self) = self
  /\ ((calls word (root self) <= limit)%nat ->
        fst (Limited.remove limit word self) = Returned false)
  /\ ((limit < calls word (root self))%nat ->
        fst (Limited.remove limit word self) = RecursionError)
  /\ ((String.length word < limit)%nat ->
        Limited.remove limit word self = (Returned false, self)).
Proof.
  intros Hc. cbn [contains fst] in Hc.
  pose proof (remove_not_stored word self Hc) as Hr.
  assert (Hin : (calls word (root self) <= limit)%nat ->
                Limited.remove limit word self = (Returned false, self)).
  { intros H. now rewrite Limited_remove_returns, Hr. }
  repeat split.
  - destruct (Nat.le_gt_cases (calls word (root self)) limit) as [H|H].
    + now rewrite Hin.
    + now rewrite Limited_remove_raises.
  - intros H. now rewrite Hin.
  - intros H. now rewrite Limited_remove_raises.
  - intros H. apply Hin. pose proof (calls_bound word (root self)). lia.
Qed.

Lemma remove_absent_within_witness :
  fst (contains "ca" sample_trie) = false
  /\ Limited.remove default_limit "ca" sample_trie
     = (Returned false, sample_trie)
  /\ fst (Limited.remove 2 "ca" sample_trie) = RecursionError
  /\ snd (Limited.remove 2 "ca" sample_trie) = sample_trie.
Proof.
  assert (Hc : fst (contains "ca" sample_trie) = false)
    by (vm_compute; reflexivity).
  assert (Hlen : (String.length "ca" < default_limit)%nat)
    by (apply Nat.ltb_lt; vm_compute; reflexivity).
  assert (Hdeep : (2 < calls "ca" (root sample_trie))%nat)
    by (apply Nat.ltb_lt; vm_compute; reflexivity).
  split; [exact Hc|]. split; [|split].
  - exact (proj2 (proj2 (proj2
             (remove_absent_within default_limit "ca" sample_trie Hc))) Hlen).
  - exact (proj1 (proj2 (proj2
             (remove_absent_within 2 "ca" sample_trie Hc))) Hdeep).
  - exact (proj1 (remove_absent_within 2 "ca" sample_trie Hc)).
Defined.

(** C10: as the code has it, on a trie whose weights are numbers and for
    [k < 0], when the subtree of the prefix is no deeper than the recursion
    limit, [complete(p, k)] returns the ranked list of all the matches (every
    stored word with the prefix once, each ranked before the ones after it)
    without its last [-k] words, which is empty exactly when [-k] is at
    least the number of matches; when the subtree is deeper it raises
    [RecursionError]. *)
Theorem complete_negative_k_within (limit : nat) (p : string) (k : Z)
    (self : Trie) :
  wf_node (root self) = true -> nan_free (root self) = true -> k < 0 ->
  ((complete_depth p self <= limit)%nat ->
     exists full,
       Permutation full (matches p self)
       /\ StronglySorted (fun w1 w2 => outranks self w1 w2 = true) full
       /\ Limited.complete limit p k self
          = (Returned (firstn (length full - Z.to_nat (- k)) full), self)
       /\ (firstn (length full - Z.to_nat (- k)) full = []
           <-> Z.of_nat (length (matches p self)) <= - k))
  /\ ((limit < complete_depth p self)%nat ->
        Limited.complete limit p k self = (RecursionError, self)).
Proof.
  intros Hwf Hnf Hk. split; [|apply Limited_complete_raises].
  intros Hd. exists (map snd (list_sort (entries p self))).
  assert (Hperm : Permutation (map snd (list_sort (entries p self)))
                    (matches p self)).
  { rewrite <- (entries_matches p self Hwf).
    apply Permutation_map, list_sort_perm. }
  split; [exact Hperm|]. split; [now apply ranked_words_sorted|].
  rewrite <- (Permutation_length Hperm). split.
  - rewrite Limited_complete_returns, complete_entries by assumption.
    do 2 f_equal. rewrite firstn_map. f_equal. unfold slice_to.
    rewrite length_map.
    destruct (Z.ltb_spec k 0) as [_|]; [|lia]. f_equal. unfold entry. lia.
  - split.
    + intros H. apply (f_equal (@length _)) in H.
      rewrite length_firstn in H. cbn [length] in H. lia.
    + intros H.
      replace (length (map snd (list_sort (entries p self)))
               - Z.to_nat (- k))%nat with 0%nat by lia.
      reflexivity.
Qed.

Lemma complete_negative_k_within_witness :
  Limited.complete default_limit "ca" (-1) sample_trie
  = (Returned ["car"; "cart"]%string, sample_trie)
  /\ (exists full,
        Permutation full (matches "ca" sample_trie)
        /\ Limited.complete default_limit "ca" (-1) sample_trie
           = (Returned (firstn (length full - Z.to_nat (- (-1))) full),
              sample_trie))
  /\ Limited.complete 2 "ca" (-1) sample_trie = (RecursionError, sample_trie).
Proof.
  assert (Hwf : wf_node (root sample_trie) = true) by (vm_compute; reflexivity).
  assert (Hnf : nan_free (root sample_trie) = true) by (vm_compute; reflexivity).
  assert (Hk : -1 < 0) by lia.
  assert (Hd : (complete_depth "ca" sample_trie <= default_limit)%nat)
    by (apply Nat.leb_le; vm_compute; reflexivity).
  assert (Hd' : (2 < complete_depth "ca" sample_trie)%nat)
    by (apply Nat.ltb_lt; vm_compute; reflexivity).
  split; [vm_compute; reflexivity|]. split.
  - destruct (proj1 (complete_negative_k_within default_limit "ca" (-1)
                       sample_trie Hwf Hnf Hk) Hd) as (full & H1 & _ & H3 & _).
    exists full. split; [exact H1|exact H3].
  - exact (proj2 (complete_negative_k_within 2 "ca" (-1) sample_trie
                    Hwf Hnf Hk) Hd').
Defined.

(** ** Past the limit *)

(** At the limit CPython ships with, a word of 1200 symbols is stored (the
    loop of [insert] does not recurse) and [complete("", 0)] gives no list:
    it raises. *)
Lemma complete_deep_raises :
  wf_node (root deep_trie) = true
  /\ nan_free (root deep_trie) = true
  /\ Limited.complete default_limit "" 0 deep_trie
     = (RecursionError, deep_trie)
  /\ ~ (exists r,
          fst (Limited.complete default_limit "" 0 deep_trie) = Returned r).
Proof.
  assert (H : Limited.complete default_limit "" 0 deep_trie
              = (RecursionError, deep_trie)) by (vm_compute; reflexivity).
  split; [vm_compute; reflexivity|]. split; [vm_compute; reflexivity|].
  split; [exact H|].
  intros [r Hr]. rewrite H in Hr. discriminate Hr.
Qed.

(** With that word stored, the word of its first 1100 symbols is not stored,
    and [remove] of it does not return false: it raises. *)
Lemma remove_absent_deep_raises :
  fst (contains (repeated "a" 1100) deep_trie) = false
  /\ Limited.remove default_limit (repeated "a" 1100) deep_trie
     = (RecursionError, deep_trie)
  /\ fst (Limited.remove default_limit (repeated "a" 1100) deep_trie)
     <> Returned false.
Proof.
  assert (H : Limited.remove default_limit (repeated "a" 1100) deep_trie
              = (RecursionError, deep_trie)) by (vm_compute; reflexivity).
  split; [vm_compute; reflexivity|]. split; [exact H|].
  rewrite H. discriminate.
Qed.

(** With that word and a short one stored there are two matches of the
    empty prefix, and [complete("", -1)] gives no list: it raises. *)
Lemma complete_negative_deep_raises :
  wf_node (root deep_trie') = true
  /\ nan_free (root deep_trie') = true
  /\ length (matches "" deep_trie') = 2%nat
  /\ Limited.complete default_limit "" (-1) deep_trie'
     = (RecursionError, deep_trie')
  /\ ~ (exists r,
          fst (Limited.complete default_limit "" (-1) deep_trie') = Returned r).
Proof.
  assert (H : Limited.complete default_limit "" (-1) deep_trie'
              = (RecursionError, deep_trie')) by (vm_compute; reflexivity).
  split; [vm_compute; reflexivity|]. split; [vm_compute; reflexivity|].
  split; [vm_compute; reflexivity|]. split; [exact H|].
  intros [r Hr]. rewrite H in Hr. discriminate Hr.
Qed.

(** ** Further properties under the limit *)

(** X1: removing a stored word, on a trie with unique keys.  When [len(w)]
    is below the recursion limit the call returns true, the word is no
    longer stored, every other word keeps its weight, [word_count] drops by
    one, [node_count] by at most [len(w)], and removing it once more returns
    false and changes nothing.  Otherwise the call raises [RecursionError]
    and the trie, the word included, stays as it was. *)
Theorem remove_stored_within (limit : nat) (word : string) (self : Trie) :
  wf_node (root self) = true -> fst (contains word self) = true ->
  let r := Limited.remove limit word self in
  ((String.length word < limit)%nat ->
     fst r = Returned true
     /\ fst (contains word (snd r)) = false
     /\ (forall w', w' <> word -> weight_of w' (snd r) = weight_of w' self)
     /\ _words (snd r) = _words self - 1
     /\ _nodes self - Z.of_nat (String.length word) <= _nodes (snd r)
        <= _nodes self
     /\ Limited.remove limit word (snd r) = (Returned false, snd r))
  /\ ((limit <= String.length word)%nat -> r = (RecursionError, self)).
Proof.
  intros Hwf Hc. cbn zeta.
  assert (Hcalls : calls word (root self) = S (String.length word)).
  { apply calls_found. cbn [contains fst] in Hc. unfold contains_from in Hc.
    destruct (find_node word (root self)); congruence. }
  split.
  - intros Hlen. rewrite Limited_remove_returns by lia. cbn [fst snd].
    destruct (remove_stored word self Hwf Hc) as (H1 & H2 & H3 & H4 & H5 & H6).
    repeat split; try assumption; try apply H5.
    + now rewrite H1.
    + rewrite Limited_remove_returns, H6; [reflexivity|].
      pose proof (calls_bound word (root (snd (remove word self)))). lia.
  - intros Hlen. apply Limited_remove_raises. lia.
Qed.

Lemma remove_stored_within_witness :
  fst (Limited.remove default_limit "car" sample_trie) = Returned true
  /\ fst (contains "car" (snd (Limited.remove default_limit "car" sample_trie)))
     = false
  /\ _words (snd (Limited.remove default_limit "car" sample_trie)) = 2
  /\ Limited.remove 3 "car" sample_trie = (RecursionError, sample_trie).
Proof.
  assert (Hwf : wf_node (root sample_trie) = true) by (vm_compute; reflexivity).
  assert (Hc : fst (contains "car" sample_trie) = true)
    by (vm_compute; reflexivity).
  assert (Hlen : (String.length "car" < default_limit)%nat)
    by (apply Nat.ltb_lt; vm_compute; reflexivity).
  assert (Hshort : (3 <= String.length "car")%nat)
    by (apply Nat.leb_le; vm_compute; reflexivity).
  destruct (proj1 (remove_stored_within default_limit "car" sample_trie Hwf Hc)
              Hlen) as (H1 & H2 & _ & H4 & _).
  split; [exact H1|]. split; [exact H2|]. split.
  - rewrite H4. vm_compute. reflexivity.
  - exact (proj2 (remove_stored_within 3 "car" sample_trie Hwf Hc) Hshort).
Defined.

(** X4: in every state reached from a fresh trie, after the insert of a
    word that was not stored, [remove] of that word returns true and gives
    back exactly the state before the insert when [len(w)] is below the
    recursion limit; otherwise it raises [RecursionError] and the word stays
    stored. *)
Theorem insert_then_remove_within (limit : nat) (cs : list command)
    (word : string) (f : float) :
  let self := run cs new_trie in
  fst (contains word self) = false ->
  ((String.length word < limit)%nat ->
     Limited.remove limit word (snd (insert word f self)) = (Returned true, self))
  /\ ((limit <= String.length word)%nat ->
        Limited.remove limit word (snd (insert word f self))
        = (RecursionError, snd (insert word f self))).
Proof.
  cbn zeta. intros Hc.
  assert (Hcalls : calls word (root (snd (insert word f (run cs new_trie))))
                   = S (String.length word)).
  { apply calls_found.
    pose proof (weight_of_insert word f (run cs new_trie) word) as Hw.
    rewrite String.eqb_refl in Hw. unfold weight_of, weight_at in Hw.
    destruct (find_node word (root (snd (insert word f (run cs new_trie)))));
      congruence. }
  split; intros Hlen.
  - rewrite Limited_remove_returns by lia.
    now rewrite (insert_then_remove cs word f Hc).
  - apply Limited_remove_raises. lia.
Qed.

Lemma insert_then_remove_within_witness :
  Limited.remove default_limit "dog"
    (snd (insert "dog" (fl 1 0) (run [Insert "do" (fl 2 0)] new_trie)))
  = (Returned true, run [Insert "do" (fl 2 0)] new_trie)
  /\ fst (Limited.remove 3 "dog"
            (snd (insert "dog" (fl 1 0) (run [Insert "do" (fl 2 0)] new_trie))))
     = RecursionError.
Proof.
  assert (Hc : fst (contains "dog" (run [Insert "do" (fl 2 0)] new_trie))
               = false) by (vm_compute; reflexivity).
  assert (Hlen : (String.length "dog" < default_limit)%nat)
    by (apply Nat.ltb_lt; vm_compute; reflexivity).
  assert (Hshort : (3 <= String.length "dog")%nat)
    by (apply Nat.leb_le; vm_compute; reflexivity).
  split.
  - exact (proj1 (insert_then_remove_within default_limit
                    [Insert "do" (fl 2 0)] "dog" (fl 1 0) Hc) Hlen).
  - rewrite (proj2 (insert_then_remove_within 3
                      [Insert "do" (fl 2 0)] "dog" (fl 1 0) Hc) Hshort).
    reflexivity.
Defined.

(** X5: in every state reached from a fresh trie, when the trie is no deeper
    than the recursion limit [items()] returns exactly the stored words,
    each once and with its weight, as many as [word_count] says; when it is
    deeper [items()] raises [RecursionError]. *)
Theorem items_exact_within (limit : nat) (cs : list command) :
  let self := run cs new_trie in
  ((levels (root self) <= limit)%nat ->
     exists l,
       Limited.items limit self = (Returned l, self)
       /\ (forall w x, In (w, x) l <-> weight_of w self = Some x)
       /\ NoDup (map fst l)
       /\ Z.of_nat (length l) = _words self)
  /\ ((limit < levels (root self))%nat ->
        Limited.items limit self = (RecursionError, self)).
Proof.
  cbn zeta. split; [|apply Limited_items_raises].
  intros H. exists (fst (items (run cs new_trie))).
  split; [now apply Limited_items_returns|]. exact (items_exact cs).
Qed.

Lemma items_exact_within_witness :
  (exists l,
     Limited.items default_limit (run [Insert "do" (fl 2 0)] new_trie)
     = (Returned l, run [Insert "do" (fl 2 0)] new_trie)
     /\ Z.of_nat (length l) = 1)
  /\ Limited.items 2 (run [Insert "do" (fl 2 0)] new_trie)
     = (RecursionError, run [Insert "do" (fl 2 0)] new_trie).
Proof.
  assert (Hd : (levels (root (run [Insert "do" (fl 2 0)] new_trie))
                <= default_limit)%nat)
    by (apply Nat.leb_le; vm_compute; reflexivity).
  assert (Hd' : (2 < levels (root (run [Insert "do" (fl 2 0)] new_trie)))%nat)
    by (apply Nat.ltb_lt; vm_compute; reflexivity).
  split.
  - destruct (proj1 (items_exact_within default_limit [Insert "do" (fl 2 0)])
                Hd) as (l & H1 & _ & _ & H4).
    exists l. split; [exact H1|]. rewrite H4. vm_compute. reflexivity.
  - exact (proj2 (items_exact_within 2 [Insert "do" (fl 2 0)]) Hd').
Defined.

(** X7: on a trie with unique keys, with [k] at least the number of matches
    and the subtree of the prefix no deeper than the recursion limit,
    [complete(p, k)] returns every stored word that starts with [p], each
    once; with a deeper subtree it raises [RecursionError]. *)
Theorem complete_all_within (limit : nat) (p : string) (k : Z) (self : Trie) :
  wf_node (root self) = true ->
  Z.of_nat (length (matches p self)) <= k ->
  ((complete_depth p self <= limit)%nat ->
     exists r,
       Limited.complete limit p k self = (Returned r, self)
       /\ Permutation r (matches p self)
       /\ (forall w, In w r
                     <-> String.prefix p w = true
                         /\ fst (contains w self) = true))
  /\ ((limit < complete_depth p self)%nat ->
        Limited.complete limit p k self = (RecursionError, self)).
Proof.
  intros Hwf Hk. split; [|apply Limited_complete_raises].
  intros H. exists (fst (complete p k self)).
  split; [now apply Limited_complete_returns|].
  exact (complete_all p k self Hwf Hk).
Qed.

Lemma complete_all_within_witness :
  (exists r,
     Limited.complete default_limit "ca" 5 sample_trie
     = (Returned r, sample_trie)
     /\ Permutation r (matches "ca" sample_trie))
  /\ Limited.complete 2 "ca" 5 sample_trie = (RecursionError, sample_trie).
Proof.
  assert (Hwf : wf_node (root sample_trie) = true) by (vm_compute; reflexivity).
  assert (Hk : Z.of_nat (length (matches "ca" sample_trie)) <= 5)
    by (apply Z.leb_le; vm_compute; reflexivity).
  assert (Hd : (complete_depth "ca" sample_trie <= default_limit)%nat)
    by (apply Nat.leb_le; vm_compute; reflexivity).
  assert (Hd' : (2 < complete_depth "ca" sample_trie)%nat)
    by (apply Nat.ltb_lt; vm_compute; reflexivity).
  split.
  - destruct (proj1 (complete_all_within default_limit "ca" 5 sample_trie
                       Hwf Hk) Hd) as (r & H1 & H2 & _).
    exists r. split; [exact H1|exact H2].
  - exact (proj2 (complete_all_within 2 "ca" 5 sample_trie Hwf Hk) Hd').
Defined.

(** X10: in every state reached from a fresh trie, the trie is one level
    deeper than its longest stored word is long; when that is within the
    recursion limit [stats()] returns the number of stored words, that
    depth, and the number of nodes of the tree, and otherwise it raises
    [RecursionError]. *)
Theorem stats_exact_within (limit : nat) (cs : list command) :
  let self := run cs new_trie in
  Z.of_nat (levels (root self))
  = 1 + longest (map fst (stored (root self)))
  /\ ((levels (root self) <= limit)%nat ->
        Limited.stats limit self
        = (Returned (Z.of_nat (length (stored (root self))),
                     1 + longest (map fst (stored (root self))),
                     size (root self)), self))
  /\ ((limit < levels (root self))%nat ->
        Limited.stats limit self = (RecursionError, self)).
Proof.
  cbn zeta.
  destruct (counters_exact_run cs new_trie counters_exact_new)
    as (_ & _ & Hnd).
  split; [|split; [|apply Limited_stats_raises]].
  - now rewrite <- height_levels, (height_longest _ Hnd).
  - intros H. rewrite Limited_stats_returns by assumption.
    now rewrite (stats_exact cs), items_stored.
Qed.

Lemma stats_exact_within_witness :
  Limited.stats default_limit (run [Insert "do" (fl 2 0)] new_trie)
  = (Returned (1, 3, 3), run [Insert "do" (fl 2 0)] new_trie)
  /\ Limited.stats 2 (run [Insert "do" (fl 2 0)] new_trie)
     = (RecursionError, run [Insert "do" (fl 2 0)] new_trie).
Proof.
  assert (Hd : (levels (root (run [Insert "do" (fl 2 0)] new_trie))
                <= default_limit)%nat)
    by (apply Nat.leb_le; vm_compute; reflexivity).
  assert (Hd' : (2 < levels (root (run [Insert "do" (fl 2 0)] new_trie)))%nat)
    by (apply Nat.ltb_lt; vm_compute; reflexivity).
  split.
  - rewrite (proj1 (proj2 (stats_exact_within default_limit
                             [Insert "do" (fl 2 0)])) Hd).
    vm_compute. reflexivity.
  - exact (proj2 (proj2 (stats_exact_within 2 [Insert "do" (fl 2 0)])) Hd').
Defined.

(** * The queries over the objects in memory *)

Section ReadsOnly.
Context {A B : Type}.

Lemma reads_only_ret (a : A) : reads_only (Heap.ret a).
Proof. intros s. reflexivity. Qed.

Lemma reads_only_raise : reads_only (@Heap.raise A).
Proof. intros s. reflexivity. Qed.

Lemma reads_only_bind (m : Heap.action A) (f : A -> Heap.action B) :
  reads_only m -> (forall a, reads_only (f a)) -> reads_only (Heap.bind m f).
Proof.
  intros Hm Hf s. unfold Heap.bind. specialize (Hm s).
  destruct (m s) as [[a|] s']; cbn [snd] in *; subst s'; [apply Hf|].
  reflexivity.
Qed.

End ReadsOnly.

(** A loop whose every iteration only reads only reads. *)
Lemma reads_only_loop {A B : Type}
    (f : Heap.action A -> B -> Heap.action A) (l : list B) :
  (forall m b, reads_only m -> reads_only (f m b)) ->
  forall m, reads_only m -> reads_only (fold_left f l m).
Proof.
  intros Hf. induction l as [|b l IH]; intros m Hm; cbn [fold_left]; auto.
Qed.

Lemma reads_only_node r : reads_only (Heap.node r).
Proof. intros s. reflexivity. Qed.

Lemma reads_only_self_root : reads_only Heap.self_root.
Proof. intros s. reflexivity. Qed.

Lemma reads_only_self_words : reads_only Heap.self_words.
Proof. intros s. reflexivity. Qed.

Lemma reads_only_self_nodes : reads_only Heap.self_nodes.
Proof. intros s. reflexivity. Qed.

Lemma reads_only_walk prefix : forall r, reads_only (Heap.walk prefix r).
Proof.
  induction prefix as [|c rest IH]; intros r; cbn [Heap.walk].
  - apply reads_only_ret.
  - apply reads_only_bind; [apply reads_only_node|]. intros o.
    destruct (Dict.get c (Heap.children o)); [apply IH | apply reads_only_ret].
Qed.

Lemma reads_only_dfs limit : forall r path heap,
  reads_only (Heap.dfs limit r path heap).
Proof.
  induction limit as [|limit IH]; intros r path heap; cbn [Heap.dfs].
  - apply reads_only_raise.
  - apply reads_only_bind; [apply reads_only_node|]. intros o.
    apply reads_only_loop; [|apply reads_only_ret].
    intros m [ch c] Hm. apply reads_only_bind; [exact Hm|]. intros h. apply IH.
Qed.

Lemma reads_only_items_dfs limit : forall r path result,
  reads_only (Heap.items_dfs limit r path result).
Proof.
  induction limit as [|limit IH]; intros r path result; cbn [Heap.items_dfs].
  - apply reads_only_raise.
  - apply reads_only_bind; [apply reads_only_node|]. intros o.
    apply reads_only_loop; [|apply reads_only_ret].
    intros m [ch c] Hm. apply reads_only_bind; [exact Hm|]. intros h. apply IH.
Qed.

Lemma reads_only_height limit : forall r, reads_only (Heap.height limit r).
Proof.
  induction limit as [|limit IH]; intros r; cbn [Heap.height].
  - apply reads_only_raise.
  - apply reads_only_bind; [apply reads_only_node|]. intros o.
    destruct (Heap.children o) as [|kv cs] eqn:E; [apply reads_only_ret|].
    apply reads_only_bind; [|intros best; apply reads_only_ret].
    apply reads_only_loop; [|apply reads_only_ret].
    intros m [ch c] Hm. apply reads_only_bind; [exact Hm|]. intros best.
    apply reads_only_bind; [apply IH|]. intros h. apply reads_only_ret.
Qed.

(** C9: [complete], [stats] and [items] assign no attribute of any object:
    whatever the objects in memory, the prefix, [k] and the recursion limit,
    and whether the call returns or raises [RecursionError], every node's
    children, terminal flag and weight and the two counters are after the
    call what they were before it. *)
Theorem queries_leave_store (limit : nat) (prefix : string) (k : Z)
    (s : Heap.store) :
  snd (Heap.complete limit prefix k s) = s
  /\ snd (Heap.stats limit s) = s
  /\ snd (Heap.items limit s) = s.
Proof.
  repeat split.
  - revert s. change (reads_only (Heap.complete limit prefix k)).
    apply reads_only_bind; [apply reads_only_self_root|]. intros r.
    apply reads_only_bind; [apply reads_only_walk|]. intros [n|].
    + apply reads_only_bind; [apply reads_only_dfs|]. intros heap.
      apply reads_only_ret.
    + apply reads_only_ret.
  - revert s. change (reads_only (Heap.stats limit)).
    apply reads_only_bind; [apply reads_only_self_root|]. intros r.
    apply reads_only_bind; [apply reads_only_height|]. intros h.
    apply reads_only_bind; [apply reads_only_self_words|]. intros w.
    apply reads_only_bind; [apply reads_only_self_nodes|]. intros n.
    apply reads_only_ret.
  - revert s. change (reads_only (Heap.items limit)).
    apply reads_only_bind; [apply reads_only_self_root|]. intros r.
    apply reads_only_items_dfs.
Qed.

(** ** The objects and the tree they spell out *)

Lemma represents_inv objs r n :
  represents objs r n ->
  Heap.is_word (nth r objs Heap.fresh) = is_word n
  /\ Heap.freq (nth r objs Heap.fresh) = freq n
  /\ Forall2 (fun (kr : ascii * Heap.ref) (kn : ascii * TrieNode) =>
                fst kr = fst kn /\ represents objs (snd kr) (snd kn))
             (Heap.children (nth r objs Heap.fresh)) (children n).
Proof. intros H. inversion H; subst. now repeat split. Qed.

Lemma represents_get objs c (d1 : Dict.t Heap.ref) (d2 : Dict.t TrieNode) :
  Forall2 (fun (kr : ascii * Heap.ref) (kn : ascii * TrieNode) =>
             fst kr = fst kn /\ represents objs (snd kr) (snd kn)) d1 d2 ->
  match Dict.get c d2 with
  | None => Dict.get c d1 = None
  | Some m => exists r, Dict.get c d1 = Some r /\ represents objs r m
  end.
Proof.
  induction 1 as [|[k1 r1] [k2 n2] d1 d2 [Hk Hr] _ IH]; [reflexivity|].
  cbn [fst snd] in *. subst k2. cbn [Dict.get].
  destruct (Ascii.eqb c k1); [now exists r1 | exact IH].
Qed.

Lemma Heap_bind_outcome {A B : Type} (m : Heap.action A) (o : option A)
    (f : A -> Heap.action B) s :
  m s = (outcome_of o, s) ->
  Heap.bind m f s
  = match o with Some a => f a s | None => (RecursionError, s) end.
Proof. intros H. unfold Heap.bind. rewrite H. now destruct o. Qed.

Lemma Heap_walk_refines p : forall r n s,
  represents (Heap.objects s) r n ->
  match find_node p n with
  | None => Heap.walk p r s = (Returned None, s)
  | Some m =>
      exists r', Heap.walk p r s = (Returned (Some r'), s)
                 /\ represents (Heap.objects s) r' m
  end.
Proof.
  induction p as [|c p IH]; intros r n s H; cbn [find_node Heap.walk].
  - now exists r.
  - destruct (represents_inv _ _ _ H) as (_ & _ & Hcs).
    pose proof (represents_get _ c _ _ Hcs) as Hg.
    unfold Heap.bind, Heap.node.
    destruct (Dict.get c (children n)) as [m|].
    + destruct Hg as (r' & Hr' & Hrep). rewrite Hr'. now apply IH.
    + now rewrite Hg.
Qed.

Lemma Heap_dfs_refines limit : forall r n path heap s,
  represents (Heap.objects s) r n ->
  Heap.dfs limit r path heap s
  = (outcome_of (Limited.dfs limit n path heap), s).
Proof.
  induction limit as [|limit IH]; intros r n path heap s H; [reflexivity|].
  destruct (represents_inv _ _ _ H) as (Hw & Hf & Hcs).
  cbn [Heap.dfs Limited.dfs]. unfold Heap.bind at 1, Heap.node.
  rewrite Hw, Hf.
  assert (Hstart :
    Heap.ret (if is_word n then heap ++ [(SFopp (freq n), path)] else heap) s
    = (outcome_of
         (Some (if is_word n then heap ++ [(SFopp (freq n), path)] else heap)),
       s)) by reflexivity.
  revert Hstart.
  generalize (Heap.ret (if is_word n then heap ++ [(SFopp (freq n), path)]
                        else heap)) as m.
  generalize (Some (if is_word n then heap ++ [(SFopp (freq n), path)]
                    else heap)) as o.
  induction Hcs as [|[k1 r1] [k2 n2] d1 d2 [Hk Hr] _ IHcs]; intros o m Hm;
    cbn [fold_left]; [exact Hm|].
  cbn [fst snd] in *. subst k2. apply IHcs.
  rewrite (Heap_bind_outcome _ _ _ _ Hm).
  destruct o as [h|]; [now apply IH | reflexivity].
Qed.

Lemma Heap_items_dfs_refines limit : forall r n path result s,
  represents (Heap.objects s) r n ->
  Heap.items_dfs limit r path result s
  = (outcome_of (Limited.items_dfs limit n path result), s).
Proof.
  induction limit as [|limit IH]; intros r n path result s H; [reflexivity|].
  destruct (represents_inv _ _ _ H) as (Hw & Hf & Hcs).
  cbn [Heap.items_dfs Limited.items_dfs]. unfold Heap.bind at 1, Heap.node.
  rewrite Hw, Hf.
  assert (Hstart :
    Heap.ret (if is_word n then result ++ [(path, freq n)] else result) s
    = (outcome_of
         (Some (if is_word n then result ++ [(path, freq n)] else result)),
       s)) by reflexivity.
  revert Hstart.
  generalize (Heap.ret (if is_word n then result ++ [(path, freq n)]
                        else result)) as m.
  generalize (Some (if is_word n then result ++ [(path, freq n)]
                    else result)) as o.
  induction Hcs as [|[k1 r1] [k2 n2] d1 d2 [Hk Hr] _ IHcs]; intros o m Hm;
    cbn [fold_left]; [exact Hm|].
  cbn [fst snd] in *. subst k2. apply IHcs.
  rewrite (Heap_bind_outcome _ _ _ _ Hm).
  destruct o as [h|]; [now apply IH | reflexivity].
Qed.

(** On a store that holds a trie, [complete] and [items] give what the
    methods on the tree give, and leave the store as it was. *)
Lemma Heap_complete_refines limit p k s t :
  holds s t ->
  Heap.complete limit p k s = (fst (Limited.complete limit p k t), s).
Proof.
  intros (Hrep & _ & _). unfold Heap.complete, Limited.complete.
  unfold Heap.bind at 1, Heap.self_root.
  pose proof (Heap_walk_refines p _ _ s Hrep) as Hw.
  unfold Heap.bind at 1.
  destruct (find_node p (root t)) as [node|].
  - destruct Hw as (r' & Hw & Hrep'). rewrite Hw.
    rewrite (Heap_bind_outcome _ _ _ _
               (Heap_dfs_refines limit r' node p [] s Hrep')).
    now destruct (Limited.dfs limit node p []).
  - now rewrite Hw.
Qed.

Lemma Heap_items_refines limit s t :
  holds s t -> Heap.items limit s = (fst (Limited.items limit t), s).
Proof.
  intros (Hrep & _ & _). unfold Heap.items, Limited.items.
  unfold Heap.bind, Heap.self_root.
  rewrite (Heap_items_dfs_refines limit _ _ EmptyString [] s Hrep).
  now destruct (Limited.items_dfs limit (root t) EmptyString []).
Qed.

Lemma Limited_height_fold_nonneg limit (cs : Dict.t TrieNode) mx :
  fold_right
    (fun (kv : ascii * TrieNode) (m : option Z) =>
       let (_, c) := kv in
       match Limited.height limit c, m with
       | Some h, Some m' => Some (Z.max h m')
       | _, _ => None
       end) (Some 0) cs = Some mx ->
  0 <= mx.
Proof.
  revert mx. induction cs as [|[k c] cs IH]; intros mx; cbn [fold_right].
  - intros [= <-]. lia.
  - destruct (Limited.height limit c) as [h|]; [|discriminate].
    destruct (fold_right _ (Some 0) cs) as [m'|]; [|discriminate].
    intros [= <-]. specialize (IH m' eq_refl). lia.
Qed.

Lemma Heap_height_refines limit : forall r n s,
  represents (Heap.objects s) r n ->
  Heap.height limit r s = (outcome_of (Limited.height limit n), s).
Proof.
  induction limit as [|limit IH]; intros r n s H; [reflexivity|].
  destruct (represents_inv _ _ _ H) as (_ & _ & Hcs).
  cbn [Heap.height Limited.height]. unfold Heap.bind at 1, Heap.node.
  assert (Hloop : forall (o : option Z) (m : Heap.action Z),
    (forall b, o = Some b -> 0 <= b) ->
    m s = (outcome_of o, s) ->
    fold_left
      (fun (m : Heap.action Z) (kv : ascii * Heap.ref) =>
         let (_, c) := kv in
         Heap.bind m (fun best =>
         Heap.bind (Heap.height limit c) (fun h => Heap.ret (Z.max best h))))
      (Heap.children (nth r (Heap.objects s) Heap.fresh)) m s
    = (outcome_of
         match o,
               fold_right
                 (fun (kv : ascii * TrieNode) (m : option Z) =>
                    let (_, c) := kv in
                    match Limited.height limit c, m with
                    | Some h, Some m' => Some (Z.max h m')
                    | _, _ => None
                    end) (Some 0) (children n)
         with
         | Some b, Some mx => Some (Z.max b mx)
         | _, _ => None
         end, s)).
  { induction Hcs as [|[k1 r1] [k2 n2] d1 d2 [Hk Hr] _ IHcs];
      intros o m Hpos Hm; cbn [fold_left fold_right].
    - rewrite Hm. destruct o as [b|]; [|reflexivity].
      specialize (Hpos b eq_refl). cbn [outcome_of]. do 2 f_equal. lia.
    - cbn [fst snd] in *.
      rewrite (IHcs
        match o, Limited.height limit n2 with
        | Some b, Some h => Some (Z.max b h)
        | _, _ => None
        end).
      + destruct o as [b|]; [|reflexivity].
        destruct (Limited.height limit n2) as [h|]; [|reflexivity].
        destruct (fold_right _ (Some 0) d2) as [m'|]; [|reflexivity].
        cbn [outcome_of]. do 2 f_equal. lia.
      + intros b'. destruct o as [b|]; [|discriminate].
        destruct (Limited.height limit n2) as [h|]; [|discriminate].
        intros [= <-]. specialize (Hpos b eq_refl). lia.
      + rewrite (Heap_bind_outcome _ _ _ _ Hm).
        destruct o as [b|]; [|reflexivity].
        rewrite (Heap_bind_outcome _ _ _ _ (IH r1 n2 s Hr)).
        now destruct (Limited.height limit n2). }
  inversion Hcs as [|kr kn d1 d2 Hhd Htl Hd1 Hd2].
  - reflexivity.
  - rewrite Hd1, Hd2.
    assert (Hzero : forall b, Some 0 = Some b -> 0 <= b)
      by (intros b [= <-]; lia).
    rewrite (Heap_bind_outcome _ _ _ _
               (Hloop (Some 0) (Heap.ret 0) Hzero eq_refl)).
    destruct (fold_right _ (Some 0) (children n)) as [mx|] eqn:E;
      [|reflexivity].
    apply Limited_height_fold_nonneg in E.
    cbn [option_map outcome_of]. unfold Heap.ret. do 2 f_equal. lia.
Qed.

Lemma Heap_stats_refines limit s t :
  holds s t -> Heap.stats limit s = (fst (Limited.stats limit t), s).
Proof.
  intros (Hrep & Hw & Hn). unfold Heap.stats, Limited.stats.
  unfold Heap.bind at 1, Heap.self_root.
  rewrite (Heap_bind_outcome _ _ _ _ (Heap_height_refines limit _ _ s Hrep)).
  destruct (Limited.height limit (root t)) as [h|]; [|reflexivity].
  cbn. now rewrite Hw, Hn.
Qed.

(** The store that three calls of [insert] leave holds the trie that the
    same calls build, and [insert] has written to it. *)
Example sample_store_holds :
  holds sample_store sample_trie /\ sample_store <> Heap.new_trie.
Proof.
  split; [|discriminate].
  unfold holds. vm_compute. repeat split; repeat econstructor.
Qed.
